(** * The [directus_comments] migration: [up] and [down]

    A shallow embedding of the schema migration that moves the comments
    stored in [directus_activity] into a table of their own
    ([directus_comments]) and of its reversal, together with the
    properties of the two directions.

    The database is an explicit value threaded through a small
    state-and-error monad; every knex call is one step of that monad, it
    is recorded in a query log and it may be rejected by the engine. *)

From Stdlib Require Import String List ZArith Bool Arith Lia DecimalString.
From Stdlib Require Import Permutation Sorted.
Import ListNotations.

(* ================================================================== *)
(** ** Data model *)

(** Modelled from the spec: the [Action] enumeration of
    [@directus/constants] is imported by the migration but its
    declaration is not among the sources.  The migration uses
    [Action.CREATE] and [Action.COMMENT]; every other kind of activity is
    kept under its name. *)
Inductive Action : Type :=
| CREATE
| COMMENT
| OTHER (name : string).

Definition Action_eqb (a b : Action) : bool :=
  match a, b with
  | CREATE, CREATE => true
  | COMMENT, COMMENT => true
  | OTHER x, OTHER y => String.eqb x y
  | _, _ => false
  end.

(** A row of [directus_activity], with the columns the migration reads
    or writes.  [id] is the auto-incremented primary key, [comment] is
    the only nullable text column, [user] a nullable reference. *)
Module Activity.
Record t : Type := mk
  { id : Z;
    action : Action;
    collection : string;
    item : string;
    comment : option string;
    user : option string;
    timestamp : Z }.
End Activity.

(** A row of [directus_comments] as [up] writes it and [down] reads it:
    [id] is the uuid primary key, [collection], [item] and [comment] are
    [notNullable].  The columns [date_updated] and [user_updated] are
    declared by [createTable] but neither direction of the migration
    names them, so they are left out of the row. *)
Module Comment.
Record t : Type := mk
  { id : string;
    collection : string;
    item : string;
    comment : string;
    date_created : Z;
    user_created : option string }.
End Comment.

(** The part of the database the migration touches.
    [directus_comments] is [None] while the table does not exist.
    [directus_collections] and [directus_users] hold the keys the two
    foreign keys of [directus_comments] refer to. *)
Record DB : Type := mkDB
  { directus_activity : list Activity.t;
    directus_comments : option (list Comment.t);
    directus_collections : list string;
    directus_users : list string }.

Definition set_activity (rows : list Activity.t) (d : DB) : DB :=
  mkDB rows (directus_comments d) (directus_collections d) (directus_users d).

Definition set_comments (t : option (list Comment.t)) (d : DB) : DB :=
  mkDB (directus_activity d) t (directus_collections d) (directus_users d).

(** Ways a knex call is rejected. *)
Inductive Error : Type :=
| TableExists
| NoSuchTable
| UniqueViolation
| ForeignKeyViolation
| NotNullViolation
| EngineFault.

Inductive Result (A : Type) : Type :=
| Ok (a : A)
| Err (e : Error).

Arguments Ok {A} a.
Arguments Err {A} e.

(** The query log: one entry per statement sent to the database, in the
    order in which it was sent, whether it succeeded or not. *)
Inductive Event : Type :=
| EvCreateTable
| EvSelectLegacy
| EvBegin
| EvInsertComment (id : string)
| EvUpdateActivity (id : Z)
| EvCommit
| EvRollback
| EvSelectComments
| EvFindMigrated (id : string)
| EvFindUnmigrated (collection item : string)
| EvInsertActivity
| EvDropTable.

(** The state the migration runs in: the database, the query log and the
    number of identifiers drawn from [randomUUID] so far. *)
Record World : Type := mkWorld
  { db : DB;
    trace : list Event;
    drawn : nat }.

Definition M (A : Type) : Type := World -> Result A * World.

Definition ret {A} (a : A) : M A := fun w => (Ok a, w).

Definition bind {A B} (m : M A) (f : A -> M B) : M B :=
  fun w => match m w with
           | (Ok a, w') => f a w'
           | (Err e, w') => (Err e, w')
           end.

Declare Scope migration_scope.
Delimit Scope migration_scope with mig.
Notation "x <- m ;; k" := (bind m (fun x => k))
  (at level 61, m at next level, right associativity) : migration_scope.
Notation "m ;; k" := (bind m (fun _ => k))
  (at level 61, right associativity) : migration_scope.
Local Open Scope migration_scope.

(** [for (const x of xs) await f(x)] *)
Fixpoint forEach {A} (f : A -> M unit) (xs : list A) : M unit :=
  match xs with
  | [] => ret tt
  | x :: rest => f x ;; forEach f rest
  end.

(* ------------------------------------------------------------------ *)
(** *** The chunked-iteration collaborator *)

(** Modelled from the spec: [processChunk] of [@directus/utils] is
    imported by the migration but is not among the sources.  It accepts
    an ordered sequence of records, a chunk size, and a per-chunk
    callback; it invokes the callback once per chunk in order, awaiting
    completion before proceeding to the next chunk.  A chunk is the next
    [size] records, the last chunk holds what is left. *)
Fixpoint chunksOf {A} (fuel size : nat) (arr : list A) : list (list A) :=
  match fuel with
  | O => []
  | S fuel' =>
      match arr with
      | [] => []
      | _ :: _ => firstn size arr :: chunksOf fuel' size (skipn size arr)
      end
  end.

(** Modelled from the spec: the chunks [processChunk] forms of [arr];
    a sequence of [n] records has at most [n] chunks. *)
Definition chunks {A} (size : nat) (arr : list A) : list (list A) :=
  chunksOf (List.length arr) size arr.

(** The sizes of the chunks of a sequence of [n] records. *)
Fixpoint chunk_sizes (fuel size n : nat) : list nat :=
  match fuel with
  | O => []
  | S fuel' =>
      match n with
      | O => []
      | S _ => Nat.min size n :: chunk_sizes fuel' size (n - size)
      end
  end.

(** Modelled from the spec: [processChunk(arr, size, callback)], the
    callback awaited on each chunk in turn; a rejection ends the
    iteration and is passed on. *)
Definition processChunk {A} (arr : list A) (size : nat)
    (callback : list A -> M unit) : M unit :=
  forEach callback (chunks size arr).

(* ------------------------------------------------------------------ *)
(** *** Queries on the tables *)

Definition is_some {A} (o : option A) : bool :=
  match o with Some _ => true | None => false end.

Definition mem_string (s : string) (l : list string) : bool :=
  existsb (String.eqb s) l.

(** [ORDER BY id]: ascending; [insert_by_id] puts a row before the first
    row of the sorted list whose key is not smaller. *)
Fixpoint insert_by_id (r : Activity.t) (l : list Activity.t) : list Activity.t :=
  match l with
  | [] => [r]
  | x :: rest =>
      if (Activity.id r <=? Activity.id x)%Z then r :: l
      else x :: insert_by_id r rest
  end.

(** [orderBy('id')] *)
Definition orderBy_id (l : list Activity.t) : list Activity.t :=
  fold_right insert_by_id [] l.

(** [select(...).from('directus_activity').whereNotNull('comment').orderBy('id')] *)
Definition legacy_comments (d : DB) : list Activity.t :=
  orderBy_id (filter (fun r => is_some (Activity.comment r)) (directus_activity d)).

(** [update(...).where('id', '=', k)] on [directus_activity]. *)
Definition update_where_id (k : Z) (f : Activity.t -> Activity.t)
    (rows : list Activity.t) : list Activity.t :=
  map (fun r => if (Activity.id r =? k)%Z then f r else r) rows.

(** [select('id').where(...).limit(1)] on [directus_activity]: the first
    matching row in the order in which the table stores its rows. *)
Definition select_id_limit1 (p : Activity.t -> bool)
    (rows : list Activity.t) : list Z :=
  firstn 1 (map Activity.id (filter p rows)).

(** Whether a key of [directus_activity] is taken. *)
Definition key_taken (k : Z) (rows : list Activity.t) : bool :=
  existsb (Z.eqb k) (map Activity.id rows).

(** The constraints [createTable] declares for [directus_comments]: the
    primary key on [id], the foreign key of [collection] into
    [directus_collections] and that of [user_created] into
    [directus_users]. *)
Definition check_insert_comment (c : Comment.t) (d : DB) (rows : list Comment.t)
    : Result unit :=
  if existsb (fun x => String.eqb (Comment.id x) (Comment.id c)) rows
  then Err UniqueViolation
  else if negb (mem_string (Comment.collection c) (directus_collections d))
  then Err ForeignKeyViolation
  else match Comment.user_created c with
       | Some u => if mem_string u (directus_users d) then Ok tt
                   else Err ForeignKeyViolation
       | None => Ok tt
       end.

(** The rewrites of an activity row. *)

(** [{ action: Action.CREATE, collection: 'directus_comments',
       item: newCommentId, comment: null }] *)
Definition relink (newCommentId : string) (r : Activity.t) : Activity.t :=
  Activity.mk (Activity.id r) CREATE "directus_comments" newCommentId None
    (Activity.user r) (Activity.timestamp r).

(** [{ action: Action.COMMENT, collection: comment.collection,
       item: comment.item, comment: comment.comment }] *)
Definition restore (c : Comment.t) (r : Activity.t) : Activity.t :=
  Activity.mk (Activity.id r) COMMENT (Comment.collection c) (Comment.item c)
    (Some (Comment.comment c)) (Activity.user r) (Activity.timestamp r).

(** [{ comment: comment.comment }] *)
Definition overwrite_text (c : Comment.t) (r : Activity.t) : Activity.t :=
  Activity.mk (Activity.id r) (Activity.action r) (Activity.collection r)
    (Activity.item r) (Some (Comment.comment c)) (Activity.user r)
    (Activity.timestamp r).

(** The row [down] inserts when nothing matches. *)
Definition fabricate (k : Z) (c : Comment.t) : Activity.t :=
  Activity.mk k COMMENT (Comment.collection c) (Comment.item c)
    (Some (Comment.comment c)) (Comment.user_created c) (Comment.date_created c).

(** The two searches of [down]. *)
Definition is_cross_reference (c : Comment.t) (r : Activity.t) : bool :=
  String.eqb (Activity.collection r) "directus_comments"
  && String.eqb (Activity.item r) (Comment.id c)
  && Action_eqb (Activity.action r) CREATE.

Definition is_shadow (c : Comment.t) (r : Activity.t) : bool :=
  String.eqb (Activity.collection r) (Comment.collection c)
  && String.eqb (Activity.item r) (Comment.item c)
  && Action_eqb (Activity.action r) COMMENT.

(* ------------------------------------------------------------------ *)
(** *** Vocabulary of the statements *)

(** The text of a selected row ([whereNotNull] makes it present). *)
Definition comment_text (r : Activity.t) : string :=
  match Activity.comment r with Some text => text | None => EmptyString end.

(** The comment row [up] inserts for the selected row [fst p] under the
    identifier [snd p]. *)
Definition comment_of (p : Activity.t * string) : Comment.t :=
  Comment.mk (snd p) (Activity.collection (fst p)) (Activity.item (fst p))
    (comment_text (fst p)) (Activity.timestamp (fst p)) (Activity.user (fst p)).

(** The update [up] sends for the selected row [fst p]. *)
Definition relink_step (rows : list Activity.t) (p : Activity.t * string)
    : list Activity.t :=
  update_where_id (Activity.id (fst p)) (relink (snd p)) rows.

(** The identifier paired with the row of key [k], if any. *)
Fixpoint assigned (L : list (Activity.t * string)) (k : Z) : option string :=
  match L with
  | [] => None
  | p :: rest => if (Activity.id (fst p) =? k)%Z then Some (snd p) else assigned rest k
  end.

(** The table once every row paired in [L] is rewritten. *)
Definition relink_all (L : list (Activity.t * string)) (rows : list Activity.t)
    : list Activity.t :=
  map (fun a => match assigned L (Activity.id a) with
                | Some u => relink u a
                | None => a
                end) rows.

(** The statements of one committed transaction of [up]. *)
Definition tx_events (p : Activity.t * string) : list Event :=
  [EvBegin; EvInsertComment (snd p); EvUpdateActivity (Activity.id (fst p)); EvCommit].

(** The statements a transaction of [up] for the row [r] may send. *)
Definition tx_event_of (r : Activity.t) (ev : Event) : Prop :=
  match ev with
  | EvBegin | EvInsertComment _ | EvCommit | EvRollback => True
  | EvUpdateActivity k => k = Activity.id r
  | _ => False
  end.

(** The statements the loop of [down] may send. *)
Definition reconcile_event (ev : Event) : Prop :=
  match ev with
  | EvFindMigrated _ | EvFindUnmigrated _ _ | EvUpdateActivity _
  | EvInsertActivity => True
  | _ => False
  end.

(** What [down] does to [directus_activity] for one comment row, as a
    function of the table, [key rows] being the key the engine assigns
    to a row inserted into [rows] without an [id]; [None] when the
    insert is rejected because that key is taken. *)
Definition reconciled (key : list Activity.t -> Z) (c : Comment.t)
    (rows : list Activity.t) : option (list Activity.t) :=
  match select_id_limit1 (is_cross_reference c) rows with
  | k :: _ => Some (update_where_id k (restore c) rows)
  | [] =>
      match select_id_limit1 (is_shadow c) rows with
      | k :: _ => Some (update_where_id k (overwrite_text c) rows)
      | [] =>
          if key_taken (key rows) rows then None
          else Some (rows ++ [fabricate (key rows) c])
      end
  end.

(** The loop of [down] on [directus_activity], as a function of the
    table; [None] when an insert is rejected. *)
Fixpoint reconciled_all (key : list Activity.t -> Z) (cs : list Comment.t)
    (rows : list Activity.t) : option (list Activity.t) :=
  match cs with
  | [] => Some rows
  | c :: rest =>
      match reconciled key c rows with
      | Some rows' => reconciled_all key rest rows'
      | None => None
      end
  end.

(** A row with its [action] set to [COMMENT] and nothing else changed. *)
Definition as_comment (r : Activity.t) : Activity.t :=
  Activity.mk (Activity.id r) COMMENT (Activity.collection r) (Activity.item r)
    (Activity.comment r) (Activity.user r) (Activity.timestamp r).

(** A row of the table while [down] undoes what [up] did: the rows
    paired in [done] are restored, those paired in [todo] still point to
    their comment row. *)
Definition midway (done todo : list (Activity.t * string)) (a : Activity.t)
    : Activity.t :=
  match assigned done (Activity.id a) with
  | Some _ => as_comment a
  | None =>
      match assigned todo (Activity.id a) with
      | Some u => relink u a
      | None => a
      end
  end.

(** The fields of a legacy comment the round trip is about. *)
Definition same_comment (r r' : Activity.t) : Prop :=
  Activity.id r' = Activity.id r /\
  Activity.collection r' = Activity.collection r /\
  Activity.item r' = Activity.item r /\
  Activity.comment r' = Activity.comment r /\
  Activity.user r' = Activity.user r /\
  Activity.timestamp r' = Activity.timestamp r.

(** A cross-reference entry for the comment row [c]: what the first
    search of [down] looks for. *)
Definition cross_reference_of (c : Comment.t) (r : Activity.t) : Prop :=
  Activity.collection r = "directus_comments"%string /\
  Activity.item r = Comment.id c /\
  Activity.action r = CREATE.

(** An entry of [action = COMMENT] on the item of the comment row [c]:
    what the second search of [down] looks for. *)
Definition shadow_of (c : Comment.t) (r : Activity.t) : Prop :=
  Activity.collection r = Comment.collection c /\
  Activity.item r = Comment.item c /\
  Activity.action r = COMMENT.

(** The fields the update of [up] does not name. *)
Definition same_attribution (r r' : Activity.t) : Prop :=
  Activity.id r' = Activity.id r /\
  Activity.user r' = Activity.user r /\
  Activity.timestamp r' = Activity.timestamp r.

(** Rows in ascending order of [id]. *)
Definition ascending (l : list Activity.t) : Prop :=
  StronglySorted Z.le (map Activity.id l).

(** The statements sent between two states of a run. *)
Definition events_since (w w' : World) : list Event :=
  skipn (List.length (trace w)) (trace w').

(** The keys of the update statements in a log, in the order sent. *)
Fixpoint updated_ids (evs : list Event) : list Z :=
  match evs with
  | [] => []
  | EvUpdateActivity k :: rest => k :: updated_ids rest
  | _ :: rest => updated_ids rest
  end.

(** A computation that only sends statements of the kind [P], whatever
    its outcome. *)
Definition emits {A} (P : Event -> Prop) (m : M A) : Prop :=
  forall w r w', m w = (r, w') ->
    exists evs, trace w' = trace w ++ evs /\ Forall P evs.

(** A computation that takes the tables along [R], whatever its
    outcome. *)
Definition keeps {A} (R : DB -> DB -> Prop) (m : M A) : Prop :=
  forall w r w', m w = (r, w') -> R (db w) (db w').

(** The rows of [directus_comments], none while the table does not
    exist. *)
Definition comment_rows (d : DB) : list Comment.t :=
  match directus_comments d with
  | Some rows => rows
  | None => []
  end.

(** The state in which the loop of [up] starts: the table is created
    and the legacy comments are selected. *)
Definition after_setup (w : World) : World :=
  mkWorld (set_comments (Some []) (db w))
    (trace w ++ [EvCreateTable; EvSelectLegacy]) (drawn w).

(** Two states with the same query log and the same number of
    identifiers drawn, whose tables are related by [same]. *)
Definition same_state (same : DB -> DB -> Prop) (w w' : World) : Prop :=
  same (db w) (db w') /\ trace w = trace w' /\ drawn w = drawn w'.

(** The foreign keys of [directus_comments] are satisfied by a selected
    row. *)
Definition references_exist (d : DB) (r : Activity.t) : Prop :=
  mem_string (Activity.collection r) (directus_collections d) = true /\
  match Activity.user r with
  | Some u => mem_string u (directus_users d) = true
  | None => True
  end.

(** Two databases that differ at most in the order in which
    [directus_activity] stores its rows. *)
Definition same_tables (d d' : DB) : Prop :=
  Permutation (directus_activity d) (directus_activity d') /\
  directus_comments d = directus_comments d' /\
  directus_collections d = directus_collections d' /\
  directus_users d = directus_users d'.

(** [same_tables], with the primary key of [directus_activity] in
    force. *)
Definition alike (d d' : DB) : Prop :=
  same_tables d d' /\ NoDup (map Activity.id (directus_activity d)).

(** A computation that, started in two states related by [R], ends with
    the same outcome in two states related by [R]. *)
Definition simulates {A} (R : World -> World -> Prop) (m : M A) : Prop :=
  forall w1 w2 r w1',
    R w1 w2 -> m w1 = (r, w1') ->
    exists w2', m w2 = (r, w2') /\ R w1' w2'.

(* ------------------------------------------------------------------ *)
(** *** Decidable forms of the side conditions *)

Fixpoint distinct (l : list string) : bool :=
  match l with
  | [] => true
  | x :: rest => negb (mem_string x rest) && distinct rest
  end.

Definition references_existb (d : DB) (r : Activity.t) : bool :=
  mem_string (Activity.collection r) (directus_collections d)
  && match Activity.user r with
     | Some u => mem_string u (directus_users d)
     | None => true
     end.

(* ------------------------------------------------------------------ *)
(** *** Sample data *)

(** An engine that rejects nothing, and one that rejects the statement
    of rank [k] only. *)
Definition no_fault : nat -> bool := fun _ => false.

Definition fault_at (k : nat) : nat -> bool := fun n => Nat.eqb n k.

(** A source of identifiers that never repeats itself. *)
Definition sample_uuid (n : nat) : string :=
  ("uuid-" ++ NilEmpty.string_of_uint (Nat.to_uint n))%string.

(** A source of identifiers that returns the same one twice. *)
Definition stuck_uuid (n : nat) : string := "uuid-0"%string.

(** An engine that assigns, to a row inserted without [id], one more
    than the largest key of the table. *)
Definition sample_key (rows : list Activity.t) : Z :=
  (fold_right Z.max 0 (map Activity.id rows) + 1)%Z.

(** An engine whose auto-increment column has run ahead of the keys in
    use (a row was deleted): two more than the largest key. *)
Definition ahead_key (rows : list Activity.t) : Z := (sample_key rows + 1)%Z.

(** An engine whose sequence has fallen behind the table: it assigns
    the key 4 again. *)
Definition stuck_key (rows : list Activity.t) : Z := 4%Z.

Definition start (d : DB) : World := mkWorld d [] 0.

Definition legacy_row (k : Z) (text : string) : Activity.t :=
  Activity.mk k COMMENT "articles" "42" (Some text) (Some "u1"%string) (1700000000 + k).

(** Three legacy comments, stored in the order 3, 1, 2, and the same
    rows stored in the order 1, 2, 3. *)
Definition legacy_db : DB :=
  mkDB [legacy_row 3 "third"; legacy_row 1 "first"; legacy_row 2 "second"]
    None ["articles"%string] ["u1"%string].

Definition legacy_db_sorted : DB :=
  mkDB [legacy_row 1 "first"; legacy_row 2 "second"; legacy_row 3 "third"]
    None ["articles"%string] ["u1"%string].

(** The scenario of the specification, next to an entry without
    comment. *)
Definition scenario_row : Activity.t :=
  Activity.mk 5 COMMENT "articles" "42" (Some "nice"%string) (Some "u1"%string) 1700000005.

Definition plain_row : Activity.t :=
  Activity.mk 4 (OTHER "update") "articles" "42" None (Some "u1"%string) 1700000004.

Definition scenario_db : DB :=
  mkDB [plain_row; scenario_row] None ["articles"%string] ["u1"%string].

(** Two legacy comments, the second on an item of a collection that is
    gone from [directus_collections]. *)
Definition orphan_row : Activity.t :=
  Activity.mk 2 COMMENT "deleted" "7" (Some "lost"%string) (Some "u1"%string) 1700000002.

Definition orphan_db : DB :=
  mkDB [legacy_row 1 "first"; orphan_row] None ["articles"%string] ["u1"%string].

(** 250 legacy comments. *)
Definition big_db : DB :=
  mkDB (map (fun k => legacy_row (Z.of_nat k) "text") (seq 1 250))
    None ["articles"%string] ["u1"%string].

(** A migrated database: the comment of entry 5 lives in
    [directus_comments], entry 5 refers to it. *)
Definition migrated_comment : Comment.t :=
  Comment.mk "uuid-0" "articles" "42" "nice" 1700000005 (Some "u1"%string).

Definition migrated_db : DB :=
  mkDB [plain_row; relink "uuid-0" scenario_row] (Some [migrated_comment])
    ["articles"%string] ["u1"%string].

(** Two comments on the same item, written after the migration by two
    users, with no entry in [directus_activity]. *)
Definition native_first : Comment.t :=
  Comment.mk "c1" "articles" "42" "first" 1700000100 (Some "u1"%string).

Definition native_second : Comment.t :=
  Comment.mk "c2" "articles" "42" "second" 1700000200 (Some "u2"%string).

Definition native_db : DB :=
  mkDB [] (Some [native_first; native_second]) ["articles"%string]
    ["u1"%string; "u2"%string].

(** A comment on another item, before the two comments on item 42, and
    an entry of another kind on item 42. *)
Definition native_other : Comment.t :=
  Comment.mk "c0" "articles" "41" "zeroth" 1700000050 (Some "u2"%string).

Definition spread_db : DB :=
  mkDB [plain_row] (Some [native_other; native_first; native_second])
    ["articles"%string] ["u1"%string; "u2"%string].

Definition native_one_db : DB :=
  mkDB [plain_row] (Some [native_first]) ["articles"%string] ["u1"%string].

(** A comment with an entry of [action = COMMENT] on the same item. *)
Definition shadowed_db : DB :=
  mkDB [plain_row; scenario_row] (Some [native_first]) ["articles"%string]
    ["u1"%string].

(* ------------------------------------------------------------------ *)
(** *** Vocabulary of the further statements *)

(** An entry of [directus_activity] that carries the comment [c] the
    legacy way. *)
Definition carries (c : Comment.t) (a : Activity.t) : Prop :=
  Activity.action a = COMMENT /\
  Activity.collection a = Comment.collection c /\
  Activity.item a = Comment.item c /\
  Activity.comment a = Some (Comment.comment c).

(** The item a comment is written on. *)
Definition target (c : Comment.t) : string * string :=
  (Comment.collection c, Comment.item c).

(** [rows'] is [rows], each row with the [id], [user] and [timestamp]
    it had, followed by at most [n] new rows. *)
Definition grown (n : nat) (rows rows' : list Activity.t) : Prop :=
  exists kept extra,
    rows' = kept ++ extra /\
    Forall2 same_attribution rows kept /\
    List.length extra <= n.

(** The tables after [up], read against the table [rows] it started
    from: a row is as it was, or it refers to a comment row that holds
    its text; and every comment row is referred to. *)
Definition coherent (rows : list Activity.t) (d : DB) : Prop :=
  Forall2
    (fun a a' =>
       a' = a \/
       exists u text,
         Activity.comment a = Some text /\
         a' = relink u a /\
         In (Comment.mk u (Activity.collection a) (Activity.item a) text
               (Activity.timestamp a) (Activity.user a)) (comment_rows d))
    rows (directus_activity d) /\
  (forall c, In c (comment_rows d) ->
             exists a', In a' (directus_activity d) /\ is_cross_reference c a' = true).

(* ================================================================== *)
(** ** The release script: [processPackages] *)

(** The versions of the workspace packages after changesets has bumped
    them: which packages were bumped, what the main version is, which
    linked packages are bumped along.  [semver], the configuration and
    the comparator of the final sort are not among the sources; they are
    the fields of [Env]. *)
Module Release.

(** A component of a prerelease tag: [semver] parses numeric ones to
    numbers. *)
Inductive PreId : Type :=
| PreStr (s : string)
| PreNum (n : N).

(** What the script reads of a parsed version: [.version] and
    [.prerelease]. *)
Record SemVer : Type := mkSemVer
  { version_of : string;
    prerelease_of : list PreId }.

(** The release types the script asks [semver.inc] for. *)
Inductive ReleaseType : Type :=
| patch
| prerelease.

Record Manifest : Type := mkManifest
  { name : option string;
    version : option string;
    private : bool }.

Record Project : Type := mkProject
  { dir : string;
    manifest : Manifest }.

Record Env : Type := mkEnv
  { (** [semver.parse], [null] as [None] *)
    semver_parse : string -> option SemVer;
    (** [semver.inc(version, release, identifier)], [null] as [None] *)
    semver_inc : string -> ReleaseType -> option string -> option string;
    (** [path.join] *)
    join : string -> string -> string;
    (** [config.mainPackage], [config.linkedPackages], the keys of
        [config.untypedPackageTitles] *)
    mainPackage : string;
    linkedPackages : list (string * string);
    untypedPackageTitles : list string;
    (** [.sort(sortByExternalOrder(config.packageOrder, 'name'))] *)
    sort_by_external_order : list (string * string) -> list (string * string);
    (** whether [findWorkspacePackagesNoCheck] rejects *)
    find_fails : bool;
    (** whether [writeProjectManifest] rejects, as a function of the
        number of manifests written before *)
    write_fails : nat -> bool;
    (** whether [unlinkSync] throws on a path *)
    unlink_fails : string -> bool }.

(** What the script runs on: the workspace packages with their manifest
    objects, the paths that exist on disk, the manifests written so far,
    [process.env.DIRECTUS_VERSION], and [.changeset/pre.json] ([None]
    when it cannot be read or parsed, [Some None] when it has no [tag]
    that is a string). *)
Record World : Type := mkWorld
  { workspacePackages : list Project;
    files : list string;
    written : list Project;
    DIRECTUS_VERSION : option string;
    pre_json : option (option string) }.

(** What [processPackages] throws: the four errors of [getVersionInfo],
    and the rejections of the calls it does not catch. *)
Inductive Error : Type :=
| MainVersionMissing
| NotInPrereleaseMode
| PrereleaseIdNotAString
| PrereleaseTagMismatch
| FindFailed
| WriteFailed
| UnlinkFailed.

Record VersionInfo : Type := mkVersionInfo
  { vi_mainVersion : string;
    vi_manualMainVersion : option string;
    vi_isPrerelease : bool;
    vi_prereleaseId : option string }.

Record Output : Type := mkOutput
  { mainVersion : string;
    isPrerelease : bool;
    prereleaseId : option string;
    packageVersions : list (string * string) }.

(** A string a JavaScript condition takes for true: defined and not
    empty. *)
Definition truthy (o : option string) : bool :=
  match o with
  | Some s => negb (String.eqb s EmptyString)
  | None => false
  end.

(** The [Map] [packageVersions]: [set] on a key that is there replaces
    its value where it stands, on a new key it adds an entry at the end. *)
Fixpoint map_set (k v : string) (m : list (string * string)) : list (string * string) :=
  match m with
  | [] => [(k, v)]
  | (k', v') :: rest =>
      if String.eqb k' k then (k, v) :: rest else (k', v') :: map_set k v rest
  end.

Fixpoint map_get (k : string) (m : list (string * string)) : option string :=
  match m with
  | [] => None
  | (k', v') :: rest => if String.eqb k' k then Some v' else map_get k rest
  end.

Definition map_has (k : string) (m : list (string * string)) : bool :=
  match map_get k m with Some _ => true | None => false end.

(** [p.manifest.name === n] *)
Definition named (n : string) (p : Project) : bool :=
  match name (manifest p) with
  | Some s => String.eqb s n
  | None => false
  end.

Definition with_version (v : string) (p : Project) : Project :=
  mkProject (dir p)
    (mkManifest (name (manifest p)) (Some v) (private (manifest p))).

(** [workspacePackages.find(...)] followed by the assignment to
    [manifest.version] of the package found: the first package of that
    name, where it stands in the array. *)
Fixpoint set_version_of (n v : string) (ps : list Project) : list Project :=
  match ps with
  | [] => []
  | p :: rest =>
      if named n p then with_version v p :: rest
      else p :: set_version_of n v rest
  end.

(** [unlinkSync] *)
Definition unlink (path : string) (fs : list string) : list string :=
  filter (fun f => negb (String.eqb f path)) fs.

Definition exists_file (path : string) (fs : list string) : bool :=
  existsb (String.eqb path) fs.

(** [for (const x of xs) { body }] with a body that may throw: the
    error thrown, if any, and the state in which the loop ends. *)
Fixpoint each {S A : Type} (body : S -> A -> option Error * S) (xs : list A)
    (st : S) : option Error * S :=
  match xs with
  | [] => (None, st)
  | x :: rest =>
      match body st x with
      | (None, st') => each body rest st'
      | (Some e, st') => (Some e, st')
      end
  end.

(** The state of the first loop: the packages gone through, with their
    manifest objects as the loop left them, the paths on disk, the
    manifests written, and the [Map] [packageVersions]. *)
Record Loop : Type := mkLoop
  { seen : list Project;
    l_files : list string;
    l_written : list Project;
    l_versions : list (string * string) }.

(** [if (version) { ... }] in the first loop: the version is recorded,
    after the manifest of a private package is reset and written. *)
Definition record_version (E : Env) (st : Loop) (localPackage : Project)
    (n : string) : option Error * Loop :=
  let m := manifest localPackage in
  match version m with
  | Some v =>
      if truthy (version m) then
        if private m then
          let reset := with_version "0.0.0" localPackage in
          if write_fails E (List.length (l_written st)) then
            (Some WriteFailed,
             mkLoop (seen st ++ [reset]) (l_files st) (l_written st) (l_versions st))
          else
            (None,
             mkLoop (seen st ++ [reset]) (l_files st) (l_written st ++ [reset])
               (map_set n "0.0.0" (l_versions st)))
        else
          (None,
           mkLoop (seen st ++ [localPackage]) (l_files st) (l_written st)
             (map_set n v (l_versions st)))
      else
        (None, mkLoop (seen st ++ [localPackage]) (l_files st) (l_written st) (l_versions st))
  | None =>
      (None, mkLoop (seen st ++ [localPackage]) (l_files st) (l_written st) (l_versions st))
  end.

(** The body of the first loop, for one workspace package. *)
Definition collect (E : Env) (st : Loop) (localPackage : Project)
    : option Error * Loop :=
  let m := manifest localPackage in
  match name m with
  | Some n =>
      if truthy (name m) then
        let changelogPath := join E (dir localPackage) "CHANGELOG.md" in
        if exists_file changelogPath (l_files st) then
          match record_version E st localPackage n with
          | (Some e, st1) => (Some e, st1)
          | (None, st1) =>
              if unlink_fails E changelogPath then (Some UnlinkFailed, st1)
              else
                (None,
                 mkLoop (seen st1) (unlink changelogPath (l_files st1))
                   (l_written st1) (l_versions st1))
          end
        else
          (None, mkLoop (seen st ++ [localPackage]) (l_files st) (l_written st) (l_versions st))
      else
        (None, mkLoop (seen st ++ [localPackage]) (l_files st) (l_written st) (l_versions st))
  | None =>
      (None, mkLoop (seen st ++ [localPackage]) (l_files st) (l_written st) (l_versions st))
  end.

Definition collect_all (E : Env) (w : World) : option Error * Loop :=
  each (collect E) (workspacePackages w) (mkLoop [] (files w) (written w) []).

(** [getVersionInfo()] *)
Definition getVersionInfo (E : Env) (w : World) (packageVersions : list (string * string))
    : Error + VersionInfo :=
  let manualMainVersion := DIRECTUS_VERSION w in
  let given :=
    match manualMainVersion with
    | Some s => Some s
    | None => map_get (mainPackage E) packageVersions
    end in
  match match given with Some s => semver_parse E s | None => None end with
  | None => inl MainVersionMissing
  | Some mainVersion =>
      match prerelease_of mainVersion with
      | [] =>
          inr (mkVersionInfo (version_of mainVersion) manualMainVersion false None)
      | first :: _ =>
          match pre_json w with
          | None => inl NotInPrereleaseMode
          | Some tag =>
              match first with
              | PreNum _ => inl PrereleaseIdNotAString
              | PreStr prereleaseId =>
                  match tag with
                  | Some t =>
                      if String.eqb prereleaseId t
                      then inr (mkVersionInfo (version_of mainVersion) manualMainVersion
                                  true (Some prereleaseId))
                      else inl PrereleaseTagMismatch
                  | None => inl PrereleaseTagMismatch
                  end
              end
          end
      end
  end.

(** The state of the second part: the packages, the manifests written,
    the versions. *)
Record Bump : Type := mkBump
  { b_packages : list Project;
    b_written : list Project;
    b_versions : list (string * string) }.

(** [workspacePackage.manifest.version = v; await
    workspacePackage.writeProjectManifest(...); packageVersions.set(n, v)]
    for the first package named [n], [workspacePackage]. *)
Definition bump (E : Env) (st : Bump) (n v : string) (workspacePackage : Project)
    : option Error * Bump :=
  if write_fails E (List.length (b_written st)) then
    (Some WriteFailed,
     mkBump (set_version_of n v (b_packages st)) (b_written st) (b_versions st))
  else
    (None,
     mkBump (set_version_of n v (b_packages st))
       (b_written st ++ [with_version v workspacePackage])
       (map_set n v (b_versions st))).

(** [if (manualMainVersion) { ... }] *)
Definition set_main (E : Env) (info : VersionInfo) (st : Bump)
    : option Error * Bump :=
  if truthy (vi_manualMainVersion info) then
    match find (named (mainPackage E)) (b_packages st) with
    | Some workspacePackage =>
        bump E st (mainPackage E) (vi_mainVersion info) workspacePackage
    | None => (None, st)
    end
  else (None, st).

(** The body of the loop over [config.linkedPackages]. *)
Definition link_step (E : Env) (info : VersionInfo) (st : Bump)
    (pair : string * string) : option Error * Bump :=
  let (trigger, target) := pair in
  if map_has trigger (b_versions st) && negb (map_has target (b_versions st)) then
    match find (named target) (b_packages st) with
    | Some workspacePackage =>
        match version (manifest workspacePackage) with
        | Some v =>
            if truthy (version (manifest workspacePackage)) then
              match semver_inc E v
                      (if vi_isPrerelease info then prerelease else patch)
                      (vi_prereleaseId info) with
              | Some bumpedVersion =>
                  if truthy (Some bumpedVersion) then
                    bump E st target bumpedVersion workspacePackage
                  else (None, st)
              | None => (None, st)
              end
            else (None, st)
        | None => (None, st)
        end
    | None => (None, st)
    end
  else (None, st).

(** The names left out of the result. *)
Definition left_out (E : Env) (n : string) : bool :=
  existsb (String.eqb n) (mainPackage E :: untypedPackageTitles E).

(** The array [workspacePackages] when the first loop has gone through
    the packages of [seen]: those, and the packages not reached. *)
Definition packages_at (st : Loop) (w : World) : list Project :=
  seen st ++ skipn (List.length (seen st)) (workspacePackages w).

(** [processPackages()]: what it returns or throws, and the state it
    leaves. *)
Definition processPackages (E : Env) (w : World) : (Error + Output) * World :=
  if find_fails E then (inl FindFailed, w)
  else
    match collect_all E w with
    | (Some e, st) =>
        (inl e,
         mkWorld (packages_at st w) (l_files st) (l_written st)
           (DIRECTUS_VERSION w) (pre_json w))
    | (None, st) =>
        match getVersionInfo E w (l_versions st) with
        | inl e =>
            (inl e,
             mkWorld (seen st) (l_files st) (l_written st)
               (DIRECTUS_VERSION w) (pre_json w))
        | inr info =>
            match set_main E info (mkBump (seen st) (l_written st) (l_versions st)) with
            | (Some e, st1) =>
                (inl e,
                 mkWorld (b_packages st1) (l_files st) (b_written st1)
                   (DIRECTUS_VERSION w) (pre_json w))
            | (None, st1) =>
                match each (link_step E info) (linkedPackages E) st1 with
                | (Some e, st2) =>
                    (inl e,
                     mkWorld (b_packages st2) (l_files st) (b_written st2)
                       (DIRECTUS_VERSION w) (pre_json w))
                | (None, st2) =>
                    (inr (mkOutput (vi_mainVersion info) (vi_isPrerelease info)
                            (vi_prereleaseId info)
                            (sort_by_external_order E
                               (filter (fun nv => negb (left_out E (fst nv)))
                                  (b_versions st2)))),
                     mkWorld (b_packages st2) (l_files st) (b_written st2)
                       (DIRECTUS_VERSION w) (pre_json w))
                end
            end
        end
    end.

(** The changelog files of the packages that have a name. *)
Definition changelog_paths (E : Env) (ps : list Project) : list string :=
  map (fun p => join E (dir p) "CHANGELOG.md")
    (filter (fun p => truthy (name (manifest p))) ps).

(** The version the first loop records for a bumped package. *)
Definition recorded_version (p : Project) : option string :=
  if private (manifest p) then Some "0.0.0"%string else version (manifest p).

(** Every version recorded is the version in the manifest of a package
    of that name. *)
Definition backed (ps : list Project) (versions : list (string * string)) : Prop :=
  forall n v, In (n, v) versions ->
    exists p, In p ps /\ name (manifest p) = Some n /\ version (manifest p) = Some v.

(** An outcome of [processPackages] that is the rejection of a call to
    the file system. *)
Definition io_failure (r : Error + Output) : bool :=
  match r with
  | inl FindFailed | inl WriteFailed | inl UnlinkFailed => true
  | _ => false
  end.

End Release.

(* ------------------------------------------------------------------ *)
(** *** Sample data for the release script *)

(** A stand-in for [semver.parse]: it knows one prerelease version,
    refuses the empty string and takes every other string as a release
    version. *)
Definition sample_parse (s : string) : option Release.SemVer :=
  if String.eqb s "11.0.0-beta.3"
  then Some (Release.mkSemVer "11.0.0-beta.3" [Release.PreStr "beta"; Release.PreNum 3])
  else if String.eqb s EmptyString then None
  else Some (Release.mkSemVer s []).

Definition sample_inc (v : string) (r : Release.ReleaseType) (id : option string)
    : option string :=
  Some (v ++ match r with Release.patch => ".patch" | Release.prerelease => ".pre" end)%string.

Definition sample_env : Release.Env :=
  Release.mkEnv sample_parse sample_inc
    (fun d f => (d ++ "/" ++ f)%string)
    "directus"
    [("@directus/app"%string, "@directus/sdk"%string)]
    ["docs"%string]
    (fun l => l)
    false (fun _ => false) (fun _ => false).

Definition sample_packages : list Release.Project :=
  [Release.mkProject "/ws/directus"
     (Release.mkManifest (Some "directus"%string) (Some "11.0.0-beta.3"%string) false);
   Release.mkProject "/ws/app"
     (Release.mkManifest (Some "@directus/app"%string) (Some "12.0.1"%string) true);
   Release.mkProject "/ws/sdk"
     (Release.mkManifest (Some "@directus/sdk"%string) (Some "16.0.0"%string) false);
   Release.mkProject "/ws/scratch"
     (Release.mkManifest None None true)].

Definition sample_workspace : Release.World :=
  Release.mkWorld sample_packages
    ["/ws/directus/CHANGELOG.md"%string; "/ws/app/CHANGELOG.md"%string;
     "/ws/scratch/CHANGELOG.md"%string; "/ws/README.md"%string]
    [] None (Some (Some "beta"%string)).

(** The same environment, with a file system on which the changelog of
    the second package cannot be deleted. *)
Definition stubborn_env : Release.Env :=
  Release.mkEnv sample_parse sample_inc
    (fun d f => (d ++ "/" ++ f)%string)
    "directus"
    [("@directus/app"%string, "@directus/sdk"%string)]
    ["docs"%string]
    (fun l => l)
    false (fun _ => false) (fun path => String.eqb path "/ws/app/CHANGELOG.md").

(** The same workspace, released with [DIRECTUS_VERSION] set. *)
Definition manual_workspace : Release.World :=
  Release.mkWorld sample_packages
    ["/ws/directus/CHANGELOG.md"%string; "/ws/app/CHANGELOG.md"%string;
     "/ws/scratch/CHANGELOG.md"%string; "/ws/README.md"%string]
    [] (Some "12.0.0"%string) None.

(* ================================================================== *)
(** ** The migration *)

Section Migration.

(** The [n]-th identifier [randomUUID()] returns. *)
Variable randomUUID_at : nat -> string.

(** Whether the engine rejects the [n]-th statement it is sent
    (connection lost, lock timeout, ...), whatever the statement. *)
Variable fault : nat -> bool.

(** The key the engine assigns to a row inserted into
    [directus_activity] without an [id], the table holding [rows]: the
    next value of the auto-increment column, whatever the engine makes
    it (one more than the largest key in use, one more than the largest
    key ever used, the next value of a sequence).  Between two inserts
    of a run of [down] the table has grown, so no two inserts meet the
    same table and the choice of each key is left open. *)
Variable autoIncrement : list Activity.t -> Z.

Definition randomUUID : M string :=
  fun w => (Ok (randomUUID_at (drawn w)),
            mkWorld (db w) (trace w) (S (drawn w))).

(** One statement sent to the database: it is logged, the engine may
    reject it, otherwise [q] decides its outcome on the tables. *)
Definition call {A} (ev : Event) (q : DB -> Result (A * DB)) : M A :=
  fun w =>
    let log := trace w ++ [ev] in
    if fault (List.length (trace w)) then (Err EngineFault, mkWorld (db w) log (drawn w))
    else match q (db w) with
         | Ok (a, d) => (Ok a, mkWorld d log (drawn w))
         | Err e => (Err e, mkWorld (db w) log (drawn w))
         end.

(** [knex.transaction(async (trx) => body)]: the writes of [body] are
    committed when it resolves and undone when it rejects or when the
    commit is rejected; the error is passed on. *)
Definition rollback (saved : DB) (w : World) : World :=
  mkWorld saved (trace w ++ [EvRollback]) (drawn w).

Definition transaction {A} (body : M A) : M A :=
  fun w =>
    match call EvBegin (fun d => Ok (tt, d)) w with
    | (Err e, w1) => (Err e, w1)
    | (Ok _, w1) =>
        match body w1 with
        | (Err e, w2) => (Err e, rollback (db w) w2)
        | (Ok a, w2) =>
            match call EvCommit (fun d => Ok (tt, d)) w2 with
            | (Err e, w3) => (Err e, rollback (db w) w3)
            | (Ok _, w3) => (Ok a, w3)
            end
        end
    end.

(** [knex.schema.createTable('directus_comments', ...)] *)
Definition createTable_directus_comments : M unit :=
  call EvCreateTable (fun d =>
    match directus_comments d with
    | Some _ => Err TableExists
    | None => Ok (tt, set_comments (Some []) d)
    end).

(** [knex.schema.dropTable('directus_comments')] *)
Definition dropTable_directus_comments : M unit :=
  call EvDropTable (fun d =>
    match directus_comments d with
    | Some _ => Ok (tt, set_comments None d)
    | None => Err NoSuchTable
    end).

Definition select_legacy_comments : M (list Activity.t) :=
  call EvSelectLegacy (fun d => Ok (legacy_comments d, d)).

(** [trx('directus_comments').insert({ id, collection, item, comment,
     user_created, date_created })]; [comment] is [notNullable]. *)
Definition insert_comment (id collection item : string) (comment : option string)
    (user_created : option string) (date_created : Z) : M unit :=
  call (EvInsertComment id) (fun d =>
    match directus_comments d with
    | None => Err NoSuchTable
    | Some rows =>
        match comment with
        | None => Err NotNullViolation
        | Some text =>
            let c := Comment.mk id collection item text date_created user_created in
            match check_insert_comment c d rows with
            | Err e => Err e
            | Ok _ => Ok (tt, set_comments (Some (rows ++ [c])) d)
            end
        end
    end).

Definition update_activity (k : Z) (f : Activity.t -> Activity.t) : M unit :=
  call (EvUpdateActivity k) (fun d =>
    Ok (tt, set_activity (update_where_id k f (directus_activity d)) d)).

Definition select_comments : M (list Comment.t) :=
  call EvSelectComments (fun d =>
    match directus_comments d with
    | None => Err NoSuchTable
    | Some rows => Ok (rows, d)
    end).

Definition find_activity (ev : Event) (p : Activity.t -> bool) : M (list Z) :=
  call ev (fun d => Ok (select_id_limit1 p (directus_activity d), d)).

(** [knex('directus_activity').insert({ action, collection, item,
     comment, user, timestamp })]: no [id] is given, the engine assigns
    one; the primary key rejects a key that is taken. *)
Definition insert_activity (c : Comment.t) : M unit :=
  call EvInsertActivity (fun d =>
    let k := autoIncrement (directus_activity d) in
    if key_taken k (directus_activity d) then Err UniqueViolation
    else Ok (tt, set_activity (directus_activity d ++ [fabricate k c]) d)).

(** The body of the transaction of [up], for one selected row. *)
Definition migrate_row (comment : Activity.t) : M unit :=
  newCommentId <- randomUUID ;;
  insert_comment newCommentId (Activity.collection comment)
    (Activity.item comment) (Activity.comment comment)
    (Activity.user comment) (Activity.timestamp comment) ;;
  update_activity (Activity.id comment) (relink newCommentId).

(** [up], the chunked-iteration collaborator it imports being left
    open. *)
Definition up_with
    (processChunk : list Activity.t -> nat -> (list Activity.t -> M unit) -> M unit)
    : M unit :=
  createTable_directus_comments ;;
  comments <- select_legacy_comments ;;
  processChunk comments 100 (fun commentChunk =>
    forEach (fun comment => transaction (migrate_row comment)) commentChunk).

(** [up], with [processChunk] of [@directus/utils]. *)
Definition up : M unit := up_with processChunk.

(** The body of the loop of [down], for one comment row. *)
Definition reconcile (comment : Comment.t) : M unit :=
  migratedRecords <-
    find_activity (EvFindMigrated (Comment.id comment)) (is_cross_reference comment) ;;
  match migratedRecords with
  | k :: _ => update_activity k (restore comment)
  | [] =>
      unmigratedRecords <-
        find_activity
          (EvFindUnmigrated (Comment.collection comment) (Comment.item comment))
          (is_shadow comment) ;;
      match unmigratedRecords with
      | k :: _ => update_activity k (overwrite_text comment)
      | [] => insert_activity comment
      end
  end.

Definition down : M unit :=
  comments <- select_comments ;;
  processChunk comments 100 (fun commentChunk => forEach reconcile commentChunk) ;;
  dropTable_directus_comments.

Definition migrate (comment : Activity.t) : M unit :=
  transaction (migrate_row comment).

(** The identifiers [randomUUID()] returns from the [n]-th on. *)
Definition uuids_from (n k : nat) : list string :=
  map randomUUID_at (seq n k).

(** The selected rows of [up], each with the identifier drawn for it
    when no row is skipped. *)
Definition pairing (w : World) : list (Activity.t * string) :=
  combine (legacy_comments (db w))
    (uuids_from (drawn w) (List.length (legacy_comments (db w)))).

(* ================================================================ *)
(** ** Lists, ordering and chunks *)

Lemma insert_by_id_perm (r : Activity.t) (l : list Activity.t) :
  Permutation (insert_by_id r l) (r :: l).
Proof.
  induction l as [|x l IH]; simpl.
  - apply Permutation_refl.
  - destruct (Activity.id r <=? Activity.id x)%Z.
    + apply Permutation_refl.
    + eapply Permutation_trans; [apply perm_skip, IH | apply perm_swap].
Qed.

Lemma orderBy_id_perm (l : list Activity.t) : Permutation (orderBy_id l) l.
Proof.
  induction l as [|x l IH]; simpl.
  - apply Permutation_refl.
  - eapply Permutation_trans; [apply insert_by_id_perm | apply perm_skip, IH].
Qed.

Lemma insert_by_id_ascending (r : Activity.t) (l : list Activity.t) :
  ascending l -> ascending (insert_by_id r l).
Proof.
  unfold ascending. induction l as [|x l IH]; simpl; intro H.
  - constructor; constructor.
  - destruct (Activity.id r <=? Activity.id x)%Z eqn:E.
    + simpl. constructor; [exact H|].
      apply Z.leb_le in E. inversion H; subst.
      constructor; [exact E|].
      eapply Forall_impl; [|eassumption]. simpl. intros; lia.
    + apply Z.leb_gt in E. inversion H; subst. simpl.
      constructor; [now apply IH|].
      apply Forall_forall. intros k Hk.
      apply in_map_iff in Hk. destruct Hk as [y [<- Hy]].
      apply (Permutation_in _ (insert_by_id_perm r l)) in Hy.
      destruct Hy as [<- | Hy]; [lia|].
      rewrite Forall_forall in H3. apply H3. now apply in_map.
Qed.

Lemma orderBy_id_ascending (l : list Activity.t) : ascending (orderBy_id l).
Proof.
  induction l as [|x l IH]; simpl.
  - constructor.
  - now apply insert_by_id_ascending.
Qed.

Lemma ascending_perm_eq (l1 l2 : list Activity.t) :
  NoDup (map Activity.id l1) -> ascending l1 -> ascending l2 ->
  Permutation l1 l2 -> l1 = l2.
Proof.
  unfold ascending. revert l2.
  induction l1 as [|x l1 IH]; intros l2 Hnd H1 H2 Hp.
  - apply Permutation_nil in Hp. now subst.
  - destruct l2 as [|y l2].
    { apply Permutation_sym, Permutation_nil in Hp. discriminate. }
    simpl in *. inversion H1 as [|? ? S1 F1]; subst.
    inversion H2 as [|? ? S2 F2]; subst.
    inversion Hnd as [|? ? Hx Hnd']; subst.
    assert (Hxy : x = y).
    { assert (Hin : In x (y :: l2)) by (eapply Permutation_in; [exact Hp | now left]).
      assert (Hin' : In y (x :: l1))
        by (eapply Permutation_in; [apply Permutation_sym; exact Hp | now left]).
      destruct Hin as [E | Hin]; [now subst|].
      destruct Hin' as [E | Hin']; [now subst|].
      exfalso. rewrite Forall_forall in F1, F2.
      assert (Activity.id x <= Activity.id y)%Z by (apply F1; now apply in_map).
      assert (Activity.id y <= Activity.id x)%Z by (apply F2; now apply in_map).
      apply Hx. replace (Activity.id x) with (Activity.id y) by lia.
      now apply in_map. }
    subst y. f_equal. apply IH; try assumption.
    eapply Permutation_cons_inv; exact Hp.
Qed.

Lemma NoDup_map_perm {A B} (f : A -> B) (l1 l2 : list A) :
  Permutation l1 l2 -> NoDup (map f l1) -> NoDup (map f l2).
Proof.
  intros Hp Hnd. eapply Permutation_NoDup; [|exact Hnd].
  now apply Permutation_map.
Qed.

Lemma filter_keys_NoDup (keep : Activity.t -> bool) (rows : list Activity.t) :
  NoDup (map Activity.id rows) -> NoDup (map Activity.id (filter keep rows)).
Proof.
  intro Hnd. induction rows as [|x rows IH]; simpl in *; [constructor|].
  apply NoDup_cons_iff in Hnd. destruct Hnd as [Hx Hrest].
  destruct (keep x); [|now apply IH].
  simpl. apply NoDup_cons_iff. split; [|now apply IH].
  intro Hin. apply Hx. apply in_map_iff in Hin. destruct Hin as (y & Hy & Hin).
  apply filter_In in Hin. rewrite <- Hy. apply in_map. exact (proj1 Hin).
Qed.

Lemma filter_perm {A} (p : A -> bool) (l1 l2 : list A) :
  Permutation l1 l2 -> Permutation (filter p l1) (filter p l2).
Proof.
  induction 1; simpl.
  - constructor.
  - destruct (p x); [now constructor | assumption].
  - destruct (p x), (p y); try apply Permutation_refl. apply perm_swap.
  - eapply Permutation_trans; eassumption.
Qed.

Lemma legacy_comments_NoDup (d : DB) :
  NoDup (map Activity.id (directus_activity d)) ->
  NoDup (map Activity.id (legacy_comments d)).
Proof.
  intro H. unfold legacy_comments.
  eapply NoDup_map_perm; [apply Permutation_sym, orderBy_id_perm|].
  now apply filter_keys_NoDup.
Qed.

Lemma legacy_comments_In (d : DB) (r : Activity.t) :
  In r (legacy_comments d) <->
  In r (directus_activity d) /\ Activity.comment r <> None.
Proof.
  unfold legacy_comments. split.
  - intro H. apply (Permutation_in _ (orderBy_id_perm _)) in H.
    apply filter_In in H. destruct H as [H1 H2]. split; [exact H1|].
    destruct (Activity.comment r); [discriminate | discriminate].
  - intros [H1 H2].
    apply (Permutation_in _ (Permutation_sym (orderBy_id_perm _))).
    apply filter_In. split; [exact H1|].
    destruct (Activity.comment r); [reflexivity | congruence].
Qed.

Lemma legacy_comments_perm (d d' : DB) :
  NoDup (map Activity.id (directus_activity d)) ->
  Permutation (directus_activity d) (directus_activity d') ->
  legacy_comments d = legacy_comments d'.
Proof.
  intros Hnd Hp. apply ascending_perm_eq.
  - now apply legacy_comments_NoDup.
  - apply orderBy_id_ascending.
  - apply orderBy_id_ascending.
  - unfold legacy_comments.
    eapply Permutation_trans; [apply orderBy_id_perm|].
    eapply Permutation_trans; [|apply Permutation_sym, orderBy_id_perm].
    now apply filter_perm.
Qed.

Lemma chunksOf_concat {A} (size : nat) :
  0 < size ->
  forall (fuel : nat) (arr : list A),
    List.length arr <= fuel -> concat (chunksOf fuel size arr) = arr.
Proof.
  intros Hs. induction fuel as [|fuel IH]; intros arr Hl.
  - destruct arr; [reflexivity | simpl in Hl; lia].
  - destruct arr as [|x arr]; [reflexivity|].
    cbn [chunksOf concat]. rewrite IH.
    + apply firstn_skipn.
    + rewrite length_skipn.
      change (List.length (x :: arr)) with (S (List.length arr)) in *. lia.
Qed.

Lemma chunks_concat {A} (size : nat) (arr : list A) :
  0 < size -> concat (chunks size arr) = arr.
Proof. intro Hs. unfold chunks. now apply chunksOf_concat. Qed.

Lemma chunksOf_sizes {A} (size fuel : nat) :
  forall arr : list A,
    map (@List.length A) (chunksOf fuel size arr)
    = chunk_sizes fuel size (List.length arr).
Proof.
  induction fuel as [|fuel IH]; intro arr; [reflexivity|].
  destruct arr as [|x arr]; [reflexivity|].
  cbn [chunksOf map chunk_sizes List.length].
  rewrite IH, length_firstn, length_skipn. reflexivity.
Qed.

Lemma distinct_NoDup (l : list string) : distinct l = true -> NoDup l.
Proof.
  induction l as [|x l IH]; simpl; intro H; [constructor|].
  apply andb_true_iff in H. destruct H as [Hx Hl].
  constructor; [|now apply IH].
  intro Hin. apply negb_true_iff in Hx.
  assert (mem_string x l = true).
  { unfold mem_string. apply existsb_exists. exists x. split; [exact Hin|].
    apply String.eqb_refl. }
  congruence.
Qed.

Lemma references_existb_sound (d : DB) (l : list Activity.t) :
  forallb (references_existb d) l = true -> Forall (references_exist d) l.
Proof.
  intro H. rewrite forallb_forall in H. apply Forall_forall. intros r Hr.
  specialize (H r Hr). unfold references_existb in H.
  apply andb_true_iff in H. destruct H as [H1 H2]. split; [exact H1|].
  destruct (Activity.user r); [exact H2 | exact I].
Qed.

(* ================================================================ *)
(** ** Loops and statements *)

Lemma forEach_app {A} (f : A -> M unit) (l1 l2 : list A) (w : World) :
  forEach f (l1 ++ l2) w = (forEach f l1 ;; forEach f l2) w.
Proof.
  revert w. induction l1 as [|x l1 IH]; intro w; simpl.
  - reflexivity.
  - unfold bind. destruct (f x w) as [[[]|e] w1]; [|reflexivity].
    rewrite IH. reflexivity.
Qed.

Lemma forEach_concat {A} (f : A -> M unit) (ls : list (list A)) (w : World) :
  forEach (forEach f) ls w = forEach f (concat ls) w.
Proof.
  revert w. induction ls as [|l ls IH]; intro w; simpl; [reflexivity|].
  rewrite forEach_app. unfold bind.
  destruct (forEach f l w) as [[[]|e] w1]; [apply IH | reflexivity].
Qed.

Lemma processChunk_forEach {A} (f : A -> M unit) (arr : list A) (size : nat)
    (w : World) :
  0 < size -> processChunk arr size (forEach f) w = forEach f arr w.
Proof.
  intro Hs. unfold processChunk. rewrite forEach_concat.
  now rewrite chunks_concat.
Qed.

Lemma forEach_err_split {A} (f : A -> M unit) (l : list A) (w w' : World)
    (e : Error) :
  forEach f l w = (Err e, w') ->
  exists pre x post w1,
    l = pre ++ x :: post /\
    forEach f pre w = (Ok tt, w1) /\
    f x w1 = (Err e, w').
Proof.
  revert w. induction l as [|x l IH]; intro w; simpl.
  - unfold ret. discriminate.
  - unfold bind. destruct (f x w) as [[[]|e1] w1] eqn:E.
    + intro H. destruct (IH _ H) as (pre & y & post & w2 & -> & Hpre & Hy).
      exists (x :: pre), y, post, w2. repeat split; [|exact Hy].
      simpl. unfold bind. now rewrite E.
    + intro H. inversion H; subst.
      exists [], x, l, w. repeat split. exact E.
Qed.

Lemma call_trace {A} (ev : Event) (q : DB -> Result (A * DB)) (w : World)
    (r : Result A) (w' : World) :
  call ev q w = (r, w') -> trace w' = trace w ++ [ev] /\ drawn w' = drawn w.
Proof.
  unfold call. destruct (fault _).
  - intro H. inversion H; subst. now split.
  - destruct (q (db w)) as [[a d]|e]; intro H; inversion H; subst; now split.
Qed.

Lemma call_ok {A} (ev : Event) (q : DB -> Result (A * DB)) (w : World)
    (a : A) (w' : World) :
  call ev q w = (Ok a, w') ->
  fault (List.length (trace w)) = false /\
  q (db w) = Ok (a, db w') /\
  w' = mkWorld (db w') (trace w ++ [ev]) (drawn w).
Proof.
  unfold call. destruct (fault _); [discriminate|].
  destruct (q (db w)) as [[a1 d]|e]; intro H; inversion H; subst.
  simpl. repeat split.
Qed.

Lemma call_err {A} (ev : Event) (q : DB -> Result (A * DB)) (w : World)
    (e : Error) (w' : World) :
  call ev q w = (Err e, w') -> w' = mkWorld (db w) (trace w ++ [ev]) (drawn w).
Proof.
  unfold call. destruct (fault _).
  - intro H. now inversion H.
  - destruct (q (db w)) as [[a1 d]|e1]; intro H; inversion H; subst. reflexivity.
Qed.

Lemma call_run {A} (ev : Event) (q : DB -> Result (A * DB)) (w : World) :
  fault (List.length (trace w)) = false ->
  call ev q w =
    match q (db w) with
    | Ok (a, d) => (Ok a, mkWorld d (trace w ++ [ev]) (drawn w))
    | Err e => (Err e, mkWorld (db w) (trace w ++ [ev]) (drawn w))
    end.
Proof. intro H. unfold call. now rewrite H. Qed.

(* ================================================================ *)
(** ** One transaction of [up] *)

Lemma comment_of_text (r : Activity.t) (u text : string) :
  Activity.comment r = Some text ->
  Comment.mk u (Activity.collection r) (Activity.item r) text
    (Activity.timestamp r) (Activity.user r) = comment_of (r, u).
Proof. intro H. unfold comment_of, comment_text. simpl. now rewrite H. Qed.

Lemma transaction_err {A} (body : M A) (w : World) (e : Error) (w' : World) :
  transaction body w = (Err e, w') -> db w' = db w.
Proof.
  unfold transaction.
  destruct (call EvBegin _ w) as [[[]|e0] w1] eqn:E0.
  - destruct (body w1) as [[a|e1] w2].
    + destruct (call EvCommit _ w2) as [[[]|e2] w3]; [discriminate|].
      intro H. now inversion H.
    + intro H. now inversion H.
  - intro H. inversion H; subst. apply call_err in E0. now subst.
Qed.

Lemma transaction_ok {A} (body : M A) (w : World) (a : A) (w' : World) :
  transaction body w = (Ok a, w') ->
  exists w2,
    body (mkWorld (db w) (trace w ++ [EvBegin]) (drawn w)) = (Ok a, w2) /\
    w' = mkWorld (db w2) (trace w2 ++ [EvCommit]) (drawn w2).
Proof.
  unfold transaction.
  destruct (call EvBegin _ w) as [[[]|e0] w1] eqn:E0; [|discriminate].
  apply call_ok in E0. destruct E0 as (_ & Hq & Hw1).
  inversion Hq as [Hdb]. rewrite <- Hdb in Hw1. subst w1.
  destruct (body _) as [[a1|e1] w2] eqn:Eb; [|discriminate].
  destruct (call EvCommit _ w2) as [[[]|e2] w3] eqn:E2; [|discriminate].
  intro H. inversion H; subst. apply call_ok in E2.
  destruct E2 as (_ & Hq2 & Hw3). inversion Hq2 as [Hdb2].
  exists w2. split; [reflexivity|]. rewrite Hw3 at 1. now rewrite <- Hdb2.
Qed.

Lemma migrate_row_ok (r : Activity.t) (w w' : World) :
  migrate_row r w = (Ok tt, w') ->
  exists cs text,
    directus_comments (db w) = Some cs /\
    Activity.comment r = Some text /\
    check_insert_comment (comment_of (r, randomUUID_at (drawn w))) (db w) cs = Ok tt /\
    db w' = set_activity
              (relink_step (directus_activity (db w)) (r, randomUUID_at (drawn w)))
              (set_comments
                 (Some (cs ++ [comment_of (r, randomUUID_at (drawn w))])) (db w)) /\
    trace w' = trace w ++ [EvInsertComment (randomUUID_at (drawn w));
                           EvUpdateActivity (Activity.id r)] /\
    drawn w' = S (drawn w).
Proof.
  unfold migrate_row, bind, randomUUID.
  destruct (insert_comment _ _ _ _ _ _ _) as [[[]|e] w1] eqn:E1; [|discriminate].
  intro E2. apply call_ok in E1, E2.
  destruct E1 as (_ & Hq1 & Hw1). destruct E2 as (_ & Hq2 & Hw2).
  simpl in Hq1, Hw1.
  destruct (directus_comments (db w)) as [cs|] eqn:Ecs; [|discriminate].
  destruct (Activity.comment r) as [text|] eqn:Etext; [|discriminate].
  rewrite (comment_of_text r (randomUUID_at (drawn w)) text Etext) in Hq1.
  destruct (check_insert_comment _ _ _) as [[]|e] eqn:Echk; [|discriminate].
  inversion Hq1 as [Hdb1]. inversion Hq2 as [Hdb2].
  exists cs, text. split; [reflexivity|]. split; [reflexivity|].
  split; [exact Echk|]. split; [|split].
  - rewrite <- Hdb1. reflexivity.
  - rewrite Hw2, Hw1. simpl. now rewrite <- app_assoc.
 
  - rewrite Hw2, Hw1. reflexivity.
Qed.

(** A transaction that resolves has inserted one comment row under the
    identifier just drawn and rewritten the rows of key [id r]; one
    that rejects leaves the tables as they were. *)
Lemma migrate_inv (r : Activity.t) (w : World) (res : Result unit) (w' : World) :
  migrate r w = (res, w') ->
  match res with
  | Ok _ =>
      exists cs text,
        directus_comments (db w) = Some cs /\
        Activity.comment r = Some text /\
        check_insert_comment (comment_of (r, randomUUID_at (drawn w))) (db w) cs
          = Ok tt /\
        db w' = set_activity
                  (relink_step (directus_activity (db w)) (r, randomUUID_at (drawn w)))
                  (set_comments
                     (Some (cs ++ [comment_of (r, randomUUID_at (drawn w))])) (db w)) /\
        trace w' = trace w ++ tx_events (r, randomUUID_at (drawn w)) /\
        drawn w' = S (drawn w)
  | Err _ => db w' = db w
  end.
Proof.
  unfold migrate. destruct res as [[]|e]; intro H.
  - apply transaction_ok in H. destruct H as (w2 & Hb & ->).
    apply migrate_row_ok in Hb. simpl in Hb.
    destruct Hb as (cs & text & H1 & H2 & H3 & H4 & H5 & H6).
    exists cs, text. repeat split; try assumption.
    simpl. rewrite H5. unfold tx_events. simpl. now rewrite <- !app_assoc.
  - eapply transaction_err. exact H.
Qed.

Lemma check_insert_comment_ok (c : Comment.t) (d : DB) (cs : list Comment.t) :
  check_insert_comment c d cs = Ok tt <->
  ~ In (Comment.id c) (map Comment.id cs) /\
  mem_string (Comment.collection c) (directus_collections d) = true /\
  match Comment.user_created c with
  | Some u => mem_string u (directus_users d) = true
  | None => True
  end.
Proof.
  unfold check_insert_comment.
  destruct (existsb _ cs) eqn:Ex.
  - split; [discriminate|]. intros [Hn _]. exfalso. apply Hn.
    apply existsb_exists in Ex. destruct Ex as [x [Hx Hid]].
    apply String.eqb_eq in Hid. rewrite <- Hid. now apply in_map.
  - assert (Hn : ~ In (Comment.id c) (map Comment.id cs)).
    { intro Hin. apply in_map_iff in Hin. destruct Hin as [x [Hid Hx]].
      assert (existsb (fun x => String.eqb (Comment.id x) (Comment.id c)) cs = true).
      { apply existsb_exists. exists x. split; [exact Hx|]. now apply String.eqb_eq. }
      congruence. }
    destruct (mem_string (Comment.collection c) _); simpl.
    + destruct (Comment.user_created c) as [u|].
      * destruct (mem_string u _).
        -- split; [intros _; split; [exact Hn | split; reflexivity] | reflexivity].
        -- split; [discriminate | intros (_ & _ & H); discriminate].
      * split; [intros _; split; [exact Hn | split; [reflexivity | exact I]]
               | reflexivity].
    + split; [discriminate | intros (_ & H & _); discriminate].
Qed.

Lemma migrate_run (r : Activity.t) (w : World) (cs : list Comment.t) (text : string) :
  (forall n, fault n = false) ->
  directus_comments (db w) = Some cs ->
  Activity.comment r = Some text ->
  check_insert_comment (comment_of (r, randomUUID_at (drawn w))) (db w) cs = Ok tt ->
  migrate r w =
    (Ok tt,
     mkWorld
       (set_activity
          (relink_step (directus_activity (db w)) (r, randomUUID_at (drawn w)))
          (set_comments
             (Some (cs ++ [comment_of (r, randomUUID_at (drawn w))])) (db w)))
       (trace w ++ tx_events (r, randomUUID_at (drawn w)))
       (S (drawn w))).
Proof.
  intros Hf Hcs Htext Hchk.
  unfold migrate, transaction, migrate_row, bind, randomUUID, insert_comment,
    update_activity, call.
  rewrite ?Hf. simpl. rewrite ?Hf. simpl. rewrite Hcs, Htext.
  rewrite (comment_of_text r (randomUUID_at (drawn w)) text Htext), Hchk.
  simpl. rewrite ?Hf. simpl. rewrite ?Hf. unfold tx_events. simpl.
  rewrite <- !app_assoc. reflexivity.
Qed.

Lemma uuids_from_S (n k : nat) :
  uuids_from n (S k) = randomUUID_at n :: uuids_from (S n) k.
Proof. reflexivity. Qed.

(** The state after the loop of [up] has resolved. *)
Lemma up_loop_ok (rows : list Activity.t) :
  forall (w w' : World) (cs : list Comment.t),
    forEach migrate rows w = (Ok tt, w') ->
    directus_comments (db w) = Some cs ->
    directus_comments (db w')
      = Some (cs ++ map comment_of
                      (combine rows (uuids_from (drawn w) (List.length rows)))) /\
    directus_activity (db w')
      = fold_left relink_step
          (combine rows (uuids_from (drawn w) (List.length rows)))
          (directus_activity (db w)) /\
    directus_collections (db w') = directus_collections (db w) /\
    directus_users (db w') = directus_users (db w) /\
    trace w' = trace w ++ concat (map tx_events
                 (combine rows (uuids_from (drawn w) (List.length rows)))) /\
    drawn w' = drawn w + List.length rows /\
    Forall (fun r => Activity.comment r <> None /\ references_exist (db w) r) rows /\
    (NoDup (map Comment.id cs) ->
     NoDup (map Comment.id cs ++ uuids_from (drawn w) (List.length rows))).
Proof.
  induction rows as [|r rows IH]; intros w w' cs Hrun Hcs.
  - simpl in Hrun. unfold ret in Hrun. inversion Hrun; subst. simpl.
    rewrite !app_nil_r. rewrite Nat.add_0_r. repeat split; auto.
  - simpl in Hrun. unfold bind in Hrun.
    destruct (migrate r w) as [[[]|e] w1] eqn:E; [|discriminate].
    apply migrate_inv in E.
    destruct E as (cs0 & text & Hcs0 & Htext & Hchk & Hdb & Htr & Hdr).
    rewrite Hcs in Hcs0. inversion Hcs0; subst cs0. clear Hcs0.
    assert (Hcs1 : directus_comments (db w1)
                   = Some (cs ++ [comment_of (r, randomUUID_at (drawn w))]))
      by (rewrite Hdb; reflexivity).
    destruct (IH w1 w' _ Hrun Hcs1) as (I1 & I2 & I3 & I4 & I5 & I6 & I7 & I8).
    apply check_insert_comment_ok in Hchk. destruct Hchk as (Hfresh & Hcol & Husr).
    cbn [List.length]. rewrite uuids_from_S. cbn [combine map fold_left concat].
    rewrite Hdr in *.
    repeat split.
    + rewrite I1. now rewrite <- app_assoc.
    + rewrite I2. rewrite Hdb. reflexivity.
    + rewrite I3, Hdb. reflexivity.
    + rewrite I4, Hdb. reflexivity.
    + rewrite I5, Htr. now rewrite <- app_assoc.
    + rewrite I6. lia.
    + constructor.
      * split; [congruence|]. split; [exact Hcol | exact Husr].
      * eapply Forall_impl; [|exact I7]. intros a [Ha1 [Ha2 Ha3]].
        split; [exact Ha1|]. unfold references_exist.
        rewrite Hdb in Ha2, Ha3. simpl in Ha2, Ha3. now split.
    + intro Hnd.
      assert (Hnd1 : NoDup (map Comment.id
                              (cs ++ [comment_of (r, randomUUID_at (drawn w))]))).
      { rewrite map_app. simpl.
        apply NoDup_app; [exact Hnd | constructor; [intros [] | constructor] |].
        intros x Hx [<- | []]. now apply Hfresh. }
      specialize (I8 Hnd1). rewrite map_app in I8. simpl in I8.
      now rewrite <- app_assoc in I8.
Qed.

Lemma up_loop_total (rows : list Activity.t) :
  (forall n, fault n = false) ->
  forall (w : World) (cs : list Comment.t),
    directus_comments (db w) = Some cs ->
    Forall (fun r => Activity.comment r <> None /\ references_exist (db w) r) rows ->
    NoDup (map Comment.id cs ++ uuids_from (drawn w) (List.length rows)) ->
    exists w', forEach migrate rows w = (Ok tt, w').
Proof.
  intro Hf. induction rows as [|r rows IH]; intros w cs Hcs Hrows Hnd.
  - exists w. reflexivity.
  - inversion Hrows as [|? ? [Hr1 [Hr2 Hr3]] Hrest]; subst.
    destruct (Activity.comment r) as [text|] eqn:Etext; [|congruence].
    cbn [List.length] in Hnd. rewrite uuids_from_S in Hnd.
    assert (Hchk : check_insert_comment
                     (comment_of (r, randomUUID_at (drawn w))) (db w) cs = Ok tt).
    { apply check_insert_comment_ok. split; [|split].
      - simpl. intro Hin. apply NoDup_remove_2 in Hnd. apply Hnd.
        apply in_or_app. now left.
      - exact Hr2.
      - exact Hr3. }
    simpl. unfold bind. rewrite (migrate_run r w cs text Hf Hcs Etext Hchk).
    eapply IH.
    + reflexivity.
    + eapply Forall_impl; [|exact Hrest]. intros a [Ha1 Ha2]. split; [exact Ha1|].
      exact Ha2.
    + simpl. rewrite map_app. simpl. rewrite <- app_assoc. exact Hnd.
Qed.

Lemma assigned_None (L : list (Activity.t * string)) (k : Z) :
  ~ In k (map (fun p => Activity.id (fst p)) L) -> assigned L k = None.
Proof.
  induction L as [|p L IH]; simpl; intro H; [reflexivity|].
  destruct (Activity.id (fst p) =? k)%Z eqn:E.
  - apply Z.eqb_eq in E. exfalso. apply H. now left.
  - apply IH. intro Hin. apply H. now right.
Qed.

Lemma assigned_Some_In (L : list (Activity.t * string)) (k : Z) (u : string) :
  assigned L k = Some u -> exists r, In (r, u) L /\ Activity.id r = k.
Proof.
  induction L as [|[r0 u0] L IH]; simpl; [discriminate|].
  destruct (Activity.id r0 =? k)%Z eqn:E.
  - intro H. inversion H; subst. apply Z.eqb_eq in E. exists r0. split; [now left | exact E].
  - intro H. destruct (IH H) as [r [Hin Hid]]. exists r. split; [now right | exact Hid].
Qed.

Lemma fold_relink_all (L : list (Activity.t * string)) :
  NoDup (map (fun p => Activity.id (fst p)) L) ->
  forall rows, fold_left relink_step L rows = relink_all L rows.
Proof.
  induction L as [|[r u] L IH]; intros Hnd rows.
  - unfold relink_all. simpl. symmetry. apply map_id.
  - simpl in Hnd. inversion Hnd as [|? ? Hnotin Hnd']; subst.
    simpl. rewrite (IH Hnd'). unfold relink_step, relink_all, update_where_id.
    simpl. rewrite map_map. apply map_ext. intro a.
    destruct (Activity.id a =? Activity.id r)%Z eqn:E.
    + apply Z.eqb_eq in E. simpl. rewrite Z.eqb_sym in *.
      rewrite E, Z.eqb_refl. rewrite assigned_None; [reflexivity | exact Hnotin].
    + rewrite Z.eqb_sym, E. reflexivity.
Qed.

(** [up], with its batches flattened. *)
Lemma up_eq (w : World) :
  up w = (createTable_directus_comments ;;
          comments <- select_legacy_comments ;;
          forEach migrate comments) w.
Proof.
  unfold up, up_with, bind.
  destruct (createTable_directus_comments w) as [[[]|e] w1]; [|reflexivity].
  destruct (select_legacy_comments w1) as [[rows|e] w2]; [|reflexivity].
  apply (processChunk_forEach migrate). lia.
Qed.

(** The three ways [up] can go: the table cannot be created, the
    selection is rejected, or the loop runs. *)
Lemma up_cases (w : World) (res : Result unit) (w' : World) :
  up w = (res, w') ->
  (exists e, res = Err e /\ db w' = db w /\ trace w' = trace w ++ [EvCreateTable]) \/
  (exists e, res = Err e /\ directus_comments (db w) = None /\
             w' = after_setup w) \/
  (directus_comments (db w) = None /\
   forEach migrate (legacy_comments (db w)) (after_setup w) = (res, w')).
Proof.
  rewrite up_eq. unfold bind.
  destruct (createTable_directus_comments w) as [[[]|e] w1] eqn:E1.
  - apply call_ok in E1. destruct E1 as (_ & Hq & Hw1).
    destruct (directus_comments (db w)) eqn:Ecs; [discriminate|].
    inversion Hq as [Hdb]. rewrite <- Hdb in Hw1. subst w1.
    destruct (select_legacy_comments _) as [[rows|e] w2] eqn:E2.
    + apply call_ok in E2. destruct E2 as (_ & Hq2 & Hw2).
      inversion Hq2 as [[Hrows Hdb2]]. simpl in Hw2. rewrite <- Hdb2 in Hw2.
      subst w2. intro H. right. right. split; [reflexivity|].
      unfold after_setup. rewrite <- app_assoc in H. exact H.
    + apply call_err in E2. simpl in E2. intro H. inversion H; subst.
      right. left. exists e. repeat split.
      unfold after_setup. now rewrite <- app_assoc.
  - apply call_err in E1. intro H. inversion H; subst.
    left. exists e. repeat split.
Qed.

(* ================================================================ *)
(** ** What a run sends and what it keeps *)

Lemma emits_ret {A} (P : Event -> Prop) (a : A) : emits P (ret a).
Proof.
  intros w r w' H. inversion H; subst. exists []. split; [now rewrite app_nil_r | constructor].
Qed.

Lemma emits_randomUUID (P : Event -> Prop) : emits P randomUUID.
Proof.
  intros w r w' H. inversion H; subst. exists []. split; [simpl; now rewrite app_nil_r | constructor].
Qed.

Lemma emits_call {A} (P : Event -> Prop) (ev : Event) (q : DB -> Result (A * DB)) :
  P ev -> emits P (call ev q).
Proof.
  intros HP w r w' H. apply call_trace in H. destruct H as [H _].
  exists [ev]. split; [exact H | now constructor].
Qed.

Lemma emits_bind {A B} (P : Event -> Prop) (m : M A) (f : A -> M B) :
  emits P m -> (forall a, emits P (f a)) -> emits P (bind m f).
Proof.
  intros Hm Hf w r w'. unfold bind.
  destruct (m w) as [[a|e] w1] eqn:E; intro H.
  - destruct (Hm _ _ _ E) as (evs1 & T1 & F1).
    destruct (Hf a _ _ _ H) as (evs2 & T2 & F2).
    exists (evs1 ++ evs2). split.
    + now rewrite T2, T1, app_assoc.
    + apply Forall_app. now split.
  - inversion H; subst. eapply Hm. exact E.
Qed.

Lemma emits_forEach {A} (P : Event -> Prop) (f : A -> M unit) (l : list A) :
  (forall x, In x l -> emits P (f x)) -> emits P (forEach f l).
Proof.
  induction l as [|x l IH]; intro Hf; simpl.
  - apply emits_ret.
  - apply emits_bind.
    + apply Hf. now left.
    + intros _. apply IH. intros y Hy. apply Hf. now right.
Qed.

Lemma emits_transaction {A} (P : Event -> Prop) (body : M A) :
  P EvBegin -> P EvCommit -> P EvRollback ->
  emits P body -> emits P (transaction body).
Proof.
  intros Pb Pc Pr Hbody w r w'. unfold transaction.
  destruct (call EvBegin _ w) as [[[]|e0] w1] eqn:E0.
  - apply call_trace in E0. destruct E0 as [T0 _].
    destruct (body w1) as [[a|e1] w2] eqn:E1.
    + destruct (Hbody _ _ _ E1) as (evs1 & T1 & F1).
      destruct (call EvCommit _ w2) as [[[]|e2] w3] eqn:E2;
        apply call_trace in E2; destruct E2 as [T2 _]; intro H; inversion H; subst.
      * exists ([EvBegin] ++ evs1 ++ [EvCommit]). split.
        -- rewrite T2, T1, T0. now rewrite <- !app_assoc.
        -- apply Forall_app. split; [now constructor|].
           apply Forall_app. split; [exact F1 | now constructor].
      * exists ([EvBegin] ++ evs1 ++ [EvCommit; EvRollback]). split.
        -- simpl. rewrite T2, T1, T0. now rewrite <- !app_assoc.
        -- apply Forall_app. split; [now constructor|].
           apply Forall_app. split; [exact F1 | now repeat constructor].
    + destruct (Hbody _ _ _ E1) as (evs1 & T1 & F1).
      intro H; inversion H; subst.
      exists ([EvBegin] ++ evs1 ++ [EvRollback]). split.
      * simpl. rewrite T1, T0. now rewrite <- !app_assoc.
      * apply Forall_app. split; [now constructor|].
        apply Forall_app. split; [exact F1 | now constructor].
  - apply call_trace in E0. destruct E0 as [T0 _].
    intro H; inversion H; subst. exists [EvBegin]. split; [exact T0 | now constructor].
Qed.

Lemma migrate_emits (r : Activity.t) : emits (tx_event_of r) (migrate r).
Proof.
  unfold migrate, migrate_row. apply emits_transaction; try exact I.
  apply emits_bind; [apply emits_randomUUID|]. intro u.
  apply emits_bind; [apply emits_call; exact I|]. intros _.
  apply emits_call. reflexivity.
Qed.

Lemma reconcile_emits (c : Comment.t) : emits reconcile_event (reconcile c).
Proof.
  unfold reconcile, find_activity, update_activity, insert_activity.
  apply emits_bind; [apply emits_call; exact I|]. intros [|k ?].
  - apply emits_bind; [apply emits_call; exact I|]. intros [|k ?];
      apply emits_call; exact I.
  - apply emits_call; exact I.
Qed.

Lemma keeps_ret {A} (R : DB -> DB -> Prop) (a : A) :
  (forall d, R d d) -> keeps R (ret a).
Proof. intros Hr w r w' H. inversion H; subst. apply Hr. Qed.

Lemma keeps_randomUUID (R : DB -> DB -> Prop) :
  (forall d, R d d) -> keeps R randomUUID.
Proof. intros Hr w r w' H. inversion H; subst. apply Hr. Qed.

Lemma keeps_call {A} (R : DB -> DB -> Prop) (ev : Event)
    (q : DB -> Result (A * DB)) :
  (forall d, R d d) ->
  (forall d a d', q d = Ok (a, d') -> R d d') ->
  keeps R (call ev q).
Proof.
  intros Hr Hq w r w'. unfold call. destruct (fault _).
  - intro H. inversion H; subst. apply Hr.
  - destruct (q (db w)) as [[a d]|e] eqn:E; intro H; inversion H; subst; simpl.
    + eapply Hq. exact E.
    + apply Hr.
Qed.

Lemma keeps_bind {A B} (R : DB -> DB -> Prop) (m : M A) (f : A -> M B) :
  (forall d1 d2 d3, R d1 d2 -> R d2 d3 -> R d1 d3) ->
  keeps R m -> (forall a, keeps R (f a)) -> keeps R (bind m f).
Proof.
  intros Ht Hm Hf w r w'. unfold bind.
  destruct (m w) as [[a|e] w1] eqn:E; intro H.
  - eapply Ht; [eapply Hm; exact E | eapply Hf; exact H].
  - inversion H; subst. eapply Hm. exact E.
Qed.

Lemma keeps_forEach {A} (R : DB -> DB -> Prop) (f : A -> M unit) (l : list A) :
  (forall d, R d d) ->
  (forall d1 d2 d3, R d1 d2 -> R d2 d3 -> R d1 d3) ->
  (forall x, In x l -> keeps R (f x)) -> keeps R (forEach f l).
Proof.
  intros Hr Ht. induction l as [|x l IH]; intro Hf; simpl.
  - now apply keeps_ret.
  - apply keeps_bind; [exact Ht | apply Hf; now left |].
    intros _. apply IH. intros y Hy. apply Hf. now right.
Qed.

Lemma keeps_transaction {A} (R : DB -> DB -> Prop) (body : M A) :
  (forall d, R d d) ->
  keeps R body -> keeps R (transaction body).
Proof.
  intros Hr Hbody w r w'. destruct r as [a|e]; intro H.
  - apply transaction_ok in H. destruct H as (w2 & Hb & ->).
    apply Hbody in Hb. exact Hb.
  - apply transaction_err in H. rewrite H. apply Hr.
Qed.

(* ================================================================ *)
(** ** One comment row of [down] *)

Lemma select_id_limit1_find (p : Activity.t -> bool) (rows : list Activity.t) :
  select_id_limit1 p rows =
    match find p rows with
    | Some x => [Activity.id x]
    | None => []
    end.
Proof.
  unfold select_id_limit1. induction rows as [|a rows IH]; simpl; [reflexivity|].
  destruct (p a); simpl; [reflexivity | exact IH].
Qed.

(** One comment row of [down] when the engine rejects no statement on
    its own: the table becomes what [reconciled] says, unless the key
    assigned to the row to insert is taken. *)
Lemma reconcile_run (c : Comment.t) (w : World) (rows' : list Activity.t) :
  (forall n, fault n = false) ->
  reconciled autoIncrement c (directus_activity (db w)) = Some rows' ->
  exists evs,
    reconcile c w =
      (Ok tt, mkWorld (set_activity rows' (db w)) (trace w ++ evs) (drawn w)) /\
    Forall reconcile_event evs.
Proof.
  intros Hf.
  unfold reconcile, reconciled, bind, find_activity, update_activity,
    insert_activity, call.
  rewrite Hf. simpl.
  destruct (select_id_limit1 (is_cross_reference c) _) as [|k ?].
  - rewrite Hf. simpl.
    destruct (select_id_limit1 (is_shadow c) _) as [|k ?]; rewrite Hf; simpl.
    + destruct (key_taken _ _); [discriminate|].
      intro H. injection H as <-. rewrite <- !app_assoc. simpl.
      eexists; split; [reflexivity | repeat constructor].
    + intro H. injection H as <-. rewrite <- !app_assoc. simpl.
      eexists; split; [reflexivity | repeat constructor].
  - rewrite Hf. simpl. intro H. injection H as <-. rewrite <- !app_assoc. simpl.
    eexists; split; [reflexivity | repeat constructor].
Qed.

Lemma down_loop_run (cs : list Comment.t) :
  (forall n, fault n = false) ->
  forall w rows',
  reconciled_all autoIncrement cs (directus_activity (db w)) = Some rows' ->
  exists evs,
    forEach reconcile cs w =
      (Ok tt, mkWorld (set_activity rows' (db w)) (trace w ++ evs) (drawn w)) /\
    Forall reconcile_event evs.
Proof.
  intro Hf. induction cs as [|c cs IH]; intros w rows' Hall; simpl in Hall.
  - injection Hall as <-. exists []. split; [|constructor]. simpl. unfold ret.
    rewrite app_nil_r. destruct w as [[? ? ? ?] ? ?]. reflexivity.
  - destruct (reconciled autoIncrement c (directus_activity (db w))) as [rows1|] eqn:E1;
      [|discriminate].
    destruct (reconcile_run c w rows1 Hf E1) as (evs1 & H1 & F1).
    simpl. unfold bind. rewrite H1.
    destruct (IH (mkWorld (set_activity rows1 (db w)) (trace w ++ evs1) (drawn w))
                rows' Hall) as (evs2 & H2 & F2).
    rewrite H2. simpl. exists (evs1 ++ evs2). split.
    + now rewrite <- app_assoc.
    + apply Forall_app. now split.
Qed.

(** [down], with its batches flattened. *)
Lemma down_eq (w : World) :
  down w = (comments <- select_comments ;;
            forEach reconcile comments ;;
            dropTable_directus_comments) w.
Proof.
  unfold down, bind.
  destruct (select_comments w) as [[cs|e] w1]; [|reflexivity].
  rewrite (processChunk_forEach reconcile); [reflexivity | lia].
Qed.

Lemma down_run (w : World) (cs : list Comment.t) (rows' : list Activity.t) :
  (forall n, fault n = false) ->
  directus_comments (db w) = Some cs ->
  reconciled_all autoIncrement cs (directus_activity (db w)) = Some rows' ->
  exists evs,
    down w =
      (Ok tt,
       mkWorld (set_comments None (set_activity rows' (db w)))
         (trace w ++ [EvSelectComments] ++ evs ++ [EvDropTable]) (drawn w)) /\
    Forall reconcile_event evs.
Proof.
  intros Hf Hcs Hall. rewrite down_eq. unfold bind, select_comments.
  rewrite (call_run _ _ _ (Hf _)). rewrite Hcs.
  destruct (down_loop_run cs Hf (mkWorld (db w) (trace w ++ [EvSelectComments]) (drawn w))
              rows' Hall)
    as (evs & H & F).
  rewrite H. unfold dropTable_directus_comments.
  rewrite (call_run _ _ _ (Hf _)). simpl. rewrite Hcs.
  exists evs. split; [|exact F]. simpl. now rewrite <- !app_assoc.
Qed.

(* ================================================================ *)
(** ** Undoing the rewrites of [up] *)

Lemma assigned_app (P S : list (Activity.t * string)) (k : Z) :
  assigned (P ++ S) k =
    match assigned P k with
    | Some u => Some u
    | None => assigned S k
    end.
Proof.
  induction P as [|p P IH]; simpl; [reflexivity|].
  destruct (Activity.id (fst p) =? k)%Z; [reflexivity | exact IH].
Qed.

Lemma NoDup_id_eq (rows : list Activity.t) (a b : Activity.t) :
  NoDup (map Activity.id rows) -> In a rows -> In b rows ->
  Activity.id a = Activity.id b -> a = b.
Proof.
  induction rows as [|x rows IH]; simpl; intros Hnd Ha Hb E; [contradiction|].
  inversion Hnd as [|? ? Hx Hnd']; subst.
  destruct Ha as [<- | Ha], Hb as [<- | Hb].
  - reflexivity.
  - exfalso. apply Hx. rewrite E. now apply in_map.
  - exfalso. apply Hx. rewrite <- E. now apply in_map.
  - now apply IH.
Qed.

Lemma filter_key_unique (k : Z) (l : list Z) :
  NoDup l -> In k l -> filter (fun z => (z =? k)%Z) l = [k].
Proof.
  induction l as [|z l IH]; simpl; intros Hnd Hin; [contradiction|].
  inversion Hnd as [|? ? Hz Hnd']; subst.
  destruct (z =? k)%Z eqn:E.
  - apply Z.eqb_eq in E. subst z. f_equal.
    clear IH Hin Hnd. induction l as [|y l IH]; simpl; [reflexivity|].
    destruct (y =? k)%Z eqn:E.
    + apply Z.eqb_eq in E. subst. exfalso. apply Hz. now left.
    + apply IH.
      * intro H. apply Hz. now right.
      * now inversion Hnd'.
  - destruct Hin as [-> | Hin]; [rewrite Z.eqb_refl in E; discriminate|].
    now apply IH.
Qed.

Lemma filter_by_key (p : Activity.t -> bool) (g : Activity.t -> Activity.t)
    (k : Z) (rows : list Activity.t) :
  (forall a, In a rows -> p (g a) = (Activity.id a =? k)%Z) ->
  (forall a, Activity.id (g a) = Activity.id a) ->
  map Activity.id (filter p (map g rows))
  = filter (fun z => (z =? k)%Z) (map Activity.id rows).
Proof.
  intros Hp Hg. induction rows as [|a rows IH]; simpl; [reflexivity|].
  rewrite (Hp a (or_introl eq_refl)).
  destruct (Activity.id a =? k)%Z; simpl.
  - rewrite Hg. f_equal. apply IH. intros b Hb. apply Hp. now right.
  - apply IH. intros b Hb. apply Hp. now right.
Qed.

Lemma midway_id (P S : list (Activity.t * string)) (a : Activity.t) :
  Activity.id (midway P S a) = Activity.id a.
Proof.
  unfold midway. destruct (assigned P _); [reflexivity|].
  destruct (assigned S _); reflexivity.
Qed.

Lemma restore_relink (r : Activity.t) (u : string) :
  Activity.comment r <> None ->
  restore (comment_of (r, u)) (relink u r) = as_comment r.
Proof.
  intro H. unfold restore, relink, comment_of, comment_text, as_comment. simpl.
  destruct r as [i a c it cm us ts]. simpl in *.
  destruct cm; [reflexivity | congruence].
Qed.

Lemma is_cross_reference_relink (r a : Activity.t) (u u' : string) :
  is_cross_reference (comment_of (r, u)) (relink u' a) = String.eqb u' u.
Proof.
  unfold is_cross_reference, relink, comment_of. simpl.
  now rewrite andb_true_r.
Qed.

Lemma is_cross_reference_as_comment (c : Comment.t) (a : Activity.t) :
  is_cross_reference c (as_comment a) = false.
Proof. unfold is_cross_reference, as_comment. simpl. apply andb_false_r. Qed.

(** [down] takes the table [up] left back to the legacy rows, one
    comment row after the other. *)
Lemma reconciled_all_midway (rows : list Activity.t) :
  NoDup (map Activity.id rows) ->
  forall S P : list (Activity.t * string),
    NoDup (map (fun p => Activity.id (fst p)) (P ++ S)) ->
    NoDup (map snd S) ->
    (forall p, In p S -> In (fst p) rows /\ Activity.comment (fst p) <> None) ->
    (forall a p, In a rows -> assigned (P ++ S) (Activity.id a) = None ->
                 In p S -> is_cross_reference (comment_of p) a = false) ->
    forall key,
    reconciled_all key (map comment_of S) (map (midway P S) rows)
    = Some (map (midway (P ++ S) []) rows).
Proof.
  intro Hrows. induction S as [|[r u] S IH]; intros P Hkeys Hus Hin Hfresh key.
  - simpl. now rewrite app_nil_r.
  - destruct (Hin (r, u) (or_introl eq_refl)) as [Hr Htext]. simpl in Hr, Htext.
    assert (HrP : assigned P (Activity.id r) = None).
    { apply assigned_None. rewrite map_app in Hkeys. simpl in Hkeys.
      apply NoDup_remove_2 in Hkeys. intro H. apply Hkeys.
      apply in_or_app. now left. }
    assert (HrS : ~ In (Activity.id r) (map (fun p => Activity.id (fst p)) S)).
    { rewrite map_app in Hkeys. simpl in Hkeys.
      apply NoDup_remove_2 in Hkeys. intro H. apply Hkeys.
      apply in_or_app. now right. }
    simpl in Hus. inversion Hus as [|? ? Hu Hus']; subst.
    assert (Hsel : select_id_limit1 (is_cross_reference (comment_of (r, u)))
                     (map (midway P ((r, u) :: S)) rows) = [Activity.id r]).
    { unfold select_id_limit1.
      rewrite (filter_by_key _ (midway P ((r, u) :: S)) (Activity.id r)).
      - rewrite filter_key_unique; [reflexivity | exact Hrows | now apply in_map].
      - intros a Ha. unfold midway.
        destruct (assigned P (Activity.id a)) as [u0|] eqn:EP.
        + rewrite is_cross_reference_as_comment. symmetry. apply Z.eqb_neq.
          intro E. rewrite E, HrP in EP. discriminate.
        + simpl. destruct (Activity.id r =? Activity.id a)%Z eqn:E.
          * rewrite is_cross_reference_relink, String.eqb_refl.
            apply Z.eqb_eq in E. rewrite E. symmetry. apply Z.eqb_refl.
          * rewrite Z.eqb_sym, E.
            destruct (assigned S (Activity.id a)) as [u'|] eqn:ES.
            -- rewrite is_cross_reference_relink. apply String.eqb_neq.
               intros ->. apply Hu.
               destruct (assigned_Some_In _ _ _ ES) as [r' [Hr' _]].
               change u with (snd (r', u)). now apply in_map.
            -- apply (Hfresh a (r, u) Ha); [|now left].
               rewrite assigned_app, EP. simpl. now rewrite E.
      - intro a. apply midway_id. }
    cbn [map reconciled_all].
    unfold reconciled. rewrite Hsel.
    replace (update_where_id (Activity.id r) (restore (comment_of (r, u)))
               (map (midway P ((r, u) :: S)) rows))
      with (map (midway (P ++ [(r, u)]) S) rows).
    + rewrite IH.
      * now rewrite <- app_assoc.
      * now rewrite <- app_assoc.
      * exact Hus'.
      * intros p Hp. apply Hin. now right.
      * intros a p Ha Hnone Hp. apply Hfresh; [exact Ha | | now right].
        now rewrite <- app_assoc in Hnone.
    + unfold update_where_id. rewrite map_map. apply map_ext_in. intros a Ha.
      rewrite midway_id. unfold midway. rewrite assigned_app. simpl.
      destruct (Activity.id a =? Activity.id r)%Z eqn:E.
      * apply Z.eqb_eq in E.
        assert (a = r) by (eapply NoDup_id_eq; eassumption). subst a.
        rewrite HrP, Z.eqb_refl. symmetry. now apply restore_relink.
      * rewrite Z.eqb_sym, E. destruct (assigned P (Activity.id a)); reflexivity.
Qed.

(* ================================================================ *)
(** ** A run of [up] *)

Lemma uuids_from_length (n k : nat) : List.length (uuids_from n k) = k.
Proof. unfold uuids_from. now rewrite length_map, length_seq. Qed.

Lemma combine_fst {A B} (l : list A) (l' : list B) :
  List.length l = List.length l' -> map fst (combine l l') = l.
Proof.
  revert l'. induction l as [|x l IH]; intros [|y l'] H; simpl in *;
    try reflexivity; try discriminate.
  f_equal. apply IH. now inversion H.
Qed.

Lemma combine_snd {A B} (l : list A) (l' : list B) :
  List.length l = List.length l' -> map snd (combine l l') = l'.
Proof.
  revert l'. induction l as [|x l IH]; intros [|y l'] H; simpl in *;
    try reflexivity; try discriminate.
  f_equal. apply IH. now inversion H.
Qed.

Lemma pairing_rows (w : World) : map fst (pairing w) = legacy_comments (db w).
Proof. unfold pairing. apply combine_fst. now rewrite uuids_from_length. Qed.

Lemma pairing_uuids (w : World) :
  map snd (pairing w)
  = uuids_from (drawn w) (List.length (legacy_comments (db w))).
Proof. unfold pairing. apply combine_snd. now rewrite uuids_from_length. Qed.

Lemma pairing_keys (w : World) :
  map (fun p => Activity.id (fst p)) (pairing w)
  = map Activity.id (legacy_comments (db w)).
Proof. rewrite <- (pairing_rows w). now rewrite map_map. Qed.

Lemma up_setup (w : World) :
  fault (List.length (trace w)) = false ->
  fault (S (List.length (trace w))) = false ->
  directus_comments (db w) = None ->
  up w = forEach migrate (legacy_comments (db w)) (after_setup w).
Proof.
  intros F0 F1 Hnone. rewrite up_eq.
  unfold bind, createTable_directus_comments, select_legacy_comments.
  rewrite (call_run _ _ _ F0), Hnone.
  rewrite call_run.
  - simpl. unfold after_setup. now rewrite <- app_assoc.
  - simpl. rewrite length_app, Nat.add_comm. exact F1.
Qed.

Lemma events_since_app (w w' : World) (evs : list Event) :
  trace w' = trace w ++ evs -> events_since w w' = evs.
Proof.
  intro H. unfold events_since.
  now rewrite H, skipn_app, Nat.sub_diag, skipn_all.
Qed.

(** [up] resolves when the engine rejects nothing, the table is not
    there yet, every selected row refers to an existing collection and
    user, and the identifiers drawn are distinct. *)
Lemma up_run_ok (w : World) :
  (forall n, fault n = false) ->
  directus_comments (db w) = None ->
  Forall (references_exist (db w)) (legacy_comments (db w)) ->
  NoDup (uuids_from (drawn w) (List.length (legacy_comments (db w)))) ->
  exists w',
    up w = (Ok tt, w') /\
    directus_comments (db w') = Some (map comment_of (pairing w)) /\
    directus_activity (db w')
      = fold_left relink_step (pairing w) (directus_activity (db w)) /\
    directus_collections (db w') = directus_collections (db w) /\
    directus_users (db w') = directus_users (db w) /\
    events_since w w'
      = [EvCreateTable; EvSelectLegacy] ++ concat (map tx_events (pairing w)) /\
    drawn w' = drawn w + List.length (legacy_comments (db w)).
Proof.
  intros Hf Hnone Hrefs Hnd.
  rewrite (up_setup w (Hf _) (Hf _) Hnone).
  destruct (up_loop_total (legacy_comments (db w)) Hf (after_setup w) [])
    as [w' Hrun].
  - reflexivity.
  - apply Forall_forall. intros r Hr. split.
    + apply legacy_comments_In in Hr. exact (proj2 Hr).
    + rewrite Forall_forall in Hrefs. apply (Hrefs r Hr).
  - exact Hnd.
  - exists w'. split; [exact Hrun|].
    destruct (up_loop_ok _ _ _ [] Hrun eq_refl)
      as (I1 & I2 & I3 & I4 & I5 & I6 & _ & _).
    simpl in *. unfold pairing. repeat split; try assumption.
    apply events_since_app. rewrite I5. now rewrite <- app_assoc.
Qed.

Lemma assigned_pairing (w : World) (r : Activity.t) :
  NoDup (map Activity.id (directus_activity (db w))) ->
  In r (legacy_comments (db w)) ->
  exists u, assigned (pairing w) (Activity.id r) = Some u /\ In (r, u) (pairing w).
Proof.
  intros Hnd Hr.
  assert (Hk : In (Activity.id r) (map (fun p => Activity.id (fst p)) (pairing w))).
  { rewrite pairing_keys. now apply in_map. }
  destruct (assigned (pairing w) (Activity.id r)) as [u|] eqn:E.
  - exists u. split; [reflexivity|].
    destruct (assigned_Some_In _ _ _ E) as [r' [Hin Hid]].
    assert (r' = r).
    { apply (NoDup_id_eq (legacy_comments (db w))).
      - now apply legacy_comments_NoDup.
      - rewrite <- pairing_rows. change r' with (fst (r', u)). now apply in_map.
      - exact Hr.
      - exact Hid. }
    now subst.
  - exfalso. clear Hnd Hr. induction (pairing w) as [|p L IH]; simpl in *; [contradiction|].
    destruct (Activity.id (fst p) =? Activity.id r)%Z eqn:E1; [discriminate|].
    destruct Hk as [Hk | Hk].
    + rewrite Hk, Z.eqb_refl in E1. discriminate.
    + now apply IH.
Qed.

(** C2.  Forward per-row transform.  When [up] runs ([directus_comments]
    not there yet, nothing rejected by the engine, the collections and
    users the selected rows refer to exist, the identifiers drawn
    distinct), it resolves; [directus_comments] then holds exactly one
    row per selected row, in the order of selection, each under a new
    identifier of its own; and every activity row [r] with a comment
    has, at its place, become [action = CREATE],
    [collection = 'directus_comments'], [item] = the identifier [u] of
    the comment row holding [r]'s [collection], [item], [comment], with
    [user_created = user] and [date_created = timestamp], and
    [comment = null]. *)
Theorem up_transforms_each_row (w : World) :
  (forall n, fault n = false) ->
  directus_comments (db w) = None ->
  NoDup (map Activity.id (directus_activity (db w))) ->
  Forall (references_exist (db w)) (legacy_comments (db w)) ->
  NoDup (uuids_from (drawn w) (List.length (legacy_comments (db w)))) ->
  exists w' cs,
    up w = (Ok tt, w') /\
    directus_comments (db w') = Some cs /\
    cs = map comment_of (pairing w) /\
    List.length cs = List.length (legacy_comments (db w)) /\
    NoDup (map Comment.id cs) /\
    directus_activity (db w') = relink_all (pairing w) (directus_activity (db w)) /\
    forall i r text,
      nth_error (directus_activity (db w)) i = Some r ->
      Activity.comment r = Some text ->
      exists u,
        In (r, u) (pairing w) /\
        In (Comment.mk u (Activity.collection r) (Activity.item r) text
              (Activity.timestamp r) (Activity.user r)) cs /\
        nth_error (directus_activity (db w')) i
        = Some (Activity.mk (Activity.id r) CREATE "directus_comments" u None
                  (Activity.user r) (Activity.timestamp r)).
Proof.
  intros Hf Hnone Hids Hrefs Hnd.
  destruct (up_run_ok w Hf Hnone Hrefs Hnd)
    as (w' & Hrun & Hcs & Hact & _ & _ & _ & _).
  assert (Hkeys : NoDup (map (fun p => Activity.id (fst p)) (pairing w))).
  { rewrite pairing_keys. now apply legacy_comments_NoDup. }
  rewrite (fold_relink_all _ Hkeys) in Hact.
  exists w', (map comment_of (pairing w)).
  split; [exact Hrun|]. split; [exact Hcs|]. split; [reflexivity|].
  split; [| split; [| split; [exact Hact|]]].
  - rewrite length_map. rewrite <- (pairing_rows w). now rewrite length_map.
  - rewrite map_map. simpl. change (fun x => snd x) with (@snd Activity.t string).
    now rewrite pairing_uuids.
  - intros i r text Hi Htext.
    assert (Hr : In r (legacy_comments (db w))).
    { apply legacy_comments_In. split; [eapply nth_error_In; exact Hi | congruence]. }
    destruct (assigned_pairing w r Hids Hr) as (u & Hu & Hin).
    exists u. split; [exact Hin|]. split.
    + rewrite (comment_of_text r u text Htext). now apply in_map.
    + rewrite Hact. unfold relink_all. rewrite nth_error_map, Hi. simpl.
      now rewrite Hu.
Qed.

(* ================================================================ *)
(** ** [up] followed by [down] *)

Lemma legacy_keys_have_comment (w : World) (r : Activity.t) :
  NoDup (map Activity.id (directus_activity (db w))) ->
  In r (directus_activity (db w)) -> Activity.comment r = None ->
  ~ In (Activity.id r) (map Activity.id (legacy_comments (db w))).
Proof.
  intros Hnd Hr Hnull Hin. apply in_map_iff in Hin. destruct Hin as (x & Hid & Hx).
  apply legacy_comments_In in Hx. destruct Hx as [Hx Hc].
  assert (x = r) by (eapply NoDup_id_eq; eassumption). subst. congruence.
Qed.

Lemma relink_all_midway (L : list (Activity.t * string)) (rows : list Activity.t) :
  relink_all L rows = map (midway [] L) rows.
Proof. reflexivity. Qed.

Lemma as_comment_same (r : Activity.t) : same_comment r (as_comment r).
Proof. unfold same_comment. simpl. repeat split. Qed.

(** [down] on the tables left by the transactions of [up] that have
    committed: the rows paired in [L] are rewritten back, nothing else
    changes, the table is dropped. *)
Lemma down_undoes_prefix (w1 : World) (rows : list Activity.t)
    (L : list (Activity.t * string)) :
  (forall n, fault n = false) ->
  NoDup (map Activity.id rows) ->
  NoDup (map (fun p => Activity.id (fst p)) L) ->
  NoDup (map snd L) ->
  (forall p, In p L -> In (fst p) rows /\ Activity.comment (fst p) <> None) ->
  (forall a p, In a rows -> assigned L (Activity.id a) = None ->
               In p L -> is_cross_reference (comment_of p) a = false) ->
  directus_comments (db w1) = Some (map comment_of L) ->
  directus_activity (db w1) = fold_left relink_step L rows ->
  exists w2,
    down w1 = (Ok tt, w2) /\
    directus_activity (db w2) = map (midway L []) rows /\
    directus_comments (db w2) = None /\
    Forall2 same_comment rows (directus_activity (db w2)).
Proof.
  intros Hf Hrows Hkeys Hus Hin Hfresh Hcs Hact.
  rewrite (fold_relink_all _ Hkeys), relink_all_midway in Hact.
  assert (Hall : reconciled_all autoIncrement (map comment_of L)
                   (directus_activity (db w1))
                 = Some (map (midway L []) rows)).
  { rewrite Hact.
    exact (reconciled_all_midway rows Hrows L [] Hkeys Hus Hin Hfresh autoIncrement). }
  destruct (down_run w1 (map comment_of L) _ Hf Hcs Hall) as (evs & Hdown & _).
  eexists. split; [exact Hdown|]. simpl. repeat split.
  clear. induction rows as [|a l IH]; simpl; constructor; [|exact IH].
  unfold midway. destruct (assigned L (Activity.id a)); [apply as_comment_same|].
  simpl. unfold same_comment. repeat split.
Qed.

(** C1.  Round trip.  Let [directus_comments] not be there yet, the
    keys of [directus_activity] be unique, nothing be rejected by the
    engine, the collections and users of the rows with a comment exist,
    and the identifiers drawn be distinct -- and, should the table also
    hold entries without comment, let none of them already refer to an
    identifier about to be drawn.  Then [up] followed at once by [down]
    resolves and leaves, for each original row and at its place, a row
    with the same [id], [collection], [item], [comment], [user] and
    [timestamp]; no row is added; the rows with a comment have
    [action = COMMENT], the others are untouched; and
    [directus_comments] is gone. *)
Theorem up_down_round_trip (w : World) :
  (forall n, fault n = false) ->
  directus_comments (db w) = None ->
  NoDup (map Activity.id (directus_activity (db w))) ->
  Forall (references_exist (db w)) (legacy_comments (db w)) ->
  NoDup (uuids_from (drawn w) (List.length (legacy_comments (db w)))) ->
  (forall a c,
     In a (directus_activity (db w)) -> Activity.comment a = None ->
     In (Comment.id c) (uuids_from (drawn w) (List.length (legacy_comments (db w)))) ->
     is_cross_reference c a = false) ->
  exists w1 w2,
    up w = (Ok tt, w1) /\
    down w1 = (Ok tt, w2) /\
    Forall2 same_comment (directus_activity (db w)) (directus_activity (db w2)) /\
    directus_activity (db w2)
      = map (fun a => if is_some (Activity.comment a) then as_comment a else a)
          (directus_activity (db w)) /\
    directus_comments (db w2) = None.
Proof.
  intros Hf Hnone Hids Hrefs Hnd Hfresh.
  destruct (up_run_ok w Hf Hnone Hrefs Hnd)
    as (w1 & Hup & Hcs & Hact & _ & _ & _ & _).
  assert (Hkeys : NoDup (map (fun p => Activity.id (fst p)) (pairing w))).
  { rewrite pairing_keys. now apply legacy_comments_NoDup. }
  assert (Hsome : forall a, In a (directus_activity (db w)) ->
                            Activity.comment a <> None ->
                            exists u, assigned (pairing w) (Activity.id a) = Some u).
  { intros a Ha Hc.
    assert (Hr : In a (legacy_comments (db w))) by (apply legacy_comments_In; now split).
    destruct (assigned_pairing w a Hids Hr) as (u & Hu & _). now exists u. }
  assert (Hnull : forall a, In a (directus_activity (db w)) ->
                            Activity.comment a = None ->
                            assigned (pairing w) (Activity.id a) = None).
  { intros a Ha Hc. apply assigned_None. rewrite pairing_keys.
    now apply legacy_keys_have_comment. }
  destruct (down_undoes_prefix w1 (directus_activity (db w)) (pairing w))
    as (w2 & Hdown & Hact2 & Hcs2 & Hsame); try assumption.
  - rewrite pairing_uuids. exact Hnd.
  - intros p Hp.
    assert (Hr : In (fst p) (legacy_comments (db w))).
    { rewrite <- pairing_rows. now apply in_map. }
    apply legacy_comments_In in Hr. exact Hr.
  - intros a p Ha Hnone' Hp.
    destruct (Activity.comment a) as [text|] eqn:Ec.
    + destruct (Hsome a Ha) as (u & Hu); congruence.
    + apply (Hfresh a (comment_of p) Ha Ec).
      simpl. rewrite <- pairing_uuids. now apply in_map.
  - exists w1, w2. split; [exact Hup|]. split; [exact Hdown|].
    split; [exact Hsame|]. split; [|exact Hcs2].
    rewrite Hact2. apply map_ext_in. intros a Ha. unfold midway.
    destruct (Activity.comment a) as [text|] eqn:Ec.
    + destruct (Hsome a Ha) as (u & Hu); [congruence|]. now rewrite Hu.
    + now rewrite (Hnull a Ha Ec).
Qed.

(* ================================================================ *)
(** ** What [up] leaves alone, whatever its outcome *)

Lemma migrate_keeps (R : DB -> DB -> Prop) (x : Activity.t) :
  (forall d, R d d) ->
  (forall d1 d2 d3, R d1 d2 -> R d2 d3 -> R d1 d3) ->
  (forall d cs u, directus_comments d = Some cs ->
                  R d (set_comments (Some (cs ++ [comment_of (x, u)])) d)) ->
  (forall d u, R d (set_activity
                      (update_where_id (Activity.id x) (relink u) (directus_activity d)) d)) ->
  keeps R (migrate x).
Proof.
  intros Hr Ht Hins Hupd. unfold migrate, migrate_row.
  apply keeps_transaction; [exact Hr|].
  apply keeps_bind; [exact Ht | now apply keeps_randomUUID |]. intro u.
  apply keeps_bind; [exact Ht | |].
  - unfold insert_comment. apply keeps_call; [exact Hr|].
    intros d a d' Hq.
    destruct (directus_comments d) as [cs|] eqn:Ecs; [|discriminate].
    destruct (Activity.comment x) as [text|] eqn:Etext; [|discriminate].
    rewrite (comment_of_text x u text Etext) in Hq.
    destruct (check_insert_comment _ _ _); [|discriminate].
    inversion Hq; subst. now apply Hins.
  - intros _. unfold update_activity. apply keeps_call; [exact Hr|].
    intros d a d' Hq. inversion Hq; subst. apply Hupd.
Qed.

Lemma up_keeps (R : DB -> DB -> Prop) (w : World) :
  (forall d, R d d) ->
  (forall d1 d2 d3, R d1 d2 -> R d2 d3 -> R d1 d3) ->
  (forall d, directus_comments d = None -> R d (set_comments (Some []) d)) ->
  (forall d cs x u, In x (legacy_comments (db w)) -> directus_comments d = Some cs ->
                    R d (set_comments (Some (cs ++ [comment_of (x, u)])) d)) ->
  (forall d x u, In x (legacy_comments (db w)) ->
                 R d (set_activity
                        (update_where_id (Activity.id x) (relink u) (directus_activity d)) d)) ->
  forall r w', up w = (r, w') -> R (db w) (db w').
Proof.
  intros Hr Ht Hcreate Hins Hupd r w' Hrun.
  destruct (up_cases w r w' Hrun) as [(e & _ & Hdb & _) | [(e & _ & Hn & ->) | (Hn & Hloop)]].
  - rewrite Hdb. apply Hr.
  - simpl. now apply Hcreate.
  - apply Ht with (db (after_setup w)).
    + simpl. now apply Hcreate.
    + eapply (keeps_forEach R migrate); [exact Hr | exact Ht | | exact Hloop].
      intros x Hx. apply migrate_keeps; [exact Hr | exact Ht | |].
      * intros d cs u Hcs. now apply Hins.
      * intros d u. now apply Hupd.
Qed.

Lemma Forall2_same_attribution_refl (rows : list Activity.t) :
  Forall2 same_attribution rows rows.
Proof.
  induction rows; constructor; [|assumption]. unfold same_attribution. repeat split.
Qed.

Lemma Forall2_same_attribution_trans (l1 l2 l3 : list Activity.t) :
  Forall2 same_attribution l1 l2 -> Forall2 same_attribution l2 l3 ->
  Forall2 same_attribution l1 l3.
Proof.
  intro H. revert l3. induction H as [|a b l1 l2 Hab H IH]; intros l3 H3.
  - inversion H3. constructor.
  - inversion H3 as [|? c ? l3' Hbc H3']; subst. constructor; [|now apply IH].
    destruct Hab as (A1 & A2 & A3), Hbc as (B1 & B2 & B3).
    unfold same_attribution. repeat split; congruence.
Qed.

(** C10.  Frame of the forward update.  Whatever the outcome of [up],
    every row of [directus_activity] is, at its place, a row with the
    [id], [user] and [timestamp] it had before; the update of [up]
    names [action], [collection], [item] and [comment] only. *)
Theorem up_keeps_attribution (w : World) :
  Forall2 same_attribution
    (directus_activity (db w)) (directus_activity (db (snd (up w)))) /\
  (forall u r, same_attribution r (relink u r)).
Proof.
  split.
  - destruct (up w) as [r w'] eqn:Hrun. simpl.
    apply (up_keeps
             (fun d d' => Forall2 same_attribution
                            (directus_activity d) (directus_activity d'))
             w) with (r := r); try exact Hrun.
    + intro d. apply Forall2_same_attribution_refl.
    + intros d1 d2 d3. apply Forall2_same_attribution_trans.
    + intros d _. simpl. apply Forall2_same_attribution_refl.
    + intros d cs x u _ _. simpl. apply Forall2_same_attribution_refl.
    + intros d x u _. simpl. unfold update_where_id.
      induction (directus_activity d) as [|a l IH]; simpl; constructor; [|exact IH].
      destruct (Activity.id a =? Activity.id x)%Z; unfold same_attribution;
        simpl; repeat split.
  - intros u r. unfold same_attribution. simpl. repeat split.
Qed.

Lemma emits_weaken {A} (P Q : Event -> Prop) (m : M A) :
  (forall ev, P ev -> Q ev) -> emits P m -> emits Q m.
Proof.
  intros HPQ Hm w r w' H. destruct (Hm _ _ _ H) as (evs & T & F).
  exists evs. split; [exact T|]. eapply Forall_impl; [exact HPQ | exact F].
Qed.

(** The statements a run of [up] sends. *)
Lemma up_trace (w : World) (res : Result unit) (w' : World) :
  up w = (res, w') ->
  exists evs,
    events_since w w' = evs /\
    Forall (fun ev => ev = EvCreateTable \/ ev = EvSelectLegacy \/
              exists x, In x (legacy_comments (db w)) /\ tx_event_of x ev) evs.
Proof.
  intro Hrun.
  destruct (up_cases w res w' Hrun)
    as [(e & _ & _ & Htr) | [(e & _ & Hn & ->) | (Hn & Hloop)]].
  - exists [EvCreateTable]. split; [now apply events_since_app|].
    constructor; [now left | constructor].
  - exists [EvCreateTable; EvSelectLegacy]. split; [now apply events_since_app|].
    constructor; [now left|]. constructor; [right; now left | constructor].
  - assert (Hem : emits (fun ev => exists x, In x (legacy_comments (db w)) /\
                                             tx_event_of x ev)
                    (forEach migrate (legacy_comments (db w)))).
    { apply emits_forEach. intros x Hx.
      eapply emits_weaken; [|apply migrate_emits].
      intros ev Hev. now exists x. }
    destruct (Hem _ _ _ Hloop) as (evs & T & F).
    exists ([EvCreateTable; EvSelectLegacy] ++ evs). split.
    + apply events_since_app. rewrite T. simpl. now rewrite <- app_assoc.
    + apply Forall_app. split.
      * constructor; [now left|]. constructor; [right; now left | constructor].
      * eapply Forall_impl; [|exact F]. intros ev H. right. now right.
Qed.

(** C9.  Source exclusion.  A row of [directus_activity] whose comment
    is null when [up] starts is not among the rows [up] selects; it is
    the same row, at the same place, when [up] ends, however [up] ends;
    no update statement is sent for its key; and every row
    [directus_comments] has gained is the comment of a selected row,
    so none is created on its behalf. *)
Theorem up_excludes_rows_without_comment (w : World) (i : nat) (r : Activity.t) :
  NoDup (map Activity.id (directus_activity (db w))) ->
  nth_error (directus_activity (db w)) i = Some r ->
  Activity.comment r = None ->
  ~ In r (legacy_comments (db w)) /\
  nth_error (directus_activity (db (snd (up w)))) i = Some r /\
  ~ In (EvUpdateActivity (Activity.id r)) (events_since w (snd (up w))) /\
  (forall c, In c (comment_rows (db (snd (up w)))) ->
             In c (comment_rows (db w)) \/
             exists x u, In x (legacy_comments (db w)) /\ x <> r /\ c = comment_of (x, u)).
Proof.
  intros Hnd Hi Hnull.
  assert (Hr : In r (directus_activity (db w))) by (eapply nth_error_In; exact Hi).
  assert (Hkey := legacy_keys_have_comment w r Hnd Hr Hnull).
  destruct (up w) as [res w'] eqn:Hrun. simpl.
  split; [|split; [|split]].
  - intro H. apply legacy_comments_In in H. exact (proj2 H Hnull).
  - apply (up_keeps
             (fun d d' => forall j a,
                  nth_error (directus_activity d) j = Some a ->
                  ~ In (Activity.id a) (map Activity.id (legacy_comments (db w))) ->
                  nth_error (directus_activity d') j = Some a)
             w) with (r := res) (w' := w') (j := i); try assumption.
    + intros d j a H _. exact H.
    + intros d1 d2 d3 H12 H23 j a Hj Ha. apply H23; [|exact Ha]. now apply H12.
    + intros d _ j a H _. exact H.
    + intros d cs x u _ _ j a H _. exact H.
    + intros d x u Hx j a Hj Ha. simpl. unfold update_where_id.
      rewrite nth_error_map, Hj. simpl.
      destruct (Activity.id a =? Activity.id x)%Z eqn:E; [|reflexivity].
      apply Z.eqb_eq in E. exfalso. apply Ha. rewrite E. now apply in_map.
  - intro Hin.
    destruct (up_trace w res w' Hrun) as (evs & Hev & Hall).
    rewrite Hev in Hin. rewrite Forall_forall in Hall.
    destruct (Hall _ Hin) as [H | [H | (x & Hx & Hk)]]; try discriminate.
    simpl in Hk. apply Hkey. rewrite Hk. now apply in_map.
  - intros c Hc.
    assert (Hprov :
              In c (comment_rows (db w)) \/
              exists x u, In x (legacy_comments (db w)) /\ c = comment_of (x, u)).
    { revert c Hc.
      apply (up_keeps
               (fun d d' => forall c,
                    In c (comment_rows d') ->
                    In c (comment_rows d) \/
                    exists x u, In x (legacy_comments (db w)) /\ c = comment_of (x, u))
               w) with (r := res) (w' := w'); try assumption.
      - intros d c H. now left.
      - intros d1 d2 d3 H12 H23 c H. destruct (H23 c H) as [H2 | H2]; [|now right].
        now apply H12.
      - intros d _ c []. 
      - intros d cs x u Hx Hcs c H. unfold comment_rows in *. simpl in H.
        rewrite Hcs. apply in_app_or in H. destruct H as [H | [<- | []]].
        + now left.
        + right. now exists x, u.
      - intros d x u _ c H. now left. }
    destruct Hprov as [H | (x & u & Hx & ->)]; [now left|].
    right. exists x, u. split; [exact Hx|]. split; [|reflexivity].
    intros ->. apply legacy_comments_In in Hx. exact (proj2 Hx Hnull).
Qed.

(* ================================================================ *)
(** ** Failure of one row, and batches *)

(** C5.  Partial-progress tolerance of [up].  When [up] is rejected
    after the table was created and the rows selected, it is the
    transaction of one selected row [r] that was rejected: the
    transactions of the rows selected before [r] have each resolved, in
    a [BEGIN] ... [COMMIT] bracket of their own, and the tables [up]
    leaves are exactly those their commits produced -- one comment row
    and one rewritten activity row per earlier row -- with nothing of
    [r]'s insert or update in them. *)
Theorem up_partial_progress (w : World) (e : Error) (w' : World) :
  fault (List.length (trace w)) = false ->
  fault (S (List.length (trace w))) = false ->
  directus_comments (db w) = None ->
  up w = (Err e, w') ->
  exists pre r post w1,
    legacy_comments (db w) = pre ++ r :: post /\
    forEach migrate pre (after_setup w) = (Ok tt, w1) /\
    migrate r w1 = (Err e, w') /\
    db w' = db w1 /\
    directus_comments (db w')
      = Some (map comment_of (combine pre (uuids_from (drawn w) (List.length pre)))) /\
    directus_activity (db w')
      = fold_left relink_step (combine pre (uuids_from (drawn w) (List.length pre)))
          (directus_activity (db w)) /\
    trace w1 = trace w ++ [EvCreateTable; EvSelectLegacy]
                 ++ concat (map tx_events
                              (combine pre (uuids_from (drawn w) (List.length pre)))).
Proof.
  intros F0 F1 Hnone Hrun. rewrite (up_setup w F0 F1 Hnone) in Hrun.
  destruct (forEach_err_split _ _ _ _ _ Hrun)
    as (pre & r & post & w1 & Hsplit & Hpre & Hr).
  exists pre, r, post, w1. split; [exact Hsplit|]. split; [exact Hpre|].
  split; [exact Hr|].
  assert (Hdb : db w' = db w1) by (eapply transaction_err; exact Hr).
  split; [exact Hdb|].
  destruct (up_loop_ok _ _ _ [] Hpre eq_refl) as (I1 & I2 & _ & _ & I5 & _).
  simpl in I1, I2, I5. rewrite Hdb. repeat split.
  - exact I1.
  - exact I2.
  - rewrite I5. now rewrite <- app_assoc.
Qed.

Lemma uuids_from_app (n a b : nat) :
  uuids_from n (a + b) = uuids_from n a ++ uuids_from (n + a) b.
Proof. unfold uuids_from. now rewrite seq_app, map_app. Qed.

(** The round trip when [up] is rejected on the way (a collection or a
    user that is gone, an identifier drawn twice): [down] takes the rows
    already rewritten back, and every row of [directus_activity] has the
    [id], [collection], [item], [comment], [user] and [timestamp] it had
    before [up] -- provided no entry already referred, as a
    cross-reference, to an identifier [up] was to draw. *)
Lemma up_rejected_then_down (w : World) (e : Error) (w1 : World) :
  (forall n, fault n = false) ->
  directus_comments (db w) = None ->
  NoDup (map Activity.id (directus_activity (db w))) ->
  (forall a c,
     In a (directus_activity (db w)) ->
     In (Comment.id c) (uuids_from (drawn w) (List.length (legacy_comments (db w)))) ->
     is_cross_reference c a = false) ->
  up w = (Err e, w1) ->
  exists w2,
    down w1 = (Ok tt, w2) /\
    Forall2 same_comment (directus_activity (db w)) (directus_activity (db w2)) /\
    directus_comments (db w2) = None.
Proof.
  intros Hf Hnone Hids Hfresh Hrun.
  rewrite (up_setup w (Hf _) (Hf _) Hnone) in Hrun.
  destruct (forEach_err_split _ _ _ _ _ Hrun)
    as (pre & r & post & v & Hsplit & Hpre & Hr).
  assert (Hdb : db w1 = db v) by (eapply transaction_err; exact Hr).
  destruct (up_loop_ok _ _ _ [] Hpre eq_refl) as (I1 & I2 & _ & _ & _ & _ & _ & I8).
  simpl in I1, I2, I8. specialize (I8 (NoDup_nil _)).
  assert (Hlegacy := legacy_comments_NoDup (db w) Hids).
  rewrite Hsplit, map_app in Hlegacy. apply NoDup_app_remove_r in Hlegacy.
  assert (Hlen : List.length pre
                 = List.length (uuids_from (drawn w) (List.length pre)))
    by now rewrite uuids_from_length.
  destruct (down_undoes_prefix w1 (directus_activity (db w))
              (combine pre (uuids_from (drawn w) (List.length pre))))
    as (w2 & Hdown & _ & Hcs2 & Hsame); try assumption.
  - rewrite <- map_map, combine_fst; assumption.
  - rewrite combine_snd; assumption.
  - intros p Hp.
    assert (Hin : In (fst p) (legacy_comments (db w))).
    { rewrite Hsplit. apply in_or_app. left.
      rewrite <- (combine_fst pre (uuids_from (drawn w) (List.length pre)) Hlen).
      now apply in_map. }
    apply legacy_comments_In in Hin. exact Hin.
  - intros a p Ha _ Hp. apply (Hfresh a (comment_of p) Ha).
    rewrite Hsplit, length_app, uuids_from_app. apply in_or_app. left. simpl.
    rewrite <- (combine_snd pre (uuids_from (drawn w) (List.length pre)) Hlen).
    now apply in_map.
  - now rewrite Hdb.
  - now rewrite Hdb.
  - exists w2. now repeat split.
Qed.

Lemma chunksOf_cons {A} (fuel size : nat) (arr : list A) :
  arr <> [] ->
  chunksOf (S fuel) size arr = firstn size arr :: chunksOf fuel size (skipn size arr).
Proof. destruct arr; [congruence | reflexivity]. Qed.

Lemma chunksOf_nil {A} (fuel size : nat) : chunksOf fuel size (@nil A) = [].
Proof. destruct fuel; reflexivity. Qed.

(** 250 records in chunks of 100: the first 100, the next 100, the last
    50. *)
Lemma chunks_of_250 {A} (arr : list A) :
  List.length arr = 250 ->
  chunks 100 arr = [firstn 100 arr; firstn 100 (skipn 100 arr); skipn 200 arr].
Proof.
  intro Hlen. unfold chunks. rewrite Hlen.
  assert (H1 : List.length (skipn 100 arr) = 150) by (rewrite length_skipn; lia).
  assert (H2 : List.length (skipn 200 arr) = 50) by (rewrite length_skipn; lia).
  change 250 with (S (S (S 247))).
  rewrite chunksOf_cons by (intros ->; discriminate).
  rewrite chunksOf_cons by (intros E; rewrite E in H1; discriminate).
  rewrite skipn_skipn. change (100 + 100) with 200.
  rewrite chunksOf_cons by (intros E; rewrite E in H2; discriminate).
  rewrite skipn_skipn.
  rewrite (@skipn_all2 A (100 + 200) arr) by lia. rewrite chunksOf_nil.
  rewrite (@firstn_all2 A 100 (skipn 200 arr)) by lia. reflexivity.
Qed.

(** The selection of [up] reads [directus_activity] only. *)
Lemma select_after_create (w : World) (w1 : World) (rows : list Activity.t)
    (w2 : World) :
  createTable_directus_comments w = (Ok tt, w1) ->
  select_legacy_comments w1 = (Ok rows, w2) ->
  rows = legacy_comments (db w).
Proof.
  intros H1 H2. apply call_ok in H1, H2.
  destruct H1 as (_ & Hq1 & _). destruct H2 as (_ & Hq2 & _).
  destruct (directus_comments (db w)); [discriminate|].
  injection Hq1 as Hdb1. injection Hq2 as Hrows _.
  rewrite <- Hrows, <- Hdb1. reflexivity.
Qed.

(** C8.  Batch boundary.  With exactly 250 selected rows, [up] hands the
    collaborator those rows and the chunk size 100, and the collaborator
    forms three batches, of the first 100, the next 100 and the last 50
    rows: whatever [observe] the collaborator does when it forms a
    batch, it is done three times, on these batches in order, each
    followed by the transactions of that batch.  [up] (when nothing is
    rejected) sends one [BEGIN], insert, update, [COMMIT] bracket per
    row, 250 in all; and for every selected row [r], when its
    transaction is over -- before the transaction of the next row
    starts, in the same batch or not -- the tables hold the comment row
    and the rewritten entry of [r] and of every row before it. *)
Theorem up_batches_of_250 (w : World) :
  (forall n, fault n = false) ->
  directus_comments (db w) = None ->
  Forall (references_exist (db w)) (legacy_comments (db w)) ->
  NoDup (uuids_from (drawn w) (List.length (legacy_comments (db w)))) ->
  List.length (legacy_comments (db w)) = 250 ->
  exists b1 b2 b3 w',
    legacy_comments (db w) = b1 ++ b2 ++ b3 /\
    List.length b1 = 100 /\ List.length b2 = 100 /\ List.length b3 = 50 /\
    (forall observe : list Activity.t -> M unit,
       up_with (fun arr size callback =>
                  processChunk arr size (fun chunk => observe chunk ;; callback chunk)) w
       = (createTable_directus_comments ;;
          select_legacy_comments ;;
          forEach (fun chunk => observe chunk ;; forEach migrate chunk) [b1; b2; b3]) w) /\
    up w = (Ok tt, w') /\
    events_since w w'
      = [EvCreateTable; EvSelectLegacy] ++ concat (map tx_events (pairing w)) /\
    List.length (pairing w) = 250 /\
    forall pre r post,
      legacy_comments (db w) = pre ++ r :: post ->
      exists w1 w2,
        forEach migrate pre (after_setup w) = (Ok tt, w1) /\
        migrate r w1 = (Ok tt, w2) /\
        forEach migrate post w2 = (Ok tt, w') /\
        events_since w1 w2 = tx_events (r, randomUUID_at (drawn w1)) /\
        directus_comments (db w2)
          = Some (map comment_of
                    (combine (pre ++ [r])
                       (uuids_from (drawn w) (List.length (pre ++ [r]))))) /\
        directus_activity (db w2)
          = fold_left relink_step
              (combine (pre ++ [r]) (uuids_from (drawn w) (List.length (pre ++ [r]))))
              (directus_activity (db w)).
Proof.
  intros Hf Hnone Hrefs Hnd Hlen.
  destruct (up_run_ok w Hf Hnone Hrefs Hnd) as (w' & Hrun & _ & _ & _ & _ & Hev & _).
  exists (firstn 100 (legacy_comments (db w))),
         (firstn 100 (skipn 100 (legacy_comments (db w)))),
         (skipn 200 (legacy_comments (db w))), w'.
  split.
  { rewrite <- (firstn_skipn 100 (legacy_comments (db w))) at 1. f_equal.
    rewrite <- (firstn_skipn 100 (skipn 100 (legacy_comments (db w)))) at 1.
    now rewrite skipn_skipn. }
  split; [rewrite length_firstn; lia|].
  split; [rewrite length_firstn, length_skipn; lia|].
  split; [rewrite length_skipn; lia|].
  split.
  { intro observe. unfold up_with, bind.
    destruct (createTable_directus_comments w) as [[[]|e] v1] eqn:E1; [|reflexivity].
    destruct (select_legacy_comments v1) as [[rows|e] v2] eqn:E2; [|reflexivity].
    rewrite (select_after_create w v1 rows v2 E1 E2).
    unfold processChunk. now rewrite (chunks_of_250 _ Hlen). }
  split; [exact Hrun|]. split; [exact Hev|].
  split; [rewrite <- Hlen, <- (pairing_rows w); now rewrite length_map|].
  intros pre r post Hsplit.
  rewrite (up_setup w (Hf _) (Hf _) Hnone), Hsplit, forEach_app in Hrun.
  unfold bind in Hrun.
  destruct (forEach migrate pre (after_setup w)) as [[[]|e] w1] eqn:Epre;
    [|discriminate].
  simpl in Hrun. unfold bind in Hrun.
  destruct (migrate r w1) as [[[]|e] w2] eqn:Er; [|discriminate].
  exists w1, w2. split; [first [exact Epre | reflexivity]|].
  split; [first [exact Er | reflexivity]|]. split; [exact Hrun|].
  split.
  { pose proof (migrate_inv r w1 _ _ Er) as (cs & text & _ & _ & _ & _ & Htr & _).
    now apply events_since_app. }
  assert (Hboth : forEach migrate (pre ++ [r]) (after_setup w) = (Ok tt, w2)).
  { rewrite forEach_app. unfold bind. rewrite Epre. simpl. unfold bind.
    now rewrite Er. }
  destruct (up_loop_ok _ _ _ [] Hboth eq_refl) as (I1 & I2 & _).
  simpl in I1, I2. now split.
Qed.

(* ================================================================ *)
(** ** The order in which the table stores its rows *)

Lemma sim_ret {A} (R : World -> World -> Prop) (a : A) : simulates R (ret a).
Proof. intros w1 w2 r w1' HR H. inversion H; subst. exists w2. now split. Qed.

Lemma sim_bind {A B} (R : World -> World -> Prop) (m : M A) (f : A -> M B) :
  simulates R m -> (forall a, simulates R (f a)) -> simulates R (bind m f).
Proof.
  intros Hm Hf w1 w2 r w1' HR. unfold bind.
  destruct (m w1) as [[a|e] v1] eqn:E; intro H.
  - destruct (Hm _ _ _ _ HR E) as (v2 & E2 & HR2). rewrite E2.
    eapply Hf; eassumption.
  - inversion H; subst. destruct (Hm _ _ _ _ HR E) as (v2 & E2 & HR2).
    rewrite E2. exists v2. now split.
Qed.

Lemma sim_forEach {A} (R : World -> World -> Prop) (f : A -> M unit) (l : list A) :
  (forall x, simulates R (f x)) -> simulates R (forEach f l).
Proof.
  intro Hf. induction l as [|x l IH]; simpl.
  - apply sim_ret.
  - apply sim_bind; [apply Hf | intros _; exact IH].
Qed.

Lemma sim_randomUUID : simulates (same_state alike) randomUUID.
Proof.
  intros w1 w2 r w1' (Hdb & Htr & Hdr) H. unfold randomUUID in *.
  inversion H; subst. rewrite Hdr. eexists. split; [reflexivity|].
  repeat split; simpl; try assumption; apply Hdb.
Qed.

Lemma sim_call {A} (ev : Event) (q : DB -> Result (A * DB)) :
  (forall d1 d2, alike d1 d2 ->
     match q d1 with
     | Ok (a, d1') => exists d2', q d2 = Ok (a, d2') /\ alike d1' d2'
     | Err e => q d2 = Err e
     end) ->
  simulates (same_state alike) (call ev q).
Proof.
  intros Hq w1 w2 r w1' (Hdb & Htr & Hdr). unfold call.
  rewrite <- Htr, <- Hdr. destruct (fault _).
  - intro H. inversion H; subst. eexists. split; [reflexivity|].
    repeat split; simpl; try assumption; apply Hdb.
  - specialize (Hq _ _ Hdb). destruct (q (db w1)) as [[a d1']|e].
    + destruct Hq as (d2' & -> & Hal). intro H. inversion H; subst.
      eexists. split; [reflexivity|]. repeat split; simpl; try assumption; apply Hal.
    + rewrite Hq. intro H. inversion H; subst. eexists. split; [reflexivity|].
      repeat split; simpl; try assumption; apply Hdb.
Qed.

Lemma sim_transaction {A} (body : M A) :
  simulates (same_state alike) body ->
  simulates (same_state alike) (transaction body).
Proof.
  intros Hbody w1 w2 r w1' HR. unfold transaction.
  assert (Hb : simulates (same_state alike)
                 (call EvBegin (fun d => Ok (tt, d)))).
  { apply sim_call. intros d1 d2 Hd. exists d2. now split. }
  assert (Hc : simulates (same_state alike)
                 (call EvCommit (fun d => Ok (tt, d)))).
  { apply sim_call. intros d1 d2 Hd. exists d2. now split. }
  destruct (call EvBegin _ w1) as [[[]|e0] v1] eqn:E0.
  - destruct (Hb _ _ _ _ HR E0) as (v2 & -> & HR1).
    destruct (body v1) as [[a|e1] u1] eqn:E1.
    + destruct (Hbody _ _ _ _ HR1 E1) as (u2 & -> & HR2).
      destruct (call EvCommit _ u1) as [[[]|e2] t1] eqn:E2.
      * destruct (Hc _ _ _ _ HR2 E2) as (t2 & -> & HR3).
        intro H. inversion H; subst. exists t2. now split.
      * destruct (Hc _ _ _ _ HR2 E2) as (t2 & -> & (_ & T3 & D3)).
        intro H. inversion H; subst. eexists. split; [reflexivity|].
        destruct HR as (Hdb & _ & _). unfold rollback.
        repeat split; simpl; try apply Hdb; congruence.
    + destruct (Hbody _ _ _ _ HR1 E1) as (u2 & -> & (_ & T2 & D2)).
      intro H. inversion H; subst. eexists. split; [reflexivity|].
      destruct HR as (Hdb & _ & _). unfold rollback.
      repeat split; simpl; try apply Hdb; congruence.
  - destruct (Hb _ _ _ _ HR E0) as (v2 & -> & HR1).
    intro H. inversion H; subst. exists v2. now split.
Qed.

Lemma update_where_id_ids (k : Z) (u : string) (rows : list Activity.t) :
  map Activity.id (update_where_id k (relink u) rows) = map Activity.id rows.
Proof.
  unfold update_where_id. rewrite map_map. apply map_ext. intro a.
  destruct (Activity.id a =? k)%Z; reflexivity.
Qed.

Lemma sim_migrate (x : Activity.t) : simulates (same_state alike) (migrate x).
Proof.
  unfold migrate, migrate_row. apply sim_transaction.
  apply sim_bind; [apply sim_randomUUID|]. intro u.
  apply sim_bind.
  - unfold insert_comment. apply sim_call.
    intros d1 d2 ((Hp & Hc & Hcol & Husr) & Hnd). rewrite <- Hc.
    destruct (directus_comments d1) as [cs|]; [|reflexivity].
    destruct (Activity.comment x) as [text|]; [|reflexivity].
    unfold check_insert_comment. rewrite <- Hcol, <- Husr.
    destruct (existsb _ cs); [reflexivity|].
    destruct (negb _); [reflexivity|]. simpl.
    assert (Hok : alike
                    (set_comments
                       (Some (cs ++ [Comment.mk u (Activity.collection x) (Activity.item x)
                                       text (Activity.timestamp x) (Activity.user x)])) d1)
                    (set_comments
                       (Some (cs ++ [Comment.mk u (Activity.collection x) (Activity.item x)
                                       text (Activity.timestamp x) (Activity.user x)])) d2)).
    { repeat split; simpl; assumption. }
    destruct (Activity.user x) as [usr|].
    + destruct (mem_string usr _); [|reflexivity]. eexists. split; [reflexivity | exact Hok].
    + eexists. split; [reflexivity | exact Hok].
  - intros _. unfold update_activity. apply sim_call.
    intros d1 d2 ((Hp & Hc & Hcol & Husr) & Hnd).
    eexists. split; [reflexivity|]. repeat split; simpl; try assumption.
    + unfold update_where_id. now apply Permutation_map.
    + now rewrite update_where_id_ids.
Qed.

Lemma sim_up : simulates (same_state alike) up.
Proof.
  intros w1 w2 r w1' HR Hrun. rewrite up_eq in Hrun. rewrite up_eq.
  revert w1 w2 r w1' HR Hrun.
  change (simulates (same_state alike)
            (createTable_directus_comments ;;
             comments <- select_legacy_comments ;;
             forEach migrate comments)).
  apply sim_bind.
  - unfold createTable_directus_comments. apply sim_call.
    intros d1 d2 ((Hp & Hc & Hcol & Husr) & Hnd). rewrite <- Hc.
    destruct (directus_comments d1); [reflexivity|].
    eexists. split; [reflexivity|]. repeat split; simpl; assumption.
  - intros _. apply sim_bind.
    + unfold select_legacy_comments. apply sim_call.
      intros d1 d2 ((Hp & Hc & Hcol & Husr) & Hnd).
      exists d2. rewrite (legacy_comments_perm d1 d2 Hnd Hp).
      split; [reflexivity|]. repeat split; assumption.
    + intro rows. apply sim_forEach. apply sim_migrate.
Qed.

Lemma updated_ids_tx (L : list (Activity.t * string)) :
  updated_ids (concat (map tx_events L)) = map (fun p => Activity.id (fst p)) L.
Proof.
  induction L as [|p L IH]; simpl; [reflexivity|]. now rewrite IH.
Qed.

(** C7.  Ordering determinism.  The rows [up] selects are the rows of
    [directus_activity] that have a comment, each once, in ascending
    order of [id], whatever the order in which the table stores them;
    and when [up] resolves it has sent its updates in that order, one
    per selected row.  Two runs that start from the same rows stored in
    different orders select the same list and end with the same
    outcome, the same [directus_comments], the same query log, and the
    same rows in [directus_activity], each table in its own storage
    order. *)
Theorem up_order_independent (w1 w2 : World) :
  same_tables (db w1) (db w2) ->
  NoDup (map Activity.id (directus_activity (db w1))) ->
  trace w1 = trace w2 ->
  drawn w1 = drawn w2 ->
  (forall r, In r (legacy_comments (db w1)) <->
             In r (directus_activity (db w1)) /\ Activity.comment r <> None) /\
  NoDup (map Activity.id (legacy_comments (db w1))) /\
  ascending (legacy_comments (db w1)) /\
  legacy_comments (db w2) = legacy_comments (db w1) /\
  fst (up w2) = fst (up w1) /\
  same_state same_tables (snd (up w1)) (snd (up w2)) /\
  (fst (up w1) = Ok tt ->
   updated_ids (events_since w1 (snd (up w1)))
   = map Activity.id (legacy_comments (db w1))).
Proof.
  intros Hsame Hnd Htr Hdr.
  split; [intro r; apply legacy_comments_In|].
  split; [now apply legacy_comments_NoDup|].
  split; [apply orderBy_id_ascending|].
  split; [symmetry; apply legacy_comments_perm; [exact Hnd | apply Hsame]|].
  destruct (up w1) as [r v1] eqn:E1.
  assert (HR : same_state alike w1 w2) by (repeat split; try assumption; apply Hsame).
  destruct (sim_up w1 w2 r v1 HR E1) as (v2 & E2 & (Hal & T & D)).
  rewrite E2. simpl. split; [reflexivity|]. split.
  - split; [apply Hal | now split].
  - intros ->.
    destruct (up_cases w1 (Ok tt) v1 E1)
      as [(e & He & _) | [(e & He & _) | (Hn & Hloop)]]; try discriminate.
    destruct (up_loop_ok _ _ _ [] Hloop eq_refl) as (_ & _ & _ & _ & I5 & _).
    rewrite (events_since_app w1 v1
               ([EvCreateTable; EvSelectLegacy]
                  ++ concat (map tx_events (pairing w1)))).
    + simpl. rewrite updated_ids_tx. apply pairing_keys.
    + rewrite I5. simpl. now rewrite <- app_assoc.
Qed.

(* ================================================================ *)
(** ** [down] *)


Lemma find_none_all {A} (p : A -> bool) (l : list A) :
  find p l = None <-> (forall y, In y l -> p y = false).
Proof.
  split.
  - intros H y Hy. eapply find_none; eassumption.
  - induction l as [|a l IH]; simpl; intro H; [reflexivity|].
    rewrite (H a (or_introl eq_refl)). apply IH. intros y Hy. apply H. now right.
Qed.


Lemma Action_eqb_true (a b : Action) : Action_eqb a b = true -> a = b.
Proof.
  destruct a, b; simpl; intro H; try discriminate; try reflexivity.
  apply String.eqb_eq in H. now subst.
Qed.

Lemma is_cross_reference_true (c : Comment.t) (a : Activity.t) :
  is_cross_reference c a = true ->
  Activity.collection a = "directus_comments"%string /\
  Activity.item a = Comment.id c /\ Activity.action a = CREATE.
Proof.
  unfold is_cross_reference. intro H.
  apply andb_true_iff in H. destruct H as [H H3].
  apply andb_true_iff in H. destruct H as [H1 H2].
  apply String.eqb_eq in H1, H2. apply Action_eqb_true in H3. now repeat split.
Qed.

Lemma is_shadow_true (c : Comment.t) (a : Activity.t) :
  is_shadow c a = true ->
  Activity.collection a = Comment.collection c /\
  Activity.item a = Comment.item c /\ Activity.action a = COMMENT.
Proof.
  unfold is_shadow. intro H.
  apply andb_true_iff in H. destruct H as [H H3].
  apply andb_true_iff in H. destruct H as [H1 H2].
  apply String.eqb_eq in H1, H2. apply Action_eqb_true in H3. now repeat split.
Qed.

(** The first search of [down] finds the cross-reference entries of
    the comment row, and only those. *)
Lemma is_cross_reference_iff (c : Comment.t) (a : Activity.t) :
  is_cross_reference c a = true <-> cross_reference_of c a.
Proof.
  split; [apply is_cross_reference_true|].
  intros (H1 & H2 & H3). unfold is_cross_reference.
  rewrite H1, H2, H3, !String.eqb_refl. reflexivity.
Qed.

(** The second search of [down] finds the entries of [action = COMMENT]
    on the item of the comment row, and only those. *)
Lemma is_shadow_iff (c : Comment.t) (a : Activity.t) :
  is_shadow c a = true <-> shadow_of c a.
Proof.
  split; [apply is_shadow_true|].
  intros (H1 & H2 & H3). unfold is_shadow.
  rewrite H1, H2, H3, !String.eqb_refl. reflexivity.
Qed.

Lemma is_cross_reference_none (c : Comment.t) (rows : list Activity.t) :
  (forall y, In y rows -> is_cross_reference c y = false) <->
  (forall y, In y rows -> ~ cross_reference_of c y).
Proof.
  split; intros H y Hy.
  - intro Hc. apply is_cross_reference_iff in Hc. rewrite (H y Hy) in Hc. discriminate.
  - destruct (is_cross_reference c y) eqn:E; [|reflexivity].
    apply is_cross_reference_iff in E. now apply H in E.
Qed.

Lemma is_shadow_none (c : Comment.t) (rows : list Activity.t) :
  (forall y, In y rows -> is_shadow c y = false) <->
  (forall y, In y rows -> ~ shadow_of c y).
Proof.
  split; intros H y Hy.
  - intro Hc. apply is_shadow_iff in Hc. rewrite (H y Hy) in Hc. discriminate.
  - destruct (is_shadow c y) eqn:E; [|reflexivity].
    apply is_shadow_iff in E. now apply H in E.
Qed.

Lemma key_taken_false (k : Z) (rows : list Activity.t) :
  key_taken k rows = false <-> ~ In k (map Activity.id rows).
Proof.
  unfold key_taken. split.
  - intros H Hin.
    assert (existsb (Z.eqb k) (map Activity.id rows) = true).
    { apply existsb_exists. exists k. split; [exact Hin | apply Z.eqb_refl]. }
    congruence.
  - intro H. destruct (existsb _ _) eqn:E; [|reflexivity].
    apply existsb_exists in E. destruct E as (x & Hx & Hk).
    apply Z.eqb_eq in Hk. subst x. contradiction.
Qed.


(** The third branch of [down], on its own. *)
Lemma reconcile_inserts_one (c : Comment.t) (w : World) :
  (forall n, fault n = false) ->
  ~ In (autoIncrement (directus_activity (db w)))
       (map Activity.id (directus_activity (db w))) ->
  (forall r, In r (directus_activity (db w)) -> is_cross_reference c r = false) ->
  (forall r, In r (directus_activity (db w)) -> is_shadow c r = false) ->
  exists w',
    reconcile c w = (Ok tt, w') /\
    events_since w w'
      = [EvFindMigrated (Comment.id c);
         EvFindUnmigrated (Comment.collection c) (Comment.item c);
         EvInsertActivity] /\
    directus_activity (db w')
      = directus_activity (db w)
          ++ [Activity.mk (autoIncrement (directus_activity (db w))) COMMENT
                (Comment.collection c) (Comment.item c) (Some (Comment.comment c))
                (Comment.user_created c) (Comment.date_created c)] /\
    directus_comments (db w') = directus_comments (db w).
Proof.
  intros Hf Hkey Hx Hs. apply key_taken_false in Hkey.
  apply find_none_all in Hx. apply find_none_all in Hs.
  unfold reconcile, bind, find_activity, update_activity, insert_activity, call.
  rewrite Hf. simpl. rewrite !select_id_limit1_find, Hx.
  rewrite Hf. simpl. rewrite select_id_limit1_find, Hs.
  rewrite Hf. simpl. rewrite Hkey. simpl.
  eexists. split; [reflexivity|]. split; [|split].
  - apply events_since_app. simpl. now rewrite <- !app_assoc.
  - reflexivity.
  - reflexivity.
Qed.

(** With an engine that assigns keys that are free, the loop of [down]
    is never stopped by the primary key. *)
Lemma reconciled_total (key : list Activity.t -> Z) (c : Comment.t)
    (rows : list Activity.t) :
  (forall l, ~ In (key l) (map Activity.id l)) ->
  exists rows', reconciled key c rows = Some rows'.
Proof.
  intro Hkey. unfold reconciled.
  destruct (select_id_limit1 (is_cross_reference c) rows); [|eauto].
  destruct (select_id_limit1 (is_shadow c) rows); [|eauto].
  specialize (Hkey rows). apply key_taken_false in Hkey. rewrite Hkey. eauto.
Qed.

Lemma reconciled_all_total (key : list Activity.t -> Z) (cs : list Comment.t) :
  (forall l, ~ In (key l) (map Activity.id l)) ->
  forall rows, exists rows', reconciled_all key cs rows = Some rows'.
Proof.
  intro Hkey. induction cs as [|c cs IH]; intro rows; simpl; [eauto|].
  destruct (reconciled_total key c rows Hkey) as (rows1 & ->). apply IH.
Qed.

(** A row the reconciliation of [c'] has written is no entry for a
    comment row [c] on another item; a row it has left is what it
    was. *)
Lemma reconciled_other_item (key : list Activity.t -> Z) (c' c : Comment.t)
    (rows rows' : list Activity.t) :
  reconciled key c' rows = Some rows' ->
  target c' <> target c ->
  (forall r, In r rows -> is_cross_reference c r = false) ->
  (forall r, In r rows -> is_shadow c r = false) ->
  (forall r, In r rows' -> is_cross_reference c r = false) /\
  (forall r, In r rows' -> is_shadow c r = false).
Proof.
  intros Hrec Ht Hx Hs.
  assert (Hother : forall col it,
            col = Comment.collection c' -> it = Comment.item c' ->
            String.eqb col (Comment.collection c) && String.eqb it (Comment.item c)
            = false).
  { intros col it -> ->.
    destruct (String.eqb (Comment.collection c') (Comment.collection c)) eqn:E1;
      [|reflexivity].
    destruct (String.eqb (Comment.item c') (Comment.item c)) eqn:E2; [|reflexivity].
    apply String.eqb_eq in E1, E2. exfalso. apply Ht. unfold target. congruence. }
  assert (Hrestore : forall r, is_cross_reference c (restore c' r) = false /\
                               is_shadow c (restore c' r) = false).
  { intro r. unfold is_cross_reference, is_shadow, restore. simpl. split.
    - apply andb_false_r.
    - now rewrite (Hother _ _ eq_refl eq_refl). }
  assert (Hfab : forall k, is_cross_reference c (fabricate k c') = false /\
                           is_shadow c (fabricate k c') = false).
  { intro k. unfold is_cross_reference, is_shadow, fabricate. simpl. split.
    - apply andb_false_r.
    - now rewrite (Hother _ _ eq_refl eq_refl). }
  assert (Hupd : forall k f,
            (forall r, In r rows ->
                       is_cross_reference c (f r) = false /\ is_shadow c (f r) = false) ->
            (forall r, In r (update_where_id k f rows) -> is_cross_reference c r = false) /\
            (forall r, In r (update_where_id k f rows) -> is_shadow c r = false)).
  { intros k f Hf. unfold update_where_id.
    split; intros r Hr; apply in_map_iff in Hr; destruct Hr as (a & <- & Ha);
      destruct (Activity.id a =? k)%Z; auto; now apply Hf. }
  unfold reconciled in Hrec.
  destruct (select_id_limit1 (is_cross_reference c') rows) as [|k ?].
  - destruct (select_id_limit1 (is_shadow c') rows) as [|k ?].
    + destruct (key_taken _ _); [discriminate|]. injection Hrec as <-.
      split; intros r Hr; apply in_app_or in Hr; destruct Hr as [Hr | [<- | []]];
        auto; apply Hfab.
    + injection Hrec as <-. apply Hupd. intros r Hr.
      unfold is_cross_reference, is_shadow, overwrite_text. simpl.
      split; [apply (Hx r Hr) | apply (Hs r Hr)].
  - injection Hrec as <-. apply Hupd. intros r _. apply Hrestore.
Qed.

Lemma reconciled_all_other_items (key : list Activity.t -> Z) (c : Comment.t)
    (cs : list Comment.t) :
  ~ In (target c) (map target cs) ->
  forall rows rows',
    reconciled_all key cs rows = Some rows' ->
    (forall r, In r rows -> is_cross_reference c r = false) ->
    (forall r, In r rows -> is_shadow c r = false) ->
    (forall r, In r rows' -> is_cross_reference c r = false) /\
    (forall r, In r rows' -> is_shadow c r = false).
Proof.
  induction cs as [|c' cs IH]; intros Ht rows rows' Hall Hx Hs; simpl in Hall.
  - injection Hall as <-. now split.
  - destruct (reconciled key c' rows) as [rows1|] eqn:E1; [|discriminate].
    simpl in Ht.
    destruct (reconciled_other_item key c' c rows rows1 E1) as [Hx1 Hs1];
      try assumption.
    + intro Heq. apply Ht. now left.
    + apply (IH (fun H => Ht (or_intror H)) rows1 rows' Hall Hx1 Hs1).
Qed.

(** C6 (as amended).  No duplication on fabrication.  Let [c] be a
    comment row of [directus_comments] for which [directus_activity]
    holds, when [down] starts, no cross-reference entry and no entry
    with [c]'s [collection] and [item] and [action = COMMENT]; and let
    no comment row before [c] be on [c]'s item.  Then [down] (the
    engine rejecting no statement and assigning keys that are free),
    having reconciled the rows before [c], inserts exactly one new
    entry for [c] -- one insert statement, one row more, under a key
    of its own -- with [action = COMMENT], the comment's [collection],
    [item] and text, [user = user_created] and
    [timestamp = date_created]; it then goes on with the rows after
    [c]. *)
Theorem down_fabricates_exactly_one (w : World) (pre post : list Comment.t)
    (c : Comment.t) :
  (forall n, fault n = false) ->
  (forall rows, ~ In (autoIncrement rows) (map Activity.id rows)) ->
  directus_comments (db w) = Some (pre ++ c :: post) ->
  (forall r, In r (directus_activity (db w)) -> ~ cross_reference_of c r) ->
  (forall r, In r (directus_activity (db w)) -> ~ shadow_of c r) ->
  ~ In (target c) (map target pre) ->
  exists v v',
    forEach reconcile pre (mkWorld (db w) (trace w ++ [EvSelectComments]) (drawn w))
      = (Ok tt, v) /\
    reconcile c v = (Ok tt, v') /\
    events_since v v'
      = [EvFindMigrated (Comment.id c);
         EvFindUnmigrated (Comment.collection c) (Comment.item c);
         EvInsertActivity] /\
    ~ In (autoIncrement (directus_activity (db v)))
         (map Activity.id (directus_activity (db v))) /\
    directus_activity (db v')
      = directus_activity (db v)
          ++ [Activity.mk (autoIncrement (directus_activity (db v))) COMMENT
                (Comment.collection c) (Comment.item c) (Some (Comment.comment c))
                (Comment.user_created c) (Comment.date_created c)] /\
    down w = (forEach reconcile post ;; dropTable_directus_comments) v'.
Proof.
  intros Hf Hkey Hcs Hx Hs Ht.
  pose proof (proj2 (is_cross_reference_none _ _) Hx) as Hx0.
  pose proof (proj2 (is_shadow_none _ _) Hs) as Hs0.
  destruct (reconciled_all_total autoIncrement pre Hkey (directus_activity (db w)))
    as (rows1 & Hall).
  destruct (down_loop_run pre Hf
              (mkWorld (db w) (trace w ++ [EvSelectComments]) (drawn w)) rows1 Hall)
    as (evs & Hpre & _).
  destruct (reconciled_all_other_items autoIncrement c pre Ht _ _ Hall Hx0 Hs0)
    as [Hx1 Hs1].
  assert (Hv : exists v,
             forEach reconcile pre
               (mkWorld (db w) (trace w ++ [EvSelectComments]) (drawn w)) = (Ok tt, v) /\
             directus_activity (db v) = rows1).
  { eexists. split; [exact Hpre | reflexivity]. }
  clear Hpre. destruct Hv as (v & Hpre & Hrows). rewrite <- Hrows in Hx1, Hs1.
  destruct (reconcile_inserts_one c v Hf (Hkey _) Hx1 Hs1)
    as (v' & Hrun & Hev & Hact & _).
  exists v, v'. split; [exact Hpre|]. split; [exact Hrun|]. split; [exact Hev|].
  split; [apply Hkey|]. split; [exact Hact|].
  rewrite down_eq. unfold bind at 1. unfold select_comments.
  rewrite (call_run _ _ _ (Hf _)), Hcs.
  unfold bind at 1. rewrite forEach_app. unfold bind at 1.
  rewrite Hpre. simpl. unfold bind. rewrite Hrun. reflexivity.
Qed.

Lemma reconcile_keeps_comments (c : Comment.t) :
  keeps (fun d d' => directus_comments d' = directus_comments d) (reconcile c).
Proof.
  assert (Hupd : forall k f,
             keeps (fun d d' => directus_comments d' = directus_comments d)
               (update_activity k f)).
  { intros k f. apply keeps_call; [reflexivity|].
    intros d a d' H. inversion H; subst. reflexivity. }
  assert (Hfind : forall ev p,
             keeps (fun d d' => directus_comments d' = directus_comments d)
               (find_activity ev p)).
  { intros ev p. apply keeps_call; [reflexivity|].
    intros d a d' H. inversion H; subst. reflexivity. }
  unfold reconcile.
  apply keeps_bind; [intros d1 d2 d3 H1 H2; congruence | apply Hfind |].
  intros [|k ?]; [|apply Hupd].
  apply keeps_bind; [intros d1 d2 d3 H1 H2; congruence | apply Hfind |].
  intros [|k ?]; [|apply Hupd].
  apply keeps_call; [reflexivity|].
  intros d a d' H. simpl in H. destruct (key_taken _ _); [discriminate|].
  inversion H; subst. reflexivity.
Qed.

(** C4.  Drop only after full reconciliation.  A run of [down] sends
    the [DROP TABLE] only when the loop has resolved for every comment
    row; and when the reconciliation of a row is rejected, [down] is
    rejected with that error, no [DROP TABLE] is sent, and
    [directus_comments] still holds every comment row. *)
Theorem down_drops_after_full_scan (w : World) (res : Result unit) (w' : World) :
  down w = (res, w') ->
  (In EvDropTable (events_since w w') ->
   exists cs w0 w1,
     select_comments w = (Ok cs, w0) /\
     forEach reconcile cs w0 = (Ok tt, w1) /\
     dropTable_directus_comments w1 = (res, w')) /\
  (forall cs w0 e w1,
     select_comments w = (Ok cs, w0) ->
     forEach reconcile cs w0 = (Err e, w1) ->
     res = Err e /\ w' = w1 /\
     ~ In EvDropTable (events_since w w') /\
     directus_comments (db w') = Some cs).
Proof.
  rewrite down_eq. unfold bind.
  destruct (select_comments w) as [[cs|e0] w0] eqn:Es.
  - pose proof (call_trace _ _ _ _ _ Es) as [T0 _].
    destruct (forEach reconcile cs w0) as [[[]|e1] w1] eqn:El.
    + intro H. split.
      * intros _. exists cs, w0, w1. now repeat split.
      * intros cs' w0' e w1' Hs Hl. inversion Hs; subst. congruence.
    + intro H. inversion H; subst.
      assert (Hem : emits reconcile_event (forEach reconcile cs)).
      { apply emits_forEach. intros c _. apply reconcile_emits. }
      destruct (Hem _ _ _ El) as (evs & T1 & F1).
      assert (Hev : events_since w w' = EvSelectComments :: evs).
      { apply events_since_app. rewrite T1, T0. now rewrite <- app_assoc. }
      assert (Hno : ~ In EvDropTable (events_since w w')).
      { rewrite Hev. intros [Hd | Hd]; [discriminate|].
        rewrite Forall_forall in F1. apply (F1 _ Hd). }
      split; [intro Hd; contradiction|].
      intros cs' w0' e w1' Hs Hl. inversion Hs; subst.
      rewrite El in Hl. inversion Hl; subst.
      split; [reflexivity|]. split; [reflexivity|]. split; [exact Hno|].
      assert (Hk : directus_comments (db w1') = directus_comments (db w0')).
      { apply (keeps_forEach (fun d d' => directus_comments d' = directus_comments d)
                 reconcile cs') with (r := Err e) (w := w0') (w' := w1').
        - reflexivity.
        - intros d1 d2 d3 H1 H2. congruence.
        - intros c _. apply reconcile_keeps_comments.
        - exact El. }
      rewrite Hk. apply call_ok in Es. destruct Es as (_ & Hq & _).
      destruct (directus_comments (db w)) as [rows|] eqn:Ec; [|discriminate].
      injection Hq as H1 H2. rewrite <- H2, Ec, H1. reflexivity.
  - intro H. inversion H; subst.
    pose proof (call_trace _ _ _ _ _ Es) as [T0 _].
    split.
    + rewrite (events_since_app w w' [EvSelectComments] T0).
      intros [Hd | []]. discriminate.
    + intros cs w0 e w1 Hs. discriminate.
Qed.

(* ================================================================ *)
(** ** Running a direction again *)

Lemma up_leaves_table (w : World) (r : Result unit) (w' : World) :
  directus_comments (db w) = None ->
  fault (List.length (trace w)) = false ->
  up w = (r, w') ->
  directus_comments (db w') <> None.
Proof.
  intros Hnone Hf Hrun. rewrite up_eq in Hrun. unfold bind at 1 in Hrun.
  unfold createTable_directus_comments in Hrun.
  rewrite (call_run _ _ _ Hf), Hnone in Hrun.
  assert (Hk : keeps (fun d d' => directus_comments d <> None ->
                                  directus_comments d' <> None)
                 (comments <- select_legacy_comments ;; forEach migrate comments)).
  { apply keeps_bind.
    - intros d1 d2 d3 H12 H23 H1. auto.
    - apply keeps_call; [auto|]. intros d a d' Hq. inversion Hq; subst. auto.
    - intro rows. apply keeps_forEach; [auto | intros d1 d2 d3 H12 H23 H1; auto |].
      intros x _. apply migrate_keeps; [auto | intros d1 d2 d3 H12 H23 H1; auto | |].
      + intros d cs u _ _. simpl. discriminate.
      + intros d u H. exact H. }
  apply (Hk _ _ _ Hrun). simpl. discriminate.
Qed.

(** [up] cannot be resumed by running it again: once its table creation
    went through, whatever became of the rest of the run, a second run
    is rejected at its first statement because the table exists, and
    touches no table. *)
Theorem up_again_is_rejected (w : World) (r : Result unit) (w1 : World) :
  directus_comments (db w) = None ->
  fault (List.length (trace w)) = false ->
  up w = (r, w1) ->
  fault (List.length (trace w1)) = false ->
  up w1 = (Err TableExists, mkWorld (db w1) (trace w1 ++ [EvCreateTable]) (drawn w1)).
Proof.
  intros Hnone Hf Hrun Hf1.
  pose proof (up_leaves_table w r w1 Hnone Hf Hrun) as Hsome.
  rewrite up_eq. unfold bind at 1. unfold createTable_directus_comments.
  rewrite (call_run _ _ _ Hf1).
  destruct (directus_comments (db w1)); [reflexivity | congruence].
Qed.

Lemma down_resolved_drops (w w' : World) :
  down w = (Ok tt, w') -> directus_comments (db w') = None.
Proof.
  rewrite down_eq. unfold bind.
  destruct (select_comments w) as [[cs|e] w0]; [|discriminate].
  destruct (forEach reconcile cs w0) as [[[]|e] w1]; [|discriminate].
  intro H. apply call_ok in H. destruct H as (_ & Hq & _).
  destruct (directus_comments (db w1)); [|discriminate].
  inversion Hq as [Hdb]. reflexivity.
Qed.

(** [down] cannot be run twice: after a run that resolved, the table is
    gone, and a second run is rejected at its first statement without
    touching [directus_activity]. *)
Theorem down_again_is_rejected (w w1 : World) :
  down w = (Ok tt, w1) ->
  fault (List.length (trace w1)) = false ->
  down w1 = (Err NoSuchTable,
             mkWorld (db w1) (trace w1 ++ [EvSelectComments]) (drawn w1)).
Proof.
  intros Hrun Hf1. pose proof (down_resolved_drops w w1 Hrun) as Hnone.
  rewrite down_eq. unfold bind at 1. unfold select_comments.
  rewrite (call_run _ _ _ Hf1), Hnone. reflexivity.
Qed.

(* ================================================================ *)
(** ** What a resolved [up] leaves *)

Lemma relink_steps_clear (L : list (Activity.t * string)) :
  forall rows,
    Forall (fun a => Activity.comment a = None \/
                     In (Activity.id a) (map (fun p => Activity.id (fst p)) L)) rows ->
    Forall (fun a => Activity.comment a = None) (fold_left relink_step L rows).
Proof.
  induction L as [|p L IH]; intros rows H; simpl.
  - eapply Forall_impl; [|exact H]. simpl. intros a [Ha | []]. exact Ha.
  - apply IH. unfold relink_step, update_where_id. apply Forall_forall.
    intros a' Ha'. apply in_map_iff in Ha'. destruct Ha' as (a & <- & Ha).
    rewrite Forall_forall in H. specialize (H a Ha).
    destruct (Activity.id a =? Activity.id (fst p))%Z eqn:E.
    + left. reflexivity.
    + destruct H as [H | [H | H]].
      * now left.
      * apply Z.eqb_neq in E. congruence.
      * now right.
Qed.

(** When [up] resolves, no entry of [directus_activity] carries a
    comment any more: every row that had one was rewritten, so the
    selection of [up] has nothing left to select. *)
Theorem up_resolved_leaves_no_comment (w w' : World) :
  up w = (Ok tt, w') ->
  Forall (fun a => Activity.comment a = None) (directus_activity (db w')) /\
  legacy_comments (db w') = [].
Proof.
  intro Hrun.
  assert (Hall : Forall (fun a => Activity.comment a = None) (directus_activity (db w'))).
  { destruct (up_cases w (Ok tt) w' Hrun)
      as [(e & He & _) | [(e & He & _) | (Hn & Hloop)]]; try discriminate.
    destruct (up_loop_ok _ _ _ [] Hloop eq_refl) as (_ & I2 & _).
    simpl in I2. rewrite I2. apply relink_steps_clear.
    apply Forall_forall. intros a Ha.
    destruct (Activity.comment a) as [text|] eqn:Ec; [right | now left].
    rewrite <- map_map, combine_fst by (now rewrite uuids_from_length).
    apply in_map. apply legacy_comments_In. split; [exact Ha | congruence]. }
  split; [exact Hall|].
  unfold legacy_comments.
  replace (filter _ (directus_activity (db w'))) with (@nil Activity.t); [reflexivity|].
  symmetry. induction Hall as [|a l Ha Hl IH]; simpl; [reflexivity|].
  rewrite Ha. exact IH.
Qed.

(* ================================================================ *)
(** ** The two representations never part, however [up] ends *)

(** Where a run of [up] stands when it ends: the selected rows up to
    some point have been migrated, the others not. *)
Lemma up_reaches (w : World) (r : Result unit) (w' : World) :
  directus_comments (db w) = None ->
  up w = (r, w') ->
  db w' = db w \/
  exists pre post,
    legacy_comments (db w) = pre ++ post /\
    directus_comments (db w')
      = Some (map comment_of (combine pre (uuids_from (drawn w) (List.length pre)))) /\
    directus_activity (db w')
      = fold_left relink_step (combine pre (uuids_from (drawn w) (List.length pre)))
          (directus_activity (db w)).
Proof.
  intros Hnone Hrun.
  destruct (up_cases w r w' Hrun)
    as [(e & _ & Hdb & _) | [(e & _ & _ & ->) | (_ & Hloop)]].
  - now left.
  - right. exists [], (legacy_comments (db w)). repeat split.
  - right. destruct r as [[]|e].
    + exists (legacy_comments (db w)), []. rewrite app_nil_r.
      destruct (up_loop_ok _ _ _ [] Hloop eq_refl) as (I1 & I2 & _).
      split; [reflexivity|]. split; [exact I1 | exact I2].
    + destruct (forEach_err_split _ _ _ _ _ Hloop)
        as (pre & x & post & v & Hsplit & Hpre & Hx).
      exists pre, (x :: post). split; [exact Hsplit|].
      rewrite (transaction_err _ _ _ _ Hx).
      destruct (up_loop_ok _ _ _ [] Hpre eq_refl) as (I1 & I2 & _).
      split; [exact I1 | exact I2].
Qed.

Lemma Forall2_image {A B} (R : A -> B -> Prop) (f : A -> B) (l : list A) :
  (forall a, In a l -> R a (f a)) -> Forall2 R l (map f l).
Proof.
  induction l as [|a l IH]; intro H; simpl; constructor.
  - apply H. now left.
  - apply IH. intros b Hb. apply H. now right.
Qed.

Lemma assigned_In (L : list (Activity.t * string)) (r : Activity.t) (u : string) :
  NoDup (map (fun p => Activity.id (fst p)) L) ->
  In (r, u) L -> assigned L (Activity.id r) = Some u.
Proof.
  induction L as [|p L IH]; simpl; intros Hnd Hin; [contradiction|].
  inversion Hnd as [|? ? Hp Hnd']; subst.
  destruct Hin as [-> | Hin].
  - simpl. now rewrite Z.eqb_refl.
  - destruct (Activity.id (fst p) =? Activity.id r)%Z eqn:E.
    + apply Z.eqb_eq in E. exfalso. apply Hp. rewrite E.
      change (Activity.id r) with ((fun q => Activity.id (fst q)) (r, u)).
      now apply in_map.
    + now apply IH.
Qed.

(** Whatever the outcome of [up] -- resolved, or rejected at any
    statement for any reason -- the tables it leaves are coherent: every
    entry of [directus_activity] is either as it was, or refers to a
    comment row that holds its collection, item, text, user and
    timestamp; and every comment row is referred to by an entry.  No
    comment is ever in both representations, or in neither. *)
Theorem up_leaves_coherent_tables (w : World) :
  directus_comments (db w) = None ->
  NoDup (map Activity.id (directus_activity (db w))) ->
  coherent (directus_activity (db w)) (db (snd (up w))).
Proof.
  intros Hnone Hids. destruct (up w) as [r w'] eqn:Hrun. simpl.
  destruct (up_reaches w r w' Hnone Hrun) as [Hdb | (pre & post & Hsplit & Hcs & Hact)].
  - rewrite Hdb. split.
    + generalize (directus_activity (db w)). intro l.
      induction l; constructor; [now left | assumption].
    + unfold comment_rows. rewrite Hnone. intros c [].
  - set (L := combine pre (uuids_from (drawn w) (List.length pre))) in *.
    assert (Hlen : List.length pre
                   = List.length (uuids_from (drawn w) (List.length pre)))
      by now rewrite uuids_from_length.
    assert (Hkeys : NoDup (map (fun p => Activity.id (fst p)) L)).
    { unfold L. rewrite <- map_map, combine_fst by exact Hlen.
      pose proof (legacy_comments_NoDup (db w) Hids) as H.
      rewrite Hsplit, map_app in H. now apply NoDup_app_remove_r in H. }
    assert (Hpre : forall p, In p L -> In (fst p) (directus_activity (db w)) /\
                                       Activity.comment (fst p) <> None).
    { intros p Hp. apply legacy_comments_In. rewrite Hsplit. apply in_or_app. left.
      rewrite <- (combine_fst pre (uuids_from (drawn w) (List.length pre)) Hlen).
      now apply in_map. }
    rewrite (fold_relink_all _ Hkeys) in Hact.
    unfold coherent, comment_rows. rewrite Hcs, Hact. split.
    + unfold relink_all.
      assert (Hall : forall a, In a (directus_activity (db w)) ->
                 (match assigned L (Activity.id a) with
                  | Some u => relink u a | None => a end) = a \/
                 exists u text,
                   Activity.comment a = Some text /\
                   (match assigned L (Activity.id a) with
                    | Some u => relink u a | None => a end) = relink u a /\
                   In (Comment.mk u (Activity.collection a) (Activity.item a) text
                         (Activity.timestamp a) (Activity.user a)) (map comment_of L)).
      { intros a Ha. destruct (assigned L (Activity.id a)) as [u|] eqn:E; [right | now left].
        destruct (assigned_Some_In _ _ _ E) as (r' & Hin & Hid).
        destruct (Hpre _ Hin) as [Hr' Hc]. simpl in Hr', Hc.
        assert (r' = a) by (eapply NoDup_id_eq; eassumption). subst r'.
        destruct (Activity.comment a) as [text|] eqn:Ec; [|congruence].
        exists u, text. split; [reflexivity|]. split; [reflexivity|].
        rewrite (comment_of_text a u text Ec). now apply in_map. }
      apply Forall2_image. exact Hall.
    + intros c Hc. apply in_map_iff in Hc. destruct Hc as ([x u] & <- & Hin).
      destruct (Hpre _ Hin) as [Hx _]. simpl in Hx.
      exists (relink u x). split.
      * unfold relink_all. apply in_map_iff. exists x. split; [|exact Hx].
        now rewrite (assigned_In L x u Hkeys Hin).
      * rewrite is_cross_reference_relink. apply String.eqb_refl.
Qed.

(* ================================================================ *)
(** ** What [down] keeps, however it ends *)

(** One comment row of [down], whatever the engine does: when it
    resolves, [directus_activity] has taken the one write of the branch;
    when it is rejected, the tables are as they were. *)
Lemma reconcile_any (c : Comment.t) (w : World) (r : Result unit) (w' : World) :
  reconcile c w = (r, w') ->
  match r with
  | Ok _ =>
      exists rows',
        reconciled autoIncrement c (directus_activity (db w)) = Some rows' /\
        db w' = set_activity rows' (db w)
  | Err _ => db w' = db w
  end.
Proof.
  unfold reconcile, reconciled, bind.
  destruct (find_activity _ (is_cross_reference c) w) as [[l1|e1] w1] eqn:E1.
  - apply call_ok in E1. destruct E1 as (_ & Hq1 & Hw1).
    injection Hq1 as Hl1 Hdb1. rewrite Hl1.
    destruct l1 as [|k1 ?].
    + destruct (find_activity _ (is_shadow c) w1) as [[l2|e2] w2] eqn:E2.
      * apply call_ok in E2. destruct E2 as (_ & Hq2 & Hw2).
        injection Hq2 as Hl2 Hdb2. rewrite <- Hdb1 in Hl2. rewrite Hl2.
        destruct l2 as [|k2 ?]; intro H; destruct r as [[]|e].
        -- apply call_ok in H. destruct H as (_ & Hq & _).
           rewrite <- Hdb2, <- Hdb1 in Hq. simpl in Hq.
           destruct (key_taken _ _); [discriminate|]. injection Hq as Hdb.
           eexists. split; [reflexivity|]. now rewrite <- Hdb.
        -- apply call_err in H. subst w'. simpl. congruence.
        -- apply call_ok in H. destruct H as (_ & Hq & _). injection Hq as Hdb.
           eexists. split; [reflexivity|].
           rewrite <- Hdb, <- Hdb2, <- Hdb1. reflexivity.
        -- apply call_err in H. subst w'. simpl. congruence.
      * apply call_err in E2. intro H. inversion H; subst. simpl. congruence.
    + intro H; destruct r as [[]|e].
      * apply call_ok in H. destruct H as (_ & Hq & _). injection Hq as Hdb.
        eexists. split; [reflexivity|]. rewrite <- Hdb, <- Hdb1. reflexivity.
      * apply call_err in H. subst w'. simpl. congruence.
  - apply call_err in E1. intro H. inversion H; subst. reflexivity.
Qed.

(** The loop of [down], as far as it got. *)
Lemma reconcile_loop_any (cs : list Comment.t) :
  forall (w : World) (r : Result unit) (w' : World),
    forEach reconcile cs w = (r, w') ->
    exists done rest rows',
      cs = done ++ rest /\
      (r = Ok tt -> rest = []) /\
      reconciled_all autoIncrement done (directus_activity (db w)) = Some rows' /\
      db w' = set_activity rows' (db w).
Proof.
  induction cs as [|c cs IH]; intros w r w' Hrun.
  - inversion Hrun; subst. exists [], [], (directus_activity (db w')).
    repeat split. destruct (db w'); reflexivity.
  - simpl in Hrun. unfold bind in Hrun.
    destruct (reconcile c w) as [[[]|e] v] eqn:E.
    + pose proof (reconcile_any c w _ _ E) as (rows1 & Hrec & Hdb).
      destruct (IH v r w' Hrun) as (done & rest & rows' & -> & Hrest & Hall & Hdb').
      exists (c :: done), rest, rows'. split; [reflexivity|]. split; [exact Hrest|].
      split.
      * simpl. rewrite Hrec. rewrite Hdb in Hall. exact Hall.
      * rewrite Hdb', Hdb. reflexivity.
    + inversion Hrun; subst. exists [], (c :: cs), (directus_activity (db w)).
      split; [reflexivity|]. split; [discriminate|]. split; [reflexivity|].
      pose proof (reconcile_any c w _ _ E) as Hdb. simpl in Hdb.
      rewrite Hdb. destruct (db w); reflexivity.
Qed.

(** [down], as far as it got: the selection was rejected, or the loop
    reconciled the first comment rows; the drop does not touch
    [directus_activity]. *)
Lemma down_any (w : World) (r : Result unit) (w' : World) :
  down w = (r, w') ->
  db w' = db w \/
  exists done rest,
    directus_comments (db w) = Some (done ++ rest) /\
    (r = Ok tt -> rest = []) /\
    reconciled_all autoIncrement done (directus_activity (db w))
    = Some (directus_activity (db w')).
Proof.
  rewrite down_eq. unfold bind.
  destruct (select_comments w) as [[cs|e0] w0] eqn:Es.
  - apply call_ok in Es. destruct Es as (_ & Hq & _).
    destruct (directus_comments (db w)) as [rows|] eqn:Ec; [|discriminate].
    injection Hq as Hrows Hdb0. subst rows.
    destruct (forEach reconcile cs w0) as [[[]|e1] w1] eqn:El.
    + destruct (reconcile_loop_any cs _ _ _ El)
        as (done & rest & rows' & Hsplit & Hrest & Hall & Hdb1).
      intro H. right. exists done, rest. split; [now rewrite Hsplit|].
      split; [intros _; now apply Hrest|].
      assert (Ha : directus_activity (db w') = directus_activity (db w1)).
      { destruct r as [[]|e].
        - apply call_ok in H. destruct H as (_ & Hq & _).
          destruct (directus_comments (db w1)); [|discriminate].
          injection Hq as Hdb. rewrite <- Hdb. reflexivity.
        - apply call_err in H. subst w'. reflexivity. }
      rewrite Ha, Hdb1. rewrite <- Hdb0 in Hall. exact Hall.
    + destruct (reconcile_loop_any cs _ _ _ El)
        as (done & rest & rows' & Hsplit & _ & Hall & Hdb1).
      intro H. inversion H; subst. right. exists done, rest.
      split; [reflexivity|]. split; [discriminate|].
      rewrite Hdb1. rewrite <- Hdb0 in Hall. exact Hall.
  - apply call_err in Es. intro H. inversion H; subst. now left.
Qed.

Lemma reconciled_find (key : list Activity.t -> Z) (c : Comment.t)
    (rows : list Activity.t) :
  reconciled key c rows =
    match find (is_cross_reference c) rows with
    | Some x => Some (update_where_id (Activity.id x) (restore c) rows)
    | None =>
        match find (is_shadow c) rows with
        | Some y => Some (update_where_id (Activity.id y) (overwrite_text c) rows)
        | None =>
            if key_taken (key rows) rows then None
            else Some (rows ++ [fabricate (key rows) c])
        end
    end.
Proof.
  unfold reconciled. rewrite !select_id_limit1_find.
  destruct (find (is_cross_reference c) rows); [reflexivity|].
  destruct (find (is_shadow c) rows); reflexivity.
Qed.

Lemma update_keeps_ids (k : Z) (f : Activity.t -> Activity.t) (rows : list Activity.t) :
  (forall r, Activity.id (f r) = Activity.id r) ->
  map Activity.id (update_where_id k f rows) = map Activity.id rows.
Proof.
  intro Hf. unfold update_where_id. rewrite map_map. apply map_ext. intro a.
  destruct (Activity.id a =? k)%Z; [apply Hf | reflexivity].
Qed.

Lemma sample_key_fresh (rows : list Activity.t) :
  ~ In (sample_key rows) (map Activity.id rows).
Proof.
  unfold sample_key. intro Hin.
  assert (Hmax : forall l k, In k l -> (k <= fold_right Z.max 0 l)%Z).
  { induction l as [|z l IH]; simpl; intros k Hk; [contradiction|].
    destruct Hk as [-> | Hk]; [lia|]. specialize (IH k Hk). lia. }
  specialize (Hmax _ _ Hin). lia.
Qed.

Lemma reconciled_keys (key : list Activity.t -> Z) (c : Comment.t)
    (rows rows' : list Activity.t) :
  reconciled key c rows = Some rows' ->
  NoDup (map Activity.id rows) -> NoDup (map Activity.id rows').
Proof.
  rewrite reconciled_find. intros Hrec Hnd.
  destruct (find (is_cross_reference c) rows) as [x|].
  - injection Hrec as <-. now rewrite update_keeps_ids.
  - destruct (find (is_shadow c) rows) as [y|].
    + injection Hrec as <-. now rewrite update_keeps_ids.
    + destruct (key_taken (key rows) rows) eqn:Ek; [discriminate|].
      injection Hrec as <-. apply key_taken_false in Ek.
      rewrite map_app. simpl. apply NoDup_app; [exact Hnd | | ].
      * constructor; [intros [] | constructor].
      * intros k Hk [<- | []]. contradiction.
Qed.

Lemma reconciled_all_keys (key : list Activity.t -> Z) (cs : list Comment.t) :
  forall rows rows',
    reconciled_all key cs rows = Some rows' ->
    NoDup (map Activity.id rows) -> NoDup (map Activity.id rows').
Proof.
  induction cs as [|c cs IH]; intros rows rows' Hall H; simpl in Hall.
  - now injection Hall as <-.
  - destruct (reconciled key c rows) as [rows1|] eqn:E1; [|discriminate].
    apply (IH rows1 rows' Hall). now apply (reconciled_keys key c rows).
Qed.

(** The primary key of [directus_activity] survives [down], however
    [down] ends: the keys are unique after it when they were before it
    (a rewritten entry keeps its key, an inserted one takes a new key). *)
Theorem down_keeps_primary_key (w : World) :
  NoDup (map Activity.id (directus_activity (db w))) ->
  NoDup (map Activity.id (directus_activity (db (snd (down w))))).
Proof.
  intro Hnd. destruct (down w) as [r w'] eqn:Hrun. simpl.
  destruct (down_any w r w' Hrun) as [Hdb | (done & rest & _ & _ & Hact)].
  - now rewrite Hdb.
  - now apply (reconciled_all_keys autoIncrement done _ _ Hact).
Qed.

Lemma same_attribution_image (f : Activity.t -> Activity.t) (rows : list Activity.t) :
  (forall r, same_attribution r (f r)) ->
  Forall2 same_attribution rows (map f rows).
Proof. intro Hf. apply Forall2_image. intros a _. apply Hf. Qed.

Lemma grown_refl (rows : list Activity.t) : grown 0 rows rows.
Proof.
  exists rows, []. rewrite app_nil_r. split; [reflexivity|].
  split; [apply Forall2_same_attribution_refl | reflexivity].
Qed.

Lemma grown_trans (n m : nat) (l1 l2 l3 : list Activity.t) :
  grown n l1 l2 -> grown m l2 l3 -> grown (n + m) l1 l3.
Proof.
  intros (k1 & e1 & -> & F1 & L1) (k2 & e2 & -> & F2 & L2).
  apply Forall2_app_inv_l in F2. destruct F2 as (k2a & k2b & Fa & Fb & ->).
  exists k2a, (k2b ++ e2). split; [now rewrite app_assoc|]. split.
  - eapply Forall2_same_attribution_trans; eassumption.
  - rewrite length_app. apply Forall2_length in Fb. lia.
Qed.

Lemma reconciled_grown (key : list Activity.t -> Z) (c : Comment.t)
    (rows rows' : list Activity.t) :
  reconciled key c rows = Some rows' -> grown 1 rows rows'.
Proof.
  rewrite reconciled_find.
  assert (Hupd : forall k f, (forall r, same_attribution r (f r)) ->
                             grown 1 rows (update_where_id k f rows)).
  { intros k f Hf. exists (update_where_id k f rows), []. rewrite app_nil_r.
    split; [reflexivity|]. split; [|simpl; lia].
    unfold update_where_id. apply Forall2_image. intros a _.
    destruct (Activity.id a =? k)%Z; [apply Hf|].
    unfold same_attribution. repeat split. }
  destruct (find (is_cross_reference c) rows) as [x|].
  - intro H. injection H as <-.
    apply Hupd. intro r. unfold same_attribution. simpl. repeat split.
  - destruct (find (is_shadow c) rows) as [y|].
    + intro H. injection H as <-.
      apply Hupd. intro r. unfold same_attribution. simpl. repeat split.
    + destruct (key_taken _ _); [discriminate|]. intro H. injection H as <-.
      exists rows, [fabricate (key rows) c]. split; [reflexivity|].
      split; [apply Forall2_same_attribution_refl | simpl; lia].
Qed.

Lemma reconciled_all_grown (key : list Activity.t -> Z) (cs : list Comment.t) :
  forall rows rows',
    reconciled_all key cs rows = Some rows' ->
    grown (List.length cs) rows rows'.
Proof.
  induction cs as [|c cs IH]; intros rows rows' Hall; simpl in Hall.
  - injection Hall as <-. apply grown_refl.
  - destruct (reconciled key c rows) as [rows1|] eqn:E1; [|discriminate].
    change (List.length (c :: cs)) with (1 + List.length cs).
    eapply grown_trans; [eapply reconciled_grown; exact E1 | now apply IH].
Qed.

(** [down] never deletes an entry of [directus_activity] and never
    changes the [id], [user] or [timestamp] of one, however it ends; the
    table afterwards is the table before, row for row, followed by at
    most one new entry per comment row. *)
Theorem down_only_grows_activity (w : World) :
  grown (List.length (comment_rows (db w)))
    (directus_activity (db w)) (directus_activity (db (snd (down w)))).
Proof.
  destruct (down w) as [r w'] eqn:Hrun. simpl.
  destruct (down_any w r w' Hrun) as [Hdb | (done & rest & Hcs & _ & Hact)].
  - rewrite Hdb. destruct (grown_refl (directus_activity (db w))) as (k & e & H1 & H2 & H3).
    exists k, e. repeat split; try assumption. lia.
  - unfold comment_rows. rewrite Hcs.
    destruct (reconciled_all_grown autoIncrement done _ _ Hact)
      as (k & e & H1 & H2 & H3).
    exists k, e. repeat split; try assumption. rewrite length_app. lia.
Qed.

Lemma update_where_id_hit (k : Z) (f : Activity.t -> Activity.t)
    (rows : list Activity.t) (x : Activity.t) :
  In x rows -> Activity.id x = k -> In (f x) (update_where_id k f rows).
Proof.
  intros Hx Hk. unfold update_where_id. apply in_map_iff. exists x.
  split; [|exact Hx]. rewrite Hk, Z.eqb_refl. reflexivity.
Qed.

Lemma update_where_id_miss (k : Z) (f : Activity.t -> Activity.t)
    (rows : list Activity.t) (a : Activity.t) :
  In a rows -> Activity.id a <> k -> In a (update_where_id k f rows).
Proof.
  intros Ha Hk. unfold update_where_id. apply in_map_iff. exists a.
  split; [|exact Ha]. apply Z.eqb_neq in Hk. now rewrite Hk.
Qed.

(** Whichever branch [down] takes for [c], an entry carries [c]
    afterwards. *)
Lemma reconciled_carries (key : list Activity.t -> Z) (c : Comment.t)
    (rows rows' : list Activity.t) :
  reconciled key c rows = Some rows' ->
  exists a, In a rows' /\ carries c a.
Proof.
  rewrite reconciled_find.
  destruct (find (is_cross_reference c) rows) as [x|] eqn:Ex.
  - intro H. injection H as <-.
    apply find_some in Ex. destruct Ex as [Hx _].
    exists (restore c x). split.
    + now apply update_where_id_hit.
    + unfold carries. simpl. repeat split.
  - destruct (find (is_shadow c) rows) as [y|] eqn:Ey.
    + intro H. injection H as <-.
      apply find_some in Ey. destruct Ey as [Hy Hs].
      apply is_shadow_true in Hs. destruct Hs as (H1 & H2 & H3).
      exists (overwrite_text c y). split.
      * now apply update_where_id_hit.
      * unfold carries. simpl. now repeat split.
    + destruct (key_taken _ _); [discriminate|]. intro H. injection H as <-.
      exists (fabricate (key rows) c). split.
      * apply in_or_app. right. now left.
      * unfold carries. simpl. repeat split.
Qed.

(** An entry that carries a comment on another item is not touched. *)
Lemma reconciled_spares (key : list Activity.t -> Z) (c c0 : Comment.t)
    (rows rows' : list Activity.t) (a : Activity.t) :
  reconciled key c rows = Some rows' ->
  NoDup (map Activity.id rows) ->
  target c0 <> target c ->
  In a rows -> carries c0 a ->
  In a rows'.
Proof.
  rewrite reconciled_find. intros Hrec Hnd Hneq Ha (A1 & A2 & A3 & A4).
  destruct (find (is_cross_reference c) rows) as [x|] eqn:Ex.
  - injection Hrec as <-.
    apply find_some in Ex. destruct Ex as [Hx Hcr].
    apply is_cross_reference_true in Hcr. destruct Hcr as (_ & _ & Hact).
    apply update_where_id_miss; [exact Ha|]. intro E.
    assert (a = x) by (eapply NoDup_id_eq; eassumption). subst. congruence.
  - destruct (find (is_shadow c) rows) as [y|] eqn:Ey.
    + injection Hrec as <-.
      apply find_some in Ey. destruct Ey as [Hy Hs].
      apply is_shadow_true in Hs. destruct Hs as (H1 & H2 & _).
      apply update_where_id_miss; [exact Ha|]. intro E.
      assert (a = y) by (eapply NoDup_id_eq; eassumption). subst.
      apply Hneq. unfold target. congruence.
    + destruct (key_taken _ _); [discriminate|]. injection Hrec as <-.
      apply in_or_app. now left.
Qed.

Lemma reconciled_all_spares (key : list Activity.t -> Z) (cs : list Comment.t)
    (c0 : Comment.t) (a : Activity.t) :
  forall rows rows',
    reconciled_all key cs rows = Some rows' ->
    NoDup (map Activity.id rows) ->
    ~ In (target c0) (map target cs) ->
    In a rows -> carries c0 a ->
    In a rows'.
Proof.
  induction cs as [|c cs IH]; intros rows rows' Hall Hnd Hout Ha Hc; simpl in Hall.
  - now injection Hall as <-.
  - destruct (reconciled key c rows) as [rows1|] eqn:E1; [|discriminate].
    apply (IH rows1 rows' Hall).
    + now apply (reconciled_keys key c rows).
    + intro H. apply Hout. now right.
    + apply (reconciled_spares key c c0 rows rows1); try assumption.
      intro E. apply Hout. left. now symmetry.
    + exact Hc.
Qed.

Lemma reconciled_all_carries (key : list Activity.t -> Z) (cs : list Comment.t) :
  forall rows rows',
    reconciled_all key cs rows = Some rows' ->
    NoDup (map Activity.id rows) ->
    NoDup (map target cs) ->
    forall c, In c cs -> exists a, In a rows' /\ carries c a.
Proof.
  induction cs as [|c1 cs IH]; intros rows rows' Hall Hnd Ht c Hc; [contradiction|].
  simpl in Ht. inversion Ht as [|? ? Hout Ht']; subst.
  simpl in Hall.
  destruct (reconciled key c1 rows) as [rows1|] eqn:E1; [|discriminate].
  pose proof (reconciled_keys key c1 rows rows1 E1 Hnd) as Hnd1.
  destruct Hc as [<- | Hc].
  - destruct (reconciled_carries key c1 rows rows1 E1) as (a & Ha & Hca).
    exists a. split; [|exact Hca].
    now apply (reconciled_all_spares key cs c1 a rows1 rows' Hall).
  - now apply (IH rows1 rows' Hall).
Qed.

(** When the comment rows are on pairwise different items and the keys
    of [directus_activity] are unique, a [down] that resolves loses no
    comment: for every comment row, an entry of [directus_activity]
    carries its collection, item and text with [action = COMMENT]
    afterwards. *)
Theorem down_keeps_every_text (w w' : World) (cs : list Comment.t) :
  NoDup (map Activity.id (directus_activity (db w))) ->
  directus_comments (db w) = Some cs ->
  NoDup (map target cs) ->
  down w = (Ok tt, w') ->
  forall c, In c cs ->
            exists a, In a (directus_activity (db w')) /\ carries c a.
Proof.
  intros Hnd Hcs Ht Hrun c Hc.
  destruct (down_any w (Ok tt) w' Hrun) as [Hdb | (done & rest & Hsplit & Hrest & Hact)].
  - pose proof (down_resolved_drops w w' Hrun) as Hnone.
    rewrite Hdb in Hnone. congruence.
  - rewrite (Hrest eq_refl), app_nil_r, Hcs in Hsplit. injection Hsplit as <-.
    now apply (reconciled_all_carries autoIncrement cs _ _ Hact).
Qed.

End Migration.

(* ================================================================== *)
(** ** The properties on the sample data *)

Ltac distinct_keys :=
  vm_compute; repeat (constructor; [simpl; intuition discriminate|]); constructor.

Ltac engine_ok := intro; reflexivity.

(** The scenario of the specification: entry 5 becomes a reference to
    the new comment row, the entry without comment stays. *)
Example up_scenario :
  db (snd (up sample_uuid no_fault (start scenario_db)))
  = mkDB [plain_row;
          Activity.mk 5 CREATE "directus_comments" "uuid-0" None
            (Some "u1"%string) 1700000005]
      (Some [Comment.mk "uuid-0" "articles" "42" "nice" 1700000005
               (Some "u1"%string)])
      ["articles"%string] ["u1"%string].
Proof. reflexivity. Qed.

(** ... and back: entry 5 is the comment again, the table is gone. *)
Example down_scenario :
  down no_fault sample_key (snd (up sample_uuid no_fault (start scenario_db)))
  = (Ok tt,
     mkWorld
       (mkDB [plain_row; scenario_row] None ["articles"%string] ["u1"%string])
       [EvCreateTable; EvSelectLegacy; EvBegin; EvInsertComment "uuid-0";
        EvUpdateActivity 5; EvCommit; EvSelectComments; EvFindMigrated "uuid-0";
        EvUpdateActivity 5; EvDropTable]
       1).
Proof. reflexivity. Qed.

(** Rows stored in the order 3, 1, 2 are processed in the order 1, 2, 3. *)
Example up_processes_in_id_order :
  updated_ids (trace (snd (up sample_uuid no_fault (start legacy_db)))) = [1; 2; 3]%Z.
Proof. reflexivity. Qed.

(** A source of identifiers that repeats itself stops [up] at the second
    row, by the primary key of [directus_comments]. *)
Example up_identifier_collision :
  fst (up stuck_uuid no_fault (start legacy_db)) = Err UniqueViolation.
Proof. reflexivity. Qed.

Lemma up_down_round_trip_witness :
  exists w1 w2,
    up sample_uuid no_fault (start scenario_db) = (Ok tt, w1) /\
    down no_fault sample_key w1 = (Ok tt, w2) /\
    Forall2 same_comment (directus_activity scenario_db) (directus_activity (db w2)) /\
    directus_activity (db w2)
      = map (fun a => if is_some (Activity.comment a) then as_comment a else a)
          (directus_activity scenario_db) /\
    directus_comments (db w2) = None.
Proof.
  apply (up_down_round_trip sample_uuid no_fault sample_key (start scenario_db)).
  - engine_ok.
  - reflexivity.
  - distinct_keys.
  - apply references_existb_sound. reflexivity.
  - apply distinct_NoDup. reflexivity.
  - intros a c [<- | [<- | []]] Hc Hu; [reflexivity | discriminate].
Defined.

(** The same on a table whose rows all carry a comment. *)
Example up_down_round_trip_legacy :
  db (snd (down no_fault sample_key (snd (up sample_uuid no_fault (start legacy_db)))))
  = mkDB (directus_activity legacy_db) None ["articles"%string] ["u1"%string].
Proof. reflexivity. Qed.

Lemma up_transforms_each_row_witness :
  exists w' cs,
    up sample_uuid no_fault (start scenario_db) = (Ok tt, w') /\
    directus_comments (db w') = Some cs /\
    cs = map comment_of (pairing sample_uuid (start scenario_db)) /\
    List.length cs = List.length (legacy_comments scenario_db) /\
    NoDup (map Comment.id cs) /\
    directus_activity (db w')
      = relink_all (pairing sample_uuid (start scenario_db)) (directus_activity scenario_db) /\
    forall i r text,
      nth_error (directus_activity scenario_db) i = Some r ->
      Activity.comment r = Some text ->
      exists u,
        In (r, u) (pairing sample_uuid (start scenario_db)) /\
        In (Comment.mk u (Activity.collection r) (Activity.item r) text
              (Activity.timestamp r) (Activity.user r)) cs /\
        nth_error (directus_activity (db w')) i
        = Some (Activity.mk (Activity.id r) CREATE "directus_comments" u None
                  (Activity.user r) (Activity.timestamp r)).
Proof.
  apply (up_transforms_each_row sample_uuid no_fault (start scenario_db)).
  - engine_ok.
  - reflexivity.
  - distinct_keys.
  - apply references_existb_sound. reflexivity.
  - apply distinct_NoDup. reflexivity.
Defined.

(** The three branches of [down], on entries that exist. *)
Example reconcile_cross_reference_first :
  db (snd (reconcile no_fault sample_key migrated_comment (start migrated_db)))
  = mkDB [plain_row; scenario_row] (Some [migrated_comment])
      ["articles"%string] ["u1"%string].
Proof. reflexivity. Qed.

Example reconcile_shadow_second :
  directus_activity (db (snd (reconcile no_fault sample_key native_first (start shadowed_db))))
  = [plain_row; overwrite_text native_first scenario_row].
Proof. reflexivity. Qed.

Example reconcile_insert_last :
  directus_activity (db (snd (reconcile no_fault sample_key native_first (start native_one_db))))
  = [plain_row;
     Activity.mk 5 COMMENT "articles" "42" (Some "first"%string) (Some "u1"%string)
       1700000100].
Proof. reflexivity. Qed.

(** The inserted entry takes the key the engine assigns, here one that
    leaves a gap. *)
Example reconcile_insert_ahead :
  directus_activity (db (snd (reconcile no_fault ahead_key native_first (start native_one_db))))
  = [plain_row;
     Activity.mk 6 COMMENT "articles" "42" (Some "first"%string) (Some "u1"%string)
       1700000100].
Proof. reflexivity. Qed.

(** When the key the engine assigns is taken, the insert is rejected by
    the primary key: [down] is rejected, [directus_activity] is as it
    was and the table is not dropped. *)
Example down_key_taken :
  down no_fault stuck_key (start native_one_db)
  = (Err UniqueViolation,
     mkWorld native_one_db
       [EvSelectComments; EvFindMigrated "c1"; EvFindUnmigrated "articles" "42";
        EvInsertActivity]
       0).
Proof. reflexivity. Qed.


Lemma down_drops_after_full_scan_witness :
  fst (down (fault_at 2) sample_key (start migrated_db)) = Err EngineFault /\
  ~ In EvDropTable
      (events_since (start migrated_db) (snd (down (fault_at 2) sample_key (start migrated_db)))) /\
  directus_comments (db (snd (down (fault_at 2) sample_key (start migrated_db))))
  = Some [migrated_comment].
Proof.
  destruct (down_drops_after_full_scan (fault_at 2) sample_key (start migrated_db)
              (fst (down (fault_at 2) sample_key (start migrated_db)))
              (snd (down (fault_at 2) sample_key (start migrated_db))))
    as [_ Hfail].
  - reflexivity.
  - destruct (Hfail [migrated_comment]
                (mkWorld migrated_db [EvSelectComments] 0) EngineFault
                (snd (down (fault_at 2) sample_key (start migrated_db))))
      as (H1 & _ & H3 & H4).
    + reflexivity.
    + reflexivity.
    + split; [exact H1|]. split; [exact H3 | exact H4].
Defined.

Lemma up_partial_progress_witness :
  exists pre r post w1,
    legacy_comments orphan_db = pre ++ r :: post /\
    forEach (migrate sample_uuid no_fault) pre (after_setup (start orphan_db))
      = (Ok tt, w1) /\
    migrate sample_uuid no_fault r w1
      = (Err ForeignKeyViolation, snd (up sample_uuid no_fault (start orphan_db))) /\
    db (snd (up sample_uuid no_fault (start orphan_db))) = db w1 /\
    directus_comments (db (snd (up sample_uuid no_fault (start orphan_db))))
      = Some (map comment_of (combine pre (uuids_from sample_uuid 0 (List.length pre)))) /\
    directus_activity (db (snd (up sample_uuid no_fault (start orphan_db))))
      = fold_left relink_step (combine pre (uuids_from sample_uuid 0 (List.length pre)))
          (directus_activity orphan_db) /\
    trace w1 = [] ++ [EvCreateTable; EvSelectLegacy]
                 ++ concat (map tx_events
                              (combine pre (uuids_from sample_uuid 0 (List.length pre)))).
Proof.
  apply (up_partial_progress sample_uuid no_fault (start orphan_db)
           ForeignKeyViolation (snd (up sample_uuid no_fault (start orphan_db)))).
  - reflexivity.
  - reflexivity.
  - reflexivity.
  - reflexivity.
Defined.

(** What is left after the failure on the second row: the first comment
    is migrated and stays so. *)
Example up_partial_progress_state :
  db (snd (up sample_uuid no_fault (start orphan_db)))
  = mkDB [relink "uuid-0" (legacy_row 1 "first"); orphan_row]
      (Some [comment_of (legacy_row 1 "first", "uuid-0"%string)])
      ["articles"%string] ["u1"%string].
Proof. reflexivity. Qed.

(** [down] after an [up] that was rejected on its second row: the first
    row is a comment again, the second was never touched. *)
Example up_rejected_then_down_orphan :
  db (snd (down no_fault sample_key (snd (up sample_uuid no_fault (start orphan_db)))))
  = mkDB [legacy_row 1 "first"; orphan_row] None ["articles"%string] ["u1"%string].
Proof. reflexivity. Qed.

(** On [spread_db]: the comment on item 41 is reconciled first, then an
    entry is inserted for the first comment on item 42. *)
Lemma down_fabricates_exactly_one_witness :
  exists v v',
    forEach (reconcile no_fault sample_key) [native_other]
      (mkWorld spread_db [EvSelectComments] 0) = (Ok tt, v) /\
    reconcile no_fault sample_key native_first v = (Ok tt, v') /\
    events_since v v'
      = [EvFindMigrated "c1"; EvFindUnmigrated "articles" "42"; EvInsertActivity] /\
    ~ In (sample_key (directus_activity (db v)))
         (map Activity.id (directus_activity (db v))) /\
    directus_activity (db v')
      = directus_activity (db v)
          ++ [Activity.mk (sample_key (directus_activity (db v))) COMMENT
                "articles" "42" (Some "first"%string) (Some "u1"%string)
                1700000100] /\
    down no_fault sample_key (start spread_db)
    = (forEach (reconcile no_fault sample_key) [native_second] ;;
       dropTable_directus_comments no_fault)%mig v'.
Proof.
  apply (down_fabricates_exactly_one no_fault sample_key (start spread_db)
           [native_other] [native_second] native_first).
  - engine_ok.
  - apply sample_key_fresh.
  - reflexivity.
  - intros r [<- | []] (H & _). discriminate.
  - intros r [<- | []] (_ & _ & H). discriminate.
  - intros [H | []]. discriminate.
Defined.

(** The table [down] leaves on [spread_db]: one entry inserted for the
    comment on item 41, one for the first comment on item 42, which the
    second comment on item 42 then overwrites. *)
Example down_on_spread_db :
  directus_activity (db (snd (down no_fault sample_key (start spread_db))))
  = [plain_row;
     Activity.mk 5 COMMENT "articles" "41" (Some "zeroth"%string) (Some "u2"%string)
       1700000050;
     Activity.mk 6 COMMENT "articles" "42" (Some "second"%string) (Some "u1"%string)
       1700000100].
Proof. reflexivity. Qed.

(** C6 as stated fails: [native_db] holds two comment rows; for neither
    of them does [directus_activity] hold a cross-reference entry or an
    entry of [action = COMMENT] on their item when [down] starts.  [down]
    resolves, yet it has sent one insert only, [directus_activity] has
    gained one row, not two, and no row was inserted for the second
    comment: the entry inserted for the first one matched it as an entry
    of [action = COMMENT] on the same item, and had its text overwritten. *)
Lemma down_fabricates_none_for_second_comment :
  In native_second (comment_rows native_db) /\
  existsb (is_cross_reference native_second) (directus_activity native_db) = false /\
  existsb (is_shadow native_second) (directus_activity native_db) = false /\
  exists w',
    down no_fault sample_key (start native_db) = (Ok tt, w') /\
    events_since (start native_db) w'
      = [EvSelectComments;
         EvFindMigrated "c1"; EvFindUnmigrated "articles" "42"; EvInsertActivity;
         EvFindMigrated "c2"; EvFindUnmigrated "articles" "42"; EvUpdateActivity 1;
         EvDropTable] /\
    directus_activity (db w')
      = [Activity.mk 1 COMMENT "articles" "42" (Some "second"%string)
           (Some "u1"%string) 1700000100] /\
    (forall k, ~ In (fabricate k native_second) (directus_activity (db w'))).
Proof.
  split; [right; now left|]. split; [reflexivity|]. split; [reflexivity|].
  eexists. split; [reflexivity|]. split; [reflexivity|]. split; [reflexivity|].
  intros k [H | []]. discriminate.
Defined.

(** Rows stored in the order 3, 1, 2 and the same rows stored in the
    order 1, 2, 3: both runs process them in the order 1, 2, 3 and end
    in the same state. *)
Lemma up_order_independent_witness :
  map Activity.id (directus_activity legacy_db) = [3; 1; 2]%Z /\
  map Activity.id (directus_activity legacy_db_sorted) = [1; 2; 3]%Z /\
  (forall r, In r (legacy_comments legacy_db) <->
             In r [legacy_row 3 "third"; legacy_row 1 "first"; legacy_row 2 "second"]
             /\ Activity.comment r <> None) /\
  map Activity.id (legacy_comments legacy_db) = [1; 2; 3]%Z /\
  legacy_comments legacy_db_sorted = legacy_comments legacy_db /\
  fst (up sample_uuid no_fault (start legacy_db_sorted))
  = fst (up sample_uuid no_fault (start legacy_db)) /\
  same_state same_tables
    (snd (up sample_uuid no_fault (start legacy_db)))
    (snd (up sample_uuid no_fault (start legacy_db_sorted))) /\
  updated_ids (events_since (start legacy_db)
                 (snd (up sample_uuid no_fault (start legacy_db))))
  = [1; 2; 3]%Z.
Proof.
  destruct (up_order_independent sample_uuid no_fault (start legacy_db)
              (start legacy_db_sorted))
    as (Hin & _ & _ & Hsel & Hres & Hstate & Hupd).
  - repeat split.
    simpl. eapply perm_trans; [apply perm_swap | apply perm_skip, perm_swap].
  - distinct_keys.
  - reflexivity.
  - reflexivity.
  - split; [reflexivity|]. split; [reflexivity|]. split; [exact Hin|].
    split; [reflexivity|]. split; [exact Hsel|]. split; [exact Hres|].
    split; [exact Hstate|]. exact (Hupd eq_refl).
Defined.

Lemma up_batches_of_250_witness :
  exists b1 b2 b3 w',
    legacy_comments big_db = b1 ++ b2 ++ b3 /\
    List.length b1 = 100 /\ List.length b2 = 100 /\ List.length b3 = 50 /\
    (forall observe : list Activity.t -> M unit,
       up_with sample_uuid no_fault
         (fun arr size callback =>
            processChunk arr size (fun chunk => observe chunk ;; callback chunk))
         (start big_db)
       = (createTable_directus_comments no_fault ;;
          select_legacy_comments no_fault ;;
          forEach (fun chunk => observe chunk ;;
                                forEach (migrate sample_uuid no_fault) chunk)
            [b1; b2; b3]) (start big_db)) /\
    up sample_uuid no_fault (start big_db) = (Ok tt, w') /\
    events_since (start big_db) w'
      = [EvCreateTable; EvSelectLegacy]
          ++ concat (map tx_events (pairing sample_uuid (start big_db))) /\
    List.length (pairing sample_uuid (start big_db)) = 250 /\
    forall pre r post,
      legacy_comments big_db = pre ++ r :: post ->
      exists w1 w2,
        forEach (migrate sample_uuid no_fault) pre (after_setup (start big_db))
          = (Ok tt, w1) /\
        migrate sample_uuid no_fault r w1 = (Ok tt, w2) /\
        forEach (migrate sample_uuid no_fault) post w2 = (Ok tt, w') /\
        events_since w1 w2 = tx_events (r, sample_uuid (drawn w1)) /\
        directus_comments (db w2)
          = Some (map comment_of
                    (combine (pre ++ [r])
                       (uuids_from sample_uuid 0 (List.length (pre ++ [r]))))) /\
        directus_activity (db w2)
          = fold_left relink_step
              (combine (pre ++ [r])
                 (uuids_from sample_uuid 0 (List.length (pre ++ [r]))))
              (directus_activity big_db).
Proof.
  apply (up_batches_of_250 sample_uuid no_fault (start big_db)).
  - engine_ok.
  - reflexivity.
  - apply references_existb_sound. vm_compute. reflexivity.
  - apply distinct_NoDup. vm_compute. reflexivity.
  - vm_compute. reflexivity.
Defined.

Lemma up_excludes_rows_without_comment_witness :
  ~ In plain_row (legacy_comments scenario_db) /\
  nth_error (directus_activity (db (snd (up sample_uuid no_fault (start scenario_db))))) 0
  = Some plain_row /\
  ~ In (EvUpdateActivity 4)
      (events_since (start scenario_db) (snd (up sample_uuid no_fault (start scenario_db)))) /\
  (forall c,
     In c (comment_rows (db (snd (up sample_uuid no_fault (start scenario_db))))) ->
     In c (comment_rows scenario_db) \/
     exists x u, In x (legacy_comments scenario_db) /\ x <> plain_row /\
                 c = comment_of (x, u)).
Proof.
  apply (up_excludes_rows_without_comment sample_uuid no_fault (start scenario_db)
           0 plain_row).
  - distinct_keys.
  - reflexivity.
  - reflexivity.
Defined.

(* ================================================================== *)
(** ** The release script *)

Section ReleaseScript.

Import Release.

Variable E : Env.

Lemma each_inv {S A : Type} (body : S -> A -> option Error * S) (I : S -> Prop) :
  (forall st x, I st -> I (snd (body st x))) ->
  forall xs st, I st -> I (snd (each body xs st)).
Proof.
  intros Hbody xs. induction xs as [|x xs IH]; intros st H; simpl; [exact H|].
  specialize (Hbody st x H). destruct (body st x) as [[e|] st']; simpl in *; auto.
Qed.

Lemma unlink_absent (path : string) (fs : list string) :
  exists_file path fs = false -> unlink path fs = fs.
Proof.
  unfold exists_file, unlink. induction fs as [|f fs IH]; simpl; intro H; [reflexivity|].
  apply orb_false_iff in H. destruct H as [H1 H2].
  rewrite String.eqb_sym, H1. simpl. f_equal. now apply IH.
Qed.

Lemma record_version_files (st : Loop) (p : Project) (n : string) :
  l_files (snd (record_version E st p n)) = l_files st.
Proof.
  unfold record_version.
  destruct (version (manifest p)) as [v|]; [|reflexivity].
  destruct (truthy (Some v)); [|reflexivity].
  destruct (private (manifest p)); [|reflexivity].
  destruct (write_fails E _); reflexivity.
Qed.

(** The paths on disk after the body of the first loop: the changelog
    of a named package is gone when the body got to its end, nothing is
    gone when it threw. *)
Lemma collect_files (st : Loop) (p : Project) :
  l_files (snd (collect E st p)) =
    match fst (collect E st p) with
    | None =>
        if truthy (name (manifest p))
        then unlink (join E (dir p) "CHANGELOG.md") (l_files st)
        else l_files st
    | Some _ => l_files st
    end.
Proof.
  unfold collect. destruct (name (manifest p)) as [n|] eqn:En; [|reflexivity].
  destruct (truthy (Some n)); [|reflexivity].
  destruct (exists_file _ (l_files st)) eqn:Ex.
  - pose proof (record_version_files st p n) as Hrec.
    destruct (record_version E st p n) as [[e|] st1]; simpl in *; [exact Hrec|].
    destruct (unlink_fails E _); simpl; [exact Hrec | now rewrite Hrec].
  - simpl. symmetry. now apply unlink_absent.
Qed.

Lemma filter_twice {A} (f g : A -> bool) (l : list A) :
  filter g (filter f l) = filter (fun x => f x && g x) l.
Proof.
  induction l as [|x l IH]; simpl; [reflexivity|].
  destruct (f x); simpl; [|exact IH]. destruct (g x); [now rewrite IH | exact IH].
Qed.

Lemma filter_all {A} (l : list A) : filter (fun _ => true) l = l.
Proof. induction l as [|x l IH]; simpl; [reflexivity | now rewrite IH]. Qed.

(** The first loop deletes the changelogs of the named packages it gets
    through, in order, and nothing else. *)
Lemma collect_all_files (ps : list Project) :
  forall st,
    exists k,
      l_files (snd (each (collect E) ps st))
      = filter (fun f => negb (existsb (String.eqb f)
                                 (changelog_paths E (firstn k ps))))
          (l_files st) /\
      (fst (each (collect E) ps st) = None -> firstn k ps = ps).
Proof.
  induction ps as [|p ps IH]; intro st.
  - exists 0. simpl. split; [symmetry; apply filter_all | reflexivity].
  - simpl. pose proof (collect_files st p) as Hstep.
    destruct (collect E st p) as [[e|] st1] eqn:Hc; simpl in Hstep.
    + exists 0. simpl. split; [|discriminate].
      rewrite Hstep. symmetry. apply filter_all.
    + destruct (IH st1) as (k & Hk & Hall). exists (S k). split.
      * rewrite Hk, Hstep. unfold changelog_paths. simpl.
        destruct (truthy (name (manifest p))); [|reflexivity].
        unfold unlink. rewrite filter_twice. apply filter_ext. intro f. simpl.
        now rewrite negb_orb.
      * intro Hnone. simpl. f_equal. now apply Hall.
Qed.

Lemma collect_throws (st : Loop) (p : Project) (e : Error) :
  fst (collect E st p) = Some e -> e = WriteFailed \/ e = UnlinkFailed.
Proof.
  unfold collect, record_version.
  destruct (name (manifest p)) as [n|]; [|discriminate].
  destruct (truthy (Some n)); [|discriminate].
  destruct (exists_file _ (l_files st)); [|discriminate].
  destruct (version (manifest p)) as [v|].
  - destruct (truthy (Some v)).
    + destruct (private (manifest p)).
      * destruct (write_fails E _); simpl.
        -- intro H. injection H as <-. now left.
        -- destruct (unlink_fails E _); simpl; [|discriminate].
           intro H. injection H as <-. now right.
      * destruct (unlink_fails E _); simpl; [|discriminate].
        intro H. injection H as <-. now right.
    + destruct (unlink_fails E _); simpl; [|discriminate].
      intro H. injection H as <-. now right.
  - destruct (unlink_fails E _); simpl; [|discriminate].
    intro H. injection H as <-. now right.
Qed.

Lemma each_throws {S A : Type} (body : S -> A -> option Error * S) (P : Error -> Prop) :
  (forall st x e, fst (body st x) = Some e -> P e) ->
  forall xs st e, fst (each body xs st) = Some e -> P e.
Proof.
  intros Hbody xs. induction xs as [|x xs IH]; intros st e; simpl; [discriminate|].
  specialize (Hbody st x). destruct (body st x) as [[e1|] st1]; simpl in *.
  - intro H. now apply Hbody.
  - apply IH.
Qed.

Lemma bump_throws (st : Bump) (n v : string) (wp : Project) (e : Error) :
  fst (bump E st n v wp) = Some e -> e = WriteFailed.
Proof.
  unfold bump. destruct (write_fails E _); simpl; [|discriminate].
  intro H. now injection H as <-.
Qed.

Lemma set_main_throws (info : VersionInfo) (st : Bump) (e : Error) :
  fst (set_main E info st) = Some e -> e = WriteFailed.
Proof.
  unfold set_main. destruct (truthy _); [|discriminate].
  destruct (find _ _); [apply bump_throws | discriminate].
Qed.

Lemma link_step_throws (info : VersionInfo) (st : Bump) (pair : string * string)
    (e : Error) :
  fst (link_step E info st pair) = Some e -> e = WriteFailed.
Proof.
  unfold link_step. destruct pair as [trigger target].
  destruct (_ && _); [|discriminate].
  destruct (find _ _) as [wp|]; [|discriminate].
  destruct (version (manifest wp)) as [v|]; [|discriminate].
  destruct (truthy (Some v)); [|discriminate].
  destruct (semver_inc E v _ _) as [bumped|]; [|discriminate].
  destruct (truthy (Some bumped)); [apply bump_throws | discriminate].
Qed.

(** The paths on disk when [processPackages] is over are those the
    first loop left. *)
Lemma processPackages_files (w : World) :
  files (snd (processPackages E w))
  = if find_fails E then files w else l_files (snd (collect_all E w)).
Proof.
  unfold processPackages. destruct (find_fails E); [reflexivity|].
  destruct (collect_all E w) as [[e|] st]; [reflexivity|]. simpl.
  destruct (getVersionInfo E w (l_versions st)) as [e|info]; [reflexivity|].
  destruct (set_main E info _) as [[e|] st1]; [reflexivity|].
  destruct (each (link_step E info) _ st1) as [[e|] st2]; reflexivity.
Qed.

(** A run that is not stopped by the file system has got through the
    first loop. *)
Lemma processPackages_collected (w : World) :
  io_failure (fst (processPackages E w)) = false ->
  find_fails E = false /\ fst (collect_all E w) = None.
Proof.
  unfold processPackages. destruct (find_fails E); [discriminate|].
  intro H. split; [reflexivity|].
  destruct (collect_all E w) as [[e|] st] eqn:Hc; [|reflexivity].
  simpl in H. exfalso.
  assert (He : e = WriteFailed \/ e = UnlinkFailed).
  { apply (each_throws (collect E) _ collect_throws (workspacePackages w)
             (mkLoop [] (files w) (written w) [])).
    unfold collect_all in Hc. now rewrite Hc. }
  destruct He as [-> | ->]; discriminate.
Qed.

(** Whatever becomes of the run, [processPackages] deletes the
    changelogs of the named packages its first loop gets through, in
    the order of the workspace, and nothing else.  Unless a call to the
    file system is rejected -- that is, when [processPackages] returns,
    or throws one of the errors of [getVersionInfo] -- the loop gets
    through every package: the changelog of every named workspace
    package is deleted, before the main version is looked at. *)
Theorem processPackages_removes_changelogs (w : World) :
  (exists k,
     files (snd (processPackages E w))
     = filter (fun f => negb (existsb (String.eqb f)
                                (changelog_paths E (firstn k (workspacePackages w)))))
         (files w)) /\
  (io_failure (fst (processPackages E w)) = false ->
   files (snd (processPackages E w))
   = filter (fun f => negb (existsb (String.eqb f)
                              (changelog_paths E (workspacePackages w))))
       (files w) /\
   forall p, In p (workspacePackages w) ->
             truthy (name (manifest p)) = true ->
             ~ In (join E (dir p) "CHANGELOG.md") (files (snd (processPackages E w)))).
Proof.
  destruct (collect_all_files (workspacePackages w)
              (mkLoop [] (files w) (written w) [])) as (k & Hk & Hall).
  fold (collect_all E w) in Hk, Hall. simpl in Hk.
  split.
  - rewrite processPackages_files. destruct (find_fails E).
    + exists 0. simpl. symmetry. apply filter_all.
    + exists k. exact Hk.
  - intro Hio. destruct (processPackages_collected w Hio) as [Hfind Hnone].
    rewrite processPackages_files, Hfind, Hk, (Hall Hnone).
    split; [reflexivity|].
    intros p Hp Hn Hin. apply filter_In in Hin. destruct Hin as [_ Hin].
    apply negb_true_iff in Hin.
    assert (Hex : existsb (String.eqb (join E (dir p) "CHANGELOG.md"))
                    (changelog_paths E (workspacePackages w)) = true).
    { apply existsb_exists. exists (join E (dir p) "CHANGELOG.md").
      split; [|apply String.eqb_refl].
      unfold changelog_paths.
      apply (in_map (fun q => join E (dir q) "CHANGELOG.md")).
      apply filter_In. now split. }
    congruence.
Qed.

Lemma map_get_set (k k' v : string) (m : list (string * string)) :
  map_get k (map_set k' v m) = if String.eqb k' k then Some v else map_get k m.
Proof.
  induction m as [|[a b] m IH]; simpl.
  - destruct (String.eqb k' k); reflexivity.
  - destruct (String.eqb a k') eqn:Eak; simpl.
    + apply String.eqb_eq in Eak. subst a.
      destruct (String.eqb k' k); reflexivity.
    + destruct (String.eqb a k) eqn:Ea.
      * apply String.eqb_eq in Ea. subst a.
        rewrite String.eqb_sym, Eak. reflexivity.
      * exact IH.
Qed.

Lemma unlink_subset (path f : string) (fs : list string) :
  In f (unlink path fs) -> In f fs.
Proof. unfold unlink. intro H. apply filter_In in H. tauto. Qed.

Lemma exists_file_In (path : string) (fs : list string) :
  exists_file path fs = true -> In path fs.
Proof.
  unfold exists_file. intro H. apply existsb_exists in H.
  destruct H as (f & Hf & Heq). apply String.eqb_eq in Heq. now subst.
Qed.

Lemma collect_files_subset (st : Loop) (p : Project) (f : string) :
  In f (l_files (snd (collect E st p))) -> In f (l_files st).
Proof.
  rewrite collect_files. destruct (fst (collect E st p)); [tauto|].
  destruct (truthy (name (manifest p))); [apply unlink_subset | tauto].
Qed.

(** Where a version recorded by the body of the first loop comes
    from. *)
Lemma collect_versions (st : Loop) (p : Project) (n v : string) :
  map_get n (l_versions (snd (collect E st p))) = Some v ->
  map_get n (l_versions st) = Some v \/
  (name (manifest p) = Some n /\
   truthy (version (manifest p)) = true /\
   In (join E (dir p) "CHANGELOG.md") (l_files st) /\
   recorded_version p = Some v).
Proof.
  unfold collect, record_version.
  destruct (name (manifest p)) as [m|] eqn:En; [|now left].
  destruct (truthy (Some m)); [|now left].
  destruct (exists_file _ (l_files st)) eqn:Ex; [|now left].
  apply exists_file_In in Ex.
  assert (Hset : forall x,
            recorded_version p = Some x ->
            truthy (version (manifest p)) = true ->
            map_get n (map_set m x (l_versions st)) = Some v ->
            map_get n (l_versions st) = Some v \/
            (Some m = Some n /\
             truthy (version (manifest p)) = true /\
             In (join E (dir p) "CHANGELOG.md") (l_files st) /\
             recorded_version p = Some v)).
  { intros x Hx Ht Hget. rewrite map_get_set in Hget.
    destruct (String.eqb m n) eqn:Em; [|now left].
    apply String.eqb_eq in Em. subst m. right. repeat split; try assumption.
    congruence. }
  destruct (version (manifest p)) as [pv|] eqn:Ev.
  - destruct (truthy (Some pv)) eqn:Et.
    + destruct (private (manifest p)) eqn:Ep.
      * destruct (write_fails E _); simpl; [now left|].
        destruct (unlink_fails E _); simpl;
          apply Hset; try reflexivity; unfold recorded_version; now rewrite Ep.
      * destruct (unlink_fails E _); simpl;
          apply Hset; try reflexivity; unfold recorded_version; now rewrite Ep.
    + destruct (unlink_fails E _); simpl; now left.
  - destruct (unlink_fails E _); simpl; now left.
Qed.

(** Where a version recorded by the first loop comes from: a named
    package whose changelog was there and whose version is set. *)
Lemma collect_all_versions (F : list string) (n v : string) (ps : list Project) :
  forall st,
    (forall f, In f (l_files st) -> In f F) ->
    map_get n (l_versions (snd (each (collect E) ps st))) = Some v ->
    map_get n (l_versions st) = Some v \/
    exists p,
      In p ps /\ name (manifest p) = Some n /\
      truthy (version (manifest p)) = true /\
      In (join E (dir p) "CHANGELOG.md") F /\
      recorded_version p = Some v.
Proof.
  induction ps as [|p ps IH]; intros st Hsub Hget; simpl in Hget; [now left|].
  assert (Hsub' : forall f, In f (l_files (snd (collect E st p))) -> In f F).
  { intros f Hf. apply Hsub. now apply collect_files_subset in Hf. }
  assert (Hhere : map_get n (l_versions (snd (collect E st p))) = Some v ->
                  map_get n (l_versions st) = Some v \/
                  exists q, In q (p :: ps) /\ name (manifest q) = Some n /\
                            truthy (version (manifest q)) = true /\
                            In (join E (dir q) "CHANGELOG.md") F /\
                            recorded_version q = Some v).
  { intro H. destruct (collect_versions st p n v H) as [Hst | (H1 & H2 & H3 & H4)];
      [now left|].
    right. exists p. split; [now left|]. repeat split; auto. }
  destruct (collect E st p) as [[e|] st1]; simpl in *; [now apply Hhere|].
  destruct (IH st1 Hsub' Hget) as [Hst | (q & Hq & H)].
  - now apply Hhere.
  - right. exists q. split; [now right | exact H].
Qed.

(** What [processPackages] has done when it returns. *)
Lemma processPackages_returns (w w' : World) (out : Output) :
  processPackages E w = (inr out, w') ->
  exists st info st1 st2,
    collect_all E w = (None, st) /\
    getVersionInfo E w (l_versions st) = inr info /\
    set_main E info (mkBump (seen st) (l_written st) (l_versions st)) = (None, st1) /\
    each (link_step E info) (linkedPackages E) st1 = (None, st2) /\
    out = mkOutput (vi_mainVersion info) (vi_isPrerelease info) (vi_prereleaseId info)
            (sort_by_external_order E
               (filter (fun nv => negb (left_out E (fst nv))) (b_versions st2))) /\
    w' = mkWorld (b_packages st2) (l_files st) (b_written st2)
           (DIRECTUS_VERSION w) (pre_json w).
Proof.
  unfold processPackages. destruct (find_fails E); [discriminate|].
  destruct (collect_all E w) as [[e|] st]; [discriminate|].
  destruct (getVersionInfo E w (l_versions st)) as [e|info] eqn:Hinfo; [discriminate|].
  destruct (set_main E info _) as [[e|] st1] eqn:Hmain; [discriminate|].
  destruct (each (link_step E info) _ st1) as [[e|] st2] eqn:Hlink; [discriminate|].
  intro H. injection H as <- <-.
  exists st, info, st1, st2. repeat split; assumption.
Qed.

(** Without [DIRECTUS_VERSION], [processPackages] returns only when the
    main package was bumped: a workspace package of that name had its
    changelog and a version, and the main version returned is that
    version as [semver] writes it (["0.0.0"] when the package is
    private).  A prerelease result means [.changeset/pre.json] holds
    the same tag as the version, and that tag is the [prereleaseId]
    returned. *)
Theorem processPackages_main_version (w : World) (out : Output) :
  DIRECTUS_VERSION w = None ->
  fst (processPackages E w) = inr out ->
  exists p v sv,
    In p (workspacePackages w) /\
    name (manifest p) = Some (mainPackage E) /\
    truthy (version (manifest p)) = true /\
    In (join E (dir p) "CHANGELOG.md") (files w) /\
    recorded_version p = Some v /\
    semver_parse E v = Some sv /\
    mainVersion out = version_of sv /\
    match prerelease_of sv with
    | [] => isPrerelease out = false /\ prereleaseId out = None
    | first :: _ =>
        exists tag,
          first = PreStr tag /\ pre_json w = Some (Some tag) /\
          isPrerelease out = true /\ prereleaseId out = Some tag
    end.
Proof.
  intros Henv Hrun.
  destruct (processPackages E w) as [r w'] eqn:Hp. simpl in Hrun. subst r.
  destruct (processPackages_returns w w' out Hp)
    as (st & info & st1 & st2 & Hc & Hinfo & _ & _ & -> & _).
  simpl.
  unfold getVersionInfo in Hinfo. rewrite Henv in Hinfo.
  destruct (map_get (mainPackage E) (l_versions st)) as [v|] eqn:Hget;
    [|discriminate].
  destruct (semver_parse E v) as [sv|] eqn:Hsv; [|discriminate].
  assert (Hget' : map_get (mainPackage E)
                    (l_versions (snd (each (collect E) (workspacePackages w)
                                        (mkLoop [] (files w) (written w) []))))
                  = Some v).
  { unfold collect_all in Hc. now rewrite Hc. }
  destruct (collect_all_versions (files w) _ _ _
              (mkLoop [] (files w) (written w) []) (fun f H => H) Hget')
    as [Hnil | (p & Hp' & Hn & Ht & Hf & Hr)]; [discriminate|].
  exists p, v, sv. repeat (split; [assumption|]).
  destruct (prerelease_of sv) as [|first rest].
  - injection Hinfo as <-. simpl. repeat split.
  - destruct (pre_json w) as [tag|]; [|discriminate].
    destruct first as [s|k]; [|discriminate].
    destruct tag as [t|]; [|discriminate].
    destruct (String.eqb s t) eqn:Est; [|discriminate].
    apply String.eqb_eq in Est. subst t.
    injection Hinfo as <-. simpl. split; [reflexivity|].
    exists s. repeat split.
Qed.

Lemma map_set_keys (k x a : string) (m : list (string * string)) :
  In a (map fst (map_set k x m)) -> a = k \/ In a (map fst m).
Proof.
  induction m as [|[b c] m IH]; simpl.
  - intros [<- | []]. now left.
  - destruct (String.eqb b k) eqn:Eb; simpl.
    + apply String.eqb_eq in Eb. subst b. intros [<- | H]; [now left | right; now right].
    + intros [<- | H]; [right; now left|]. destruct (IH H); [now left | right; now right].
Qed.

Lemma map_set_NoDup (k x : string) (m : list (string * string)) :
  NoDup (map fst m) -> NoDup (map fst (map_set k x m)).
Proof.
  induction m as [|[b c] m IH]; simpl; intro H.
  - constructor; [intros [] | constructor].
  - inversion H as [|? ? Hb Hm]; subst.
    destruct (String.eqb b k) eqn:Eb; simpl.
    + apply String.eqb_eq in Eb. subst b. now constructor.
    + constructor; [|now apply IH].
      intro Hin. apply map_set_keys in Hin. destruct Hin as [-> | Hin]; [|contradiction].
      rewrite String.eqb_refl in Eb. discriminate.
Qed.

Lemma map_set_In (k x n v : string) (m : list (string * string)) :
  NoDup (map fst m) ->
  In (n, v) (map_set k x m) ->
  (n = k /\ v = x) \/ (In (n, v) m /\ n <> k).
Proof.
  induction m as [|[b c] m IH]; simpl; intros Hnd Hin.
  - destruct Hin as [Heq | []]. injection Heq as <- <-. now left.
  - inversion Hnd as [|? ? Hb Hm]; subst.
    destruct (String.eqb b k) eqn:Eb; simpl in Hin.
    + apply String.eqb_eq in Eb. subst b.
      destruct Hin as [Heq | Hin]; [injection Heq as <- <-; now left|].
      right. split; [now right|]. intros ->. apply Hb.
      change k with (fst (k, v)). now apply in_map.
    + destruct Hin as [Heq | Hin].
      * injection Heq as <- <-. right. split; [now left|].
        intros ->. rewrite String.eqb_refl in Eb. discriminate.
      * destruct (IH Hm Hin) as [H | [H1 H2]]; [now left|].
        right. split; [now right | exact H2].
Qed.

Lemma named_name (k : string) (p : Project) :
  named k p = true -> name (manifest p) = Some k.
Proof.
  unfold named. destruct (name (manifest p)) as [s|]; [|discriminate].
  intro H. apply String.eqb_eq in H. now subst.
Qed.

Lemma set_version_of_hit (k v : string) (ps : list Project) (wp : Project) :
  find (named k) ps = Some wp -> In (with_version v wp) (set_version_of k v ps).
Proof.
  induction ps as [|p ps IH]; simpl; [discriminate|].
  destruct (named k p) eqn:En.
  - intro H. injection H as <-. now left.
  - intro H. right. now apply IH.
Qed.

Lemma set_version_of_miss (k v : string) (ps : list Project) (p : Project) :
  In p ps -> named k p = false -> In p (set_version_of k v ps).
Proof.
  induction ps as [|q ps IH]; simpl; [contradiction|].
  intros [-> | Hin] Hn.
  - rewrite Hn. now left.
  - destruct (named k q); right; [exact Hin | now apply IH].
Qed.

(** Setting the version of the package of a name, in its manifest and
    in the map, keeps the map backed by the manifests. *)
Lemma backed_set (k v : string) (ps : list Project) (wp : Project)
    (m : list (string * string)) :
  NoDup (map fst m) -> backed ps m ->
  find (named k) ps = Some wp ->
  backed (set_version_of k v ps) (map_set k v m).
Proof.
  intros Hnd Hb Hfind n x Hin.
  destruct (map_set_In _ _ _ _ _ Hnd Hin) as [[-> ->] | [Hold Hneq]].
  - exists (with_version v wp). split; [now apply set_version_of_hit|].
    apply find_some in Hfind. destruct Hfind as [_ Hn].
    apply named_name in Hn. simpl. now split.
  - destruct (Hb _ _ Hold) as (p & Hp & Hn & Hv).
    exists p. split; [|now split].
    apply set_version_of_miss; [exact Hp|].
    unfold named. rewrite Hn. apply String.eqb_neq. exact Hneq.
Qed.

Lemma collect_backed (st : Loop) (p : Project) :
  fst (collect E st p) = None ->
  NoDup (map fst (l_versions st)) /\ backed (seen st) (l_versions st) ->
  NoDup (map fst (l_versions (snd (collect E st p)))) /\
  backed (seen (snd (collect E st p))) (l_versions (snd (collect E st p))).
Proof.
  intros Hok [Hnd Hb]. revert Hok.
  assert (Hkeep : forall q, backed (seen st ++ [q]) (l_versions st)).
  { intros q n v Hin. destruct (Hb _ _ Hin) as (x & Hx & H).
    exists x. split; [apply in_or_app; now left | exact H]. }
  assert (Hset : forall q n v,
             name (manifest q) = Some n -> version (manifest q) = Some v ->
             backed (seen st ++ [q]) (map_set n v (l_versions st))).
  { intros q n v Hn Hv a b Hin.
    destruct (map_set_In _ _ _ _ _ Hnd Hin) as [[-> ->] | [Hold _]].
    - exists q. split; [apply in_or_app; right; now left | now split].
    - now apply Hkeep. }
  unfold collect, record_version.
  destruct (name (manifest p)) as [n|] eqn:En; [|split; [exact Hnd | apply Hkeep]].
  destruct (truthy (Some n)); [|split; [exact Hnd | apply Hkeep]].
  destruct (exists_file _ (l_files st)); [|split; [exact Hnd | apply Hkeep]].
  destruct (version (manifest p)) as [v|] eqn:Ev.
  - destruct (truthy (Some v)).
    + destruct (private (manifest p)).
      * destruct (write_fails E _); simpl; [discriminate|].
        destruct (unlink_fails E _); simpl; [discriminate|]. intros _.
        split; [now apply map_set_NoDup|]. apply Hset; [exact En | reflexivity].
      * destruct (unlink_fails E _); simpl; [discriminate|]. intros _.
        split; [now apply map_set_NoDup|]. now apply Hset.
    + destruct (unlink_fails E _); simpl; [discriminate|]. intros _.
      split; [exact Hnd | apply Hkeep].
  - destruct (unlink_fails E _); simpl; [discriminate|]. intros _.
    split; [exact Hnd | apply Hkeep].
Qed.

Lemma collect_all_backed (ps : list Project) :
  forall st st',
    each (collect E) ps st = (None, st') ->
    NoDup (map fst (l_versions st)) /\ backed (seen st) (l_versions st) ->
    NoDup (map fst (l_versions st')) /\ backed (seen st') (l_versions st').
Proof.
  induction ps as [|p ps IH]; intros st st' Hrun H; simpl in Hrun.
  - now injection Hrun as <-.
  - pose proof (collect_backed st p) as Hstep.
    destruct (collect E st p) as [[e|] st1]; [discriminate|].
    apply (IH st1 st' Hrun). now apply Hstep.
Qed.

Lemma bump_backed (st : Bump) (n v : string) (wp : Project) :
  find (named n) (b_packages st) = Some wp ->
  fst (bump E st n v wp) = None ->
  NoDup (map fst (b_versions st)) /\ backed (b_packages st) (b_versions st) ->
  NoDup (map fst (b_versions (snd (bump E st n v wp)))) /\
  backed (b_packages (snd (bump E st n v wp))) (b_versions (snd (bump E st n v wp))).
Proof.
  intros Hf Hok [Hnd Hb]. revert Hok. unfold bump.
  destruct (write_fails E _); simpl; [discriminate|]. intros _.
  split; [now apply map_set_NoDup | now apply backed_set with wp].
Qed.

Lemma set_main_backed (info : VersionInfo) (st : Bump) :
  fst (set_main E info st) = None ->
  NoDup (map fst (b_versions st)) /\ backed (b_packages st) (b_versions st) ->
  NoDup (map fst (b_versions (snd (set_main E info st)))) /\
  backed (b_packages (snd (set_main E info st))) (b_versions (snd (set_main E info st))).
Proof.
  unfold set_main.
  destruct (truthy (vi_manualMainVersion info)); [|intros _ H; exact H].
  destruct (find (named (mainPackage E)) (b_packages st)) as [wp|] eqn:Hf;
    [|intros _ H; exact H].
  now apply bump_backed.
Qed.

Lemma link_step_backed (info : VersionInfo) (st : Bump) (pair : string * string) :
  fst (link_step E info st pair) = None ->
  NoDup (map fst (b_versions st)) /\ backed (b_packages st) (b_versions st) ->
  NoDup (map fst (b_versions (snd (link_step E info st pair)))) /\
  backed (b_packages (snd (link_step E info st pair)))
    (b_versions (snd (link_step E info st pair))).
Proof.
  unfold link_step. destruct pair as [trigger target].
  destruct (map_has trigger (b_versions st) && negb (map_has target (b_versions st)));
    [|intros _ H; exact H].
  destruct (find (named target) (b_packages st)) as [wp|] eqn:Hf; [|intros _ H; exact H].
  destruct (version (manifest wp)) as [v|]; [|intros _ H; exact H].
  destruct (truthy (Some v)); [|intros _ H; exact H].
  destruct (semver_inc E v _ _) as [bumped|]; [|intros _ H; exact H].
  destruct (truthy (Some bumped)); [|intros _ H; exact H].
  now apply bump_backed.
Qed.

Lemma link_all_backed (info : VersionInfo) (pairs : list (string * string)) :
  forall st st',
    each (link_step E info) pairs st = (None, st') ->
    NoDup (map fst (b_versions st)) /\ backed (b_packages st) (b_versions st) ->
    NoDup (map fst (b_versions st')) /\ backed (b_packages st') (b_versions st').
Proof.
  induction pairs as [|pair pairs IH]; intros st st' Hrun H; simpl in Hrun.
  - now injection Hrun as <-.
  - pose proof (link_step_backed info st pair) as Hstep.
    destruct (link_step E info st pair) as [[e|] st1]; [discriminate|].
    apply (IH st1 st' Hrun). now apply Hstep.
Qed.

(** What [processPackages] lists agrees with the manifests it leaves:
    every name and version in the result is the name and the version in
    the manifest of a workspace package after the run (as changesets
    left it, reset to ["0.0.0"], set to the main version, or bumped as a
    linked package), and neither the main package nor a package of
    [untypedPackageTitles] is listed.  The sort is only asked not to
    invent entries. *)
Theorem processPackages_lists_manifest_versions (w w' : World) (out : Output) :
  (forall l x, In x (sort_by_external_order E l) -> In x l) ->
  processPackages E w = (inr out, w') ->
  forall n v,
    In (n, v) (packageVersions out) ->
    n <> mainPackage E /\
    ~ In n (untypedPackageTitles E) /\
    exists p,
      In p (workspacePackages w') /\
      name (manifest p) = Some n /\ version (manifest p) = Some v.
Proof.
  intros Hsort Hrun n v Hin.
  destruct (processPackages_returns w w' out Hrun)
    as (st & info & st1 & st2 & Hc & _ & Hmain & Hlink & -> & ->).
  simpl in *.
  apply Hsort in Hin. apply filter_In in Hin. destruct Hin as [Hin Hout].
  simpl in Hout. apply negb_true_iff in Hout. unfold left_out in Hout. simpl in Hout.
  apply orb_false_iff in Hout. destruct Hout as [Hm Hun].
  split; [now apply String.eqb_neq|]. split.
  - intro Hn.
    assert (existsb (String.eqb n) (untypedPackageTitles E) = true).
    { apply existsb_exists. exists n. split; [exact Hn | apply String.eqb_refl]. }
    congruence.
  - assert (H0 : NoDup (map fst (l_versions st)) /\ backed (seen st) (l_versions st)).
    { apply (collect_all_backed (workspacePackages w)
               (mkLoop [] (files w) (written w) []) st Hc).
      split; [constructor | intros a b []]. }
    assert (H1 : NoDup (map fst (b_versions st1)) /\
                 backed (b_packages st1) (b_versions st1)).
    { pose proof (set_main_backed info
                    (mkBump (seen st) (l_written st) (l_versions st))) as Hs.
      rewrite Hmain in Hs. apply Hs; [reflexivity | exact H0]. }
    destruct (link_all_backed info (linkedPackages E) st1 st2 Hlink H1) as [_ H2].
    exact (H2 n v Hin).
Qed.

Lemma collect_written_grows (x : Project) (st : Loop) (q : Project) :
  In x (l_written st) -> In x (l_written (snd (collect E st q))).
Proof.
  intro H. unfold collect, record_version.
  destruct (name (manifest q)) as [n|]; [|exact H].
  destruct (truthy (Some n)); [|exact H].
  destruct (exists_file _ (l_files st)); [|exact H].
  destruct (version (manifest q)) as [v|].
  - destruct (truthy (Some v)).
    + destruct (private (manifest q)).
      * destruct (write_fails E _); simpl; [exact H|].
        destruct (unlink_fails E _); simpl; apply in_or_app; now left.
      * destruct (unlink_fails E _); exact H.
    + destruct (unlink_fails E _); exact H.
  - destruct (unlink_fails E _); exact H.
Qed.

(** A private package that changesets bumped is reset by the first
    loop, when the loop gets to its end. *)
Lemma collect_all_resets (p : Project) (ps : list Project) :
  forall st st',
    each (collect E) ps st = (None, st') ->
    NoDup (changelog_paths E ps) ->
    In p ps ->
    private (manifest p) = true ->
    truthy (name (manifest p)) = true ->
    truthy (version (manifest p)) = true ->
    In (join E (dir p) "CHANGELOG.md") (l_files st) ->
    In (with_version "0.0.0" p) (l_written st').
Proof.
  induction ps as [|q ps IH]; intros st st' Hrun Hnd Hin Hpriv Hname Hver Hfile;
    [contradiction|].
  simpl in Hrun. pose proof (collect_files st q) as Hfiles.
  destruct (collect E st q) as [[e|] st1] eqn:Hc; [discriminate|]. simpl in Hfiles.
  destruct Hin as [-> | Hin].
  - assert (Hw : In (with_version "0.0.0" p) (l_written st1)).
    { revert Hc. unfold collect, record_version.
      destruct (name (manifest p)) as [n|]; [|discriminate]. rewrite Hname.
      assert (Hex : exists_file (join E (dir p) "CHANGELOG.md") (l_files st) = true).
      { unfold exists_file. apply existsb_exists. eexists. split; [exact Hfile|].
        apply String.eqb_refl. }
      rewrite Hex. destruct (version (manifest p)) as [v|]; [|discriminate].
      rewrite Hver, Hpriv.
      destruct (write_fails E _); [discriminate|].
      destruct (unlink_fails E _); [discriminate|].
      intro H. injection H as <-. simpl. apply in_or_app. right. now left. }
    pose proof (each_inv (collect E) (fun s => In (with_version "0.0.0" p) (l_written s))
                  (collect_written_grows _) ps st1 Hw) as Hend.
    now rewrite Hrun in Hend.
  - unfold changelog_paths in Hnd. simpl in Hnd.
    apply (IH st1 st' Hrun); try assumption.
    + destruct (truthy (name (manifest q))); [|exact Hnd]. now inversion Hnd.
    + rewrite Hfiles.
      destruct (truthy (name (manifest q))) eqn:Eq; [|exact Hfile].
      unfold unlink. apply filter_In. split; [exact Hfile|].
      apply negb_true_iff. apply String.eqb_neq. intro Heq.
      simpl in Hnd. inversion Hnd as [|? ? Hq _]; subst. apply Hq. rewrite <- Heq.
      apply (in_map (fun x => join E (dir x) "CHANGELOG.md")).
      apply filter_In. now split.
Qed.

Lemma bump_written_grows (x : Project) (st : Bump) (n v : string) (wp : Project) :
  In x (b_written st) -> In x (b_written (snd (bump E st n v wp))).
Proof.
  intro H. unfold bump. destruct (write_fails E _); simpl; [exact H|].
  apply in_or_app. now left.
Qed.

Lemma set_main_written_grows (info : VersionInfo) (x : Project) (st : Bump) :
  In x (b_written st) -> In x (b_written (snd (set_main E info st))).
Proof.
  intro H. unfold set_main. destruct (truthy _); [|exact H].
  destruct (find _ _); [now apply bump_written_grows | exact H].
Qed.

Lemma link_step_written_grows (info : VersionInfo) (x : Project) (st : Bump)
    (pair : string * string) :
  In x (b_written st) -> In x (b_written (snd (link_step E info st pair))).
Proof.
  intro H. unfold link_step. destruct pair as [trigger target].
  destruct (map_has trigger (b_versions st) && negb (map_has target (b_versions st)));
    [|exact H].
  destruct (find (named target) (b_packages st)) as [wp|]; [|exact H].
  destruct (version (manifest wp)) as [v|]; [|exact H].
  destruct (truthy (Some v)); [|exact H].
  destruct (semver_inc E v _ _) as [bumped|]; [|exact H].
  destruct (truthy (Some bumped)); [|exact H].
  now apply bump_written_grows.
Qed.

(** The manifests written when [processPackages] is over, for a run
    that got through the first loop: those the loop wrote, and those
    written after. *)
Lemma processPackages_written (w : World) (st : Loop) (x : Project) :
  find_fails E = false ->
  collect_all E w = (None, st) ->
  In x (l_written st) -> In x (written (snd (processPackages E w))).
Proof.
  intros Hfind Hc Hx. unfold processPackages. rewrite Hfind, Hc.
  destruct (getVersionInfo E w (l_versions st)) as [e|info]; [exact Hx|].
  pose proof (set_main_written_grows info x
                (mkBump (seen st) (l_written st) (l_versions st)) Hx) as H1.
  destruct (set_main E info _) as [[e|] st1]; [exact H1|]. simpl in H1.
  pose proof (each_inv (link_step E info) (fun s => In x (b_written s))
                (link_step_written_grows info x) (linkedPackages E) st1 H1) as H2.
  destruct (each (link_step E info) _ st1) as [[e|] st2]; exact H2.
Qed.

(** Unless a call to the file system is rejected, every private package
    that changesets bumped (it has a name, a version and its changelog)
    has its manifest written back with version ["0.0.0"], whether
    [processPackages] then returns or throws one of the errors of
    [getVersionInfo] -- the packages being in different directories. *)
Theorem processPackages_resets_private (w : World) (p : Project) :
  io_failure (fst (processPackages E w)) = false ->
  NoDup (changelog_paths E (workspacePackages w)) ->
  In p (workspacePackages w) ->
  private (manifest p) = true ->
  truthy (name (manifest p)) = true ->
  truthy (version (manifest p)) = true ->
  In (join E (dir p) "CHANGELOG.md") (files w) ->
  In (with_version "0.0.0" p) (written (snd (processPackages E w))).
Proof.
  intros Hio Hnd Hin Hpriv Hname Hver Hfile.
  destruct (processPackages_collected w Hio) as [Hfind Hnone].
  destruct (collect_all E w) as [e st] eqn:Hc. simpl in Hnone. subst e.
  apply (processPackages_written w st _ Hfind Hc).
  unfold collect_all in Hc.
  now apply (collect_all_resets p (workspacePackages w) _ st Hc).
Qed.

Lemma collect_seen (st : Loop) (p : Project) :
  exists q, seen (snd (collect E st p)) = seen st ++ [q] /\
            (q = p \/ q = with_version "0.0.0" p).
Proof.
  assert (Hkeep : exists q, seen st ++ [p] = seen st ++ [q] /\
                            (q = p \/ q = with_version "0.0.0" p)).
  { exists p. split; [reflexivity | now left]. }
  assert (Hreset : exists q, seen st ++ [with_version "0.0.0" p] = seen st ++ [q] /\
                             (q = p \/ q = with_version "0.0.0" p)).
  { eexists. split; [reflexivity | now right]. }
  unfold collect, record_version.
  destruct (name (manifest p)) as [n|]; [|exact Hkeep].
  destruct (truthy (Some n)); [|exact Hkeep].
  destruct (exists_file _ (l_files st)); [|exact Hkeep].
  destruct (version (manifest p)) as [v|].
  - destruct (truthy (Some v)).
    + destruct (private (manifest p)).
      * destruct (write_fails E _); simpl; [exact Hreset|].
        destruct (unlink_fails E _); simpl; exact Hreset.
      * destruct (unlink_fails E _); simpl; exact Hkeep.
    + destruct (unlink_fails E _); simpl; exact Hkeep.
  - destruct (unlink_fails E _); simpl; exact Hkeep.
Qed.

Lemma collect_all_seen (ps : list Project) :
  forall st st',
    each (collect E) ps st = (None, st') ->
    exists qs,
      seen st' = seen st ++ qs /\
      Forall2 (fun p q => q = p \/ q = with_version "0.0.0" p) ps qs.
Proof.
  induction ps as [|p ps IH]; intros st st' Hrun; simpl in Hrun.
  - injection Hrun as <-. exists []. split; [now rewrite app_nil_r | constructor].
  - destruct (collect_seen st p) as (q & Hq & Hrel).
    destruct (collect E st p) as [[e|] st1]; [discriminate|]. simpl in Hq.
    destruct (IH st1 st' Hrun) as (qs & Hqs & Hall).
    exists (q :: qs). split; [|now constructor].
    rewrite Hqs, Hq, <- app_assoc. reflexivity.
Qed.

Lemma find_reset (n : string) (ps qs : list Project) (p : Project) :
  Forall2 (fun p q => q = p \/ q = with_version "0.0.0" p) ps qs ->
  find (named n) ps = Some p ->
  exists q, find (named n) qs = Some q /\ (q = p \/ q = with_version "0.0.0" p).
Proof.
  induction 1 as [|a b ps qs Hab Hall IH]; simpl; [discriminate|].
  assert (Hn : named n b = named n a) by (destruct Hab as [-> | ->]; reflexivity).
  rewrite Hn. destruct (named n a).
  - intro H. injection H as <-. eauto.
  - exact IH.
Qed.

(** [DIRECTUS_VERSION] overrides what changesets recorded: when it is
    set (and not empty) and [processPackages] returns, the main version
    returned is [DIRECTUS_VERSION] as [semver] writes it, whether or not
    the main package was bumped; and the first workspace package named
    [mainPackage], if there is one, has its manifest written back with
    that version. *)
Theorem processPackages_manual_version (w w' : World) (out : Output) (s : string) :
  DIRECTUS_VERSION w = Some s ->
  s <> EmptyString ->
  processPackages E w = (inr out, w') ->
  exists sv,
    semver_parse E s = Some sv /\
    mainVersion out = version_of sv /\
    match find (named (mainPackage E)) (workspacePackages w) with
    | Some p => In (with_version (version_of sv) p) (written w')
    | None => True
    end.
Proof.
  intros Hs Hne Hrun.
  destruct (processPackages_returns w w' out Hrun)
    as (st & info & st1 & st2 & Hc & Hinfo & Hmain & Hlink & -> & ->).
  cbn [mainVersion written].
  unfold getVersionInfo in Hinfo. rewrite Hs in Hinfo.
  destruct (semver_parse E s) as [sv|]; [|discriminate].
  assert (Hi : vi_mainVersion info = version_of sv /\
               vi_manualMainVersion info = Some s).
  { destruct (prerelease_of sv) as [|first rest].
    - injection Hinfo as <-. now split.
    - destruct (pre_json w) as [tag|]; [|discriminate].
      destruct first as [id|k]; [|discriminate].
      destruct tag as [t|]; [|discriminate].
      destruct (String.eqb id t); [|discriminate].
      injection Hinfo as <-. now split. }
  destruct Hi as [Hv Hm].
  exists sv. split; [reflexivity|]. split; [exact Hv|].
  destruct (find (named (mainPackage E)) (workspacePackages w)) as [p|] eqn:Hfind;
    [|exact I].
  assert (H1 : In (with_version (version_of sv) p) (b_written st1)).
  { revert Hmain. unfold set_main. rewrite Hm.
    assert (Ht : truthy (Some s) = true).
    { simpl. apply negb_true_iff. now apply String.eqb_neq. }
    rewrite Ht. cbn [b_packages].
    unfold collect_all in Hc.
    destruct (collect_all_seen (workspacePackages w) _ st Hc) as (qs & Hqs & Hall).
    simpl in Hqs.
    destruct (find_reset _ _ _ _ Hall Hfind) as (q & Hq & Hrel).
    rewrite Hqs, Hq. unfold bump. destruct (write_fails E _); [discriminate|].
    intro H. injection H as <-. cbn [b_written]. apply in_or_app. right. left.
    rewrite Hv. destruct Hrel as [-> | ->]; reflexivity. }
  pose proof (each_inv (link_step E info)
                (fun s0 => In (with_version (version_of sv) p) (b_written s0))
                (link_step_written_grows info _) (linkedPackages E) st1 H1) as H2.
  now rewrite Hlink in H2.
Qed.

End ReleaseScript.

(* ================================================================== *)
(** ** The further properties on the sample data *)

Lemma up_again_is_rejected_witness :
  up sample_uuid no_fault (snd (up sample_uuid no_fault (start orphan_db)))
  = (Err TableExists,
     mkWorld (db (snd (up sample_uuid no_fault (start orphan_db))))
       (trace (snd (up sample_uuid no_fault (start orphan_db))) ++ [EvCreateTable])
       (drawn (snd (up sample_uuid no_fault (start orphan_db))))).
Proof.
  apply (up_again_is_rejected sample_uuid no_fault (start orphan_db)
           (Err ForeignKeyViolation)
           (snd (up sample_uuid no_fault (start orphan_db)))).
  - reflexivity.
  - reflexivity.
  - reflexivity.
  - reflexivity.
Defined.

Lemma down_again_is_rejected_witness :
  down no_fault sample_key (snd (down no_fault sample_key (start migrated_db)))
  = (Err NoSuchTable,
     mkWorld (db (snd (down no_fault sample_key (start migrated_db))))
       (trace (snd (down no_fault sample_key (start migrated_db))) ++ [EvSelectComments])
       (drawn (snd (down no_fault sample_key (start migrated_db))))).
Proof.
  apply (down_again_is_rejected no_fault sample_key (start migrated_db)
           (snd (down no_fault sample_key (start migrated_db)))).
  - reflexivity.
  - reflexivity.
Defined.

Lemma up_resolved_leaves_no_comment_witness :
  Forall (fun a => Activity.comment a = None)
    (directus_activity (db (snd (up sample_uuid no_fault (start legacy_db))))) /\
  legacy_comments (db (snd (up sample_uuid no_fault (start legacy_db)))) = [].
Proof.
  apply (up_resolved_leaves_no_comment sample_uuid no_fault (start legacy_db)
           (snd (up sample_uuid no_fault (start legacy_db)))).
  reflexivity.
Defined.

(** On [orphan_db], where [up] is rejected on the second row. *)
Lemma up_leaves_coherent_tables_witness :
  coherent (directus_activity orphan_db)
    (db (snd (up sample_uuid no_fault (start orphan_db)))).
Proof.
  apply (up_leaves_coherent_tables sample_uuid no_fault (start orphan_db)).
  - reflexivity.
  - distinct_keys.
Defined.

(** On [native_one_db], where [down] inserts an entry. *)
Lemma down_keeps_primary_key_witness :
  NoDup (map Activity.id
           (directus_activity (db (snd (down no_fault sample_key (start native_one_db)))))).
Proof.
  apply (down_keeps_primary_key no_fault sample_key (start native_one_db)).
  distinct_keys.
Defined.

Lemma down_keeps_every_text_witness :
  exists a,
    In a (directus_activity (db (snd (down no_fault sample_key (start shadowed_db))))) /\
    carries native_first a.
Proof.
  apply (down_keeps_every_text no_fault sample_key (start shadowed_db)
           (snd (down no_fault sample_key (start shadowed_db))) [native_first]).
  - distinct_keys.
  - reflexivity.
  - distinct_keys.
  - reflexivity.
  - now left.
Defined.

Lemma up_rejected_then_down_witness :
  exists w2,
    down no_fault sample_key (snd (up sample_uuid no_fault (start orphan_db))) = (Ok tt, w2) /\
    Forall2 same_comment (directus_activity orphan_db) (directus_activity (db w2)) /\
    directus_comments (db w2) = None.
Proof.
  apply (up_rejected_then_down sample_uuid no_fault sample_key (start orphan_db)
           ForeignKeyViolation (snd (up sample_uuid no_fault (start orphan_db)))).
  - engine_ok.
  - reflexivity.
  - distinct_keys.
  - intros a c [<- | [<- | []]] _; reflexivity.
  - reflexivity.
Defined.

Lemma processPackages_main_version_witness :
  exists p v sv,
    In p (Release.workspacePackages sample_workspace) /\
    Release.name (Release.manifest p) = Some (Release.mainPackage sample_env) /\
    Release.truthy (Release.version (Release.manifest p)) = true /\
    In (Release.join sample_env (Release.dir p) "CHANGELOG.md")
      (Release.files sample_workspace) /\
    Release.recorded_version p = Some v /\
    Release.semver_parse sample_env v = Some sv /\
    Release.mainVersion
      (Release.mkOutput "11.0.0-beta.3" true (Some "beta"%string)
         [("@directus/app"%string, "0.0.0"%string);
          ("@directus/sdk"%string, "16.0.0.pre"%string)])
    = Release.version_of sv /\
    match Release.prerelease_of sv with
    | [] =>
        Release.isPrerelease
          (Release.mkOutput "11.0.0-beta.3" true (Some "beta"%string)
             [("@directus/app"%string, "0.0.0"%string);
              ("@directus/sdk"%string, "16.0.0.pre"%string)]) = false /\
        Release.prereleaseId
          (Release.mkOutput "11.0.0-beta.3" true (Some "beta"%string)
             [("@directus/app"%string, "0.0.0"%string);
              ("@directus/sdk"%string, "16.0.0.pre"%string)]) = None
    | first :: _ =>
        exists tag,
          first = Release.PreStr tag /\
          Release.pre_json sample_workspace = Some (Some tag) /\
          Release.isPrerelease
            (Release.mkOutput "11.0.0-beta.3" true (Some "beta"%string)
               [("@directus/app"%string, "0.0.0"%string);
                ("@directus/sdk"%string, "16.0.0.pre"%string)]) = true /\
          Release.prereleaseId
            (Release.mkOutput "11.0.0-beta.3" true (Some "beta"%string)
               [("@directus/app"%string, "0.0.0"%string);
                ("@directus/sdk"%string, "16.0.0.pre"%string)]) = Some tag
    end.
Proof.
  apply (processPackages_main_version sample_env sample_workspace).
  - reflexivity.
  - reflexivity.
Defined.

Lemma processPackages_lists_manifest_versions_witness :
  "@directus/sdk"%string <> Release.mainPackage sample_env /\
  ~ In "@directus/sdk"%string (Release.untypedPackageTitles sample_env) /\
  exists p,
    In p (Release.workspacePackages
            (snd (Release.processPackages sample_env sample_workspace))) /\
    Release.name (Release.manifest p) = Some "@directus/sdk"%string /\
    Release.version (Release.manifest p) = Some "16.0.0.pre"%string.
Proof.
  apply (processPackages_lists_manifest_versions sample_env sample_workspace
           (snd (Release.processPackages sample_env sample_workspace))
           (Release.mkOutput "11.0.0-beta.3" true (Some "beta"%string)
              [("@directus/app"%string, "0.0.0"%string);
               ("@directus/sdk"%string, "16.0.0.pre"%string)])).
  - intros l x H. exact H.
  - reflexivity.
  - right. now left.
Defined.

Lemma processPackages_resets_private_witness :
  In (Release.with_version "0.0.0"
        (Release.mkProject "/ws/app"
           (Release.mkManifest (Some "@directus/app"%string) (Some "12.0.1"%string) true)))
     (Release.written (snd (Release.processPackages sample_env sample_workspace))).
Proof.
  apply (processPackages_resets_private sample_env sample_workspace).
  - reflexivity.
  - distinct_keys.
  - right. now left.
  - reflexivity.
  - reflexivity.
  - reflexivity.
  - right. now left.
Defined.

Lemma processPackages_manual_version_witness :
  exists sv,
    Release.semver_parse sample_env "12.0.0" = Some sv /\
    Release.mainVersion
      (Release.mkOutput "12.0.0" false None
         [("@directus/app"%string, "0.0.0"%string);
          ("@directus/sdk"%string, "16.0.0.patch"%string)])
    = Release.version_of sv /\
    match find (Release.named (Release.mainPackage sample_env))
            (Release.workspacePackages manual_workspace) with
    | Some p =>
        In (Release.with_version (Release.version_of sv) p)
          (Release.written (snd (Release.processPackages sample_env manual_workspace)))
    | None => True
    end.
Proof.
  apply (processPackages_manual_version sample_env manual_workspace
           (snd (Release.processPackages sample_env manual_workspace))
           (Release.mkOutput "12.0.0" false None
              [("@directus/app"%string, "0.0.0"%string);
               ("@directus/sdk"%string, "16.0.0.patch"%string)])
           "12.0.0").
  - reflexivity.
  - discriminate.
  - reflexivity.
Defined.

(** When [unlinkSync] throws on the changelog of the second package,
    [processPackages] throws in the first loop: the changelog of the
    first package is gone, the manifest of the second is reset, and the
    changelogs from the second on are still there. *)
Example processPackages_unlink_throws :
  fst (Release.processPackages stubborn_env sample_workspace)
  = inl Release.UnlinkFailed /\
  Release.files (snd (Release.processPackages stubborn_env sample_workspace))
  = ["/ws/app/CHANGELOG.md"%string; "/ws/scratch/CHANGELOG.md"%string;
     "/ws/README.md"%string] /\
  Release.written (snd (Release.processPackages stubborn_env sample_workspace))
  = [Release.mkProject "/ws/app"
       (Release.mkManifest (Some "@directus/app"%string) (Some "0.0.0"%string) true)].
Proof. repeat split. Qed.
